(** * The sandboxed mini-app loader of the AI Demo Playground

    A shallow embedding of the [ProjectSandbox] component (Vue single-file
    component, [<script setup>] block) and the properties its specification
    states about it.

    The repository holds several revisions of the component.  The embedding
    follows the latest one, the revision with the disposed flag, the
    draining [clearShadow] and the ten-parameter script runner (its text is
    the second document of [src/src/components/Breadcrumbs.vue], lines
    75-672).  Where the earlier revision (second document of
    [src/src/components/ProjectSandbox.vue], lines 288-646) differs, module
    [Earlier] records the difference, and the part of the theorems headed
    "The earlier revision" what follows from it.

    Layout: JavaScript strings, the URL resolver, the DOM tree and the
    document transformer, the real window and the instrumented scope, the
    executor, the loader, and then the theorems. *)

From Stdlib Require Import Bool List String Ascii ZArith NArith Lia DecimalString.
Import ListNotations.
Open Scope string_scope.
Open Scope list_scope.

Set Implicit Arguments.
Set Warnings "-register-all".

(* ================================================================== *)
(** * JavaScript strings *)
(* ================================================================== *)

(** Strings are sequences of code units; the embedding covers the code
    units below 256, one [ascii] each. *)
Module JS.

Definition code (c : ascii) : N := N_of_ascii c.

Definition between (lo hi : N) (c : ascii) : bool :=
  ((lo <=? code c) && (code c <=? hi))%N.

Definition is_upper (c : ascii) : bool := between 65 90 c.
Definition is_lower (c : ascii) : bool := between 97 122 c.
Definition is_digit (c : ascii) : bool := between 48 57 c.
Definition is_alpha (c : ascii) : bool := is_upper c || is_lower c.

(** Upper-case letters of the Latin-1 supplement (all of 192..222 but the
    multiplication sign 215). *)
Definition is_upper_latin1 (c : ascii) : bool :=
  between 192 222 c && negb (code c =? 215)%N.

Definition lower_char (c : ascii) : ascii :=
  if is_upper c || is_upper_latin1 c then ascii_of_N (code c + 32) else c.

(** [String.prototype.toLowerCase]. *)
Fixpoint toLowerCase (s : string) : string :=
  match s with
  | EmptyString => EmptyString
  | String c r => String (lower_char c) (toLowerCase r)
  end.

(** White space and line terminators: TAB, LF, VT, FF, CR, SP, NBSP. *)
Definition is_space (c : ascii) : bool :=
  between 9 13 c || (code c =? 32)%N || (code c =? 160)%N.

Fixpoint trimStart (s : string) : string :=
  match s with
  | EmptyString => EmptyString
  | String c r => if is_space c then trimStart r else s
  end.

Definition reverse (s : string) : string :=
  string_of_list_ascii (rev (list_ascii_of_string s)).

(** [String.prototype.trim]. *)
Definition trim (s : string) : string :=
  reverse (trimStart (reverse (trimStart s))).

(** [s.startsWith(p)]. *)
Definition startsWith (s p : string) : bool := String.prefix p s.

(** Truthiness of a string: every string but the empty one. *)
Definition truthy (s : string) : bool := negb (s =? "").

(** [s.split(sep)] for a one-character separator: never empty. *)
Fixpoint split (sep : ascii) (s : string) : list string :=
  match s with
  | EmptyString => [EmptyString]
  | String c r =>
      if Ascii.eqb c sep then EmptyString :: split sep r
      else match split sep r with
           | p :: ps => String c p :: ps
           | [] => [String c EmptyString]
           end
  end.

(** [parts.join(sep)]. *)
Definition join (sep : string) (parts : list string) : string :=
  String.concat sep parts.

(** Decimal rendering of an integer inside a template literal. *)
Definition string_of_Z (z : Z) : string :=
  NilZero.string_of_int (Z.to_int z).

End JS.

Definition dquote : string := String (ascii_of_nat 34) EmptyString.
Definition newline : string := String (ascii_of_nat 10) EmptyString.

(** Thrown values.  Everything the component throws or receives as a
    rejection is an [Error] instance with a [name] and a [message]. *)
Record js_error : Type := mkError { err_name : string; err_message : string }.

Definition Error_ (msg : string) : js_error := mkError "Error" msg.
Definition TypeError_ (msg : string) : js_error := mkError "TypeError" msg.
Definition SyntaxError_ (msg : string) : js_error := mkError "SyntaxError" msg.
Definition AbortError_ : js_error := mkError "AbortError" "The operation was aborted.".
Definition InvalidCharacterError_ : js_error :=
  mkError "InvalidCharacterError" "String contains an invalid character".

(** Completion of a synchronous computation: a value or a thrown error. *)
Inductive result (A : Type) : Type :=
| Ok (a : A)
| Throw (e : js_error).
Arguments Ok {A} a.
Arguments Throw {A} e.

Definition rbind {A B} (r : result A) (f : A -> result B) : result B :=
  match r with
  | Ok a => f a
  | Throw e => Throw e
  end.

(* ================================================================== *)
(** * URL resolver *)
(* ================================================================== *)

(** The three components of a parsed URL the component reads, and the
    origin it belongs to. *)
Record URLrec : Type := mkURL {
  url_origin : string;
  pathname : string;
  search : string;
  hash : string
}.

(** [/^([a-z][a-z0-9+\-.]*:|\/\/)/i.test(value)], first alternative: the
    remainder of a scheme up to its colon. *)
Fixpoint scheme_rest (s : string) : bool :=
  match s with
  | EmptyString => false
  | String c r =>
      if Ascii.eqb c ":" then true
      else if JS.is_alpha c || JS.is_digit c
              || Ascii.eqb c "+" || Ascii.eqb c "-" || Ascii.eqb c "."
           then scheme_rest r
           else false
  end.

Definition scheme_prefix (s : string) : bool :=
  match s with
  | EmptyString => false
  | String c r => JS.is_alpha c && scheme_rest r
  end.

Definition isExternal (value : string) : bool :=
  (scheme_prefix value || JS.startsWith value "//")
  || JS.startsWith value "data:".

(* ================================================================== *)
(** * Mini-app scripts *)
(* ================================================================== *)

(** A mini-app script is opaque JavaScript.  What the sandbox can observe of
    it is the sequence of calls it makes on the scope it is given, the values
    it writes to a shared recorder, and whether it throws.  A compiled script
    (and every callback it hands out) is that sequence. *)

(** How a call is written in the script: [window.f(...)], [document.f(...)]
    or the bare identifier [f(...)]. *)
Inductive path : Type := ViaWindow | ViaDocument | Bare.

(** The real event targets behind the instrumented scope. *)
Inductive target : Type := RealWindow | RealDocument.

Inductive action : Type :=
| SetTimeout (via : path) (callback : list action) (delay : Z)
| SetInterval (via : path) (callback : list action) (delay : Z)
| RequestAnimationFrame (via : path) (callback : list action)
| ClearTimeout (via : path) (handle : Z)
| ClearInterval (via : path) (handle : Z)
| CancelAnimationFrame (via : path) (handle : Z)
| AddEventListener (via : path) (type : string) (listener : nat)
                   (body : list action) (capture : bool)
| RemoveEventListener (via : path) (type : string) (listener : nat)
                      (capture : bool)
| NewResizeObserver (via : path) (callback : list action)
| WriteRecorder (value : Z)
| ThrowError (e : js_error).

Definition program : Type := list action.

(* ================================================================== *)
(** * DOM trees *)
(* ================================================================== *)

Inductive node : Type :=
| Text (data : string)
| Other (nodeType : Z) (data : string)
| Element (tagName : string) (attributes : list (string * string))
          (childNodes : list node).

(** [node.textContent]: the text of all text descendants; comments and
    processing instructions contribute nothing to an element's text. *)
Fixpoint textContent (n : node) : string :=
  match n with
  | Text d => d
  | Other _ d => d
  | Element _ _ kids =>
      (fix texts (l : list node) : string :=
         match l with
         | [] => EmptyString
         | Other _ _ :: r => texts r
         | k :: r => (textContent k ++ texts r)%string
         end) kids
  end.

(** [element.getAttribute(name)]. *)
Fixpoint getAttribute (attrs : list (string * string)) (name : string)
  : option string :=
  match attrs with
  | [] => None
  | (n, v) :: r => if (n =? name)%string then Some v else getAttribute r name
  end.

(** ASCII lower case, as the DOM puts a name in it: the letters [A] to [Z]
    only. *)
Definition ascii_lower_char (c : ascii) : ascii :=
  if JS.is_upper c then ascii_of_N (JS.code c + 32) else c.

Fixpoint ascii_lowercase (s : string) : string :=
  match s with
  | EmptyString => EmptyString
  | String c r => String (ascii_lower_char c) (ascii_lowercase r)
  end.

(** The attribute list once a value is set under a qualified name: the
    first attribute of that name takes the value in place, or a new
    attribute is appended. *)
Fixpoint put_attribute (attrs : list (string * string)) (name value : string)
  : list (string * string) :=
  match attrs with
  | [] => [(name, value)]
  | (n, v) :: r =>
      if (n =? name)%string then (n, value) :: r
      else (n, v) :: put_attribute r name value
  end.

(** [a || ''] on an attribute value. *)
Definition or_empty (o : option string) : string :=
  match o with
  | Some v => v
  | None => EmptyString
  end.

(** Truthiness of [getAttribute]'s result: present and not empty. *)
Definition attr_truthy (o : option string) : bool :=
  match o with
  | Some v => JS.truthy v
  | None => false
  end.

(* ================================================================== *)
(** * The platform *)
(* ================================================================== *)

(** Browser services the component calls and the repository does not
    define: the [URL] constructor ([None]: it throws a [TypeError]), the page
    origin, [DOMParser.parseFromString(html, 'text/html')] (the children of
    the parsed body), [new Function(...params, body)] ([None]: the body
    does not parse, a [SyntaxError]), and the test [setAttribute] makes of
    the name it is given ([false]: it throws an [InvalidCharacterError]). *)
Record platform : Type := mkPlatform {
  URL_ : string -> URLrec -> option URLrec;
  location_origin : URLrec;
  parseFromString : string -> list node;
  Function_ : list string -> string -> option program;
  validAttributeName : string -> bool
}.

Section Transformer.

Variable P : platform.

Definition resolveUrl (value : string) (baseUrl : URLrec) : result string :=
  if negb (JS.truthy value) || JS.startsWith value "#" || isExternal value
  then Ok value
  else match URL_ P value baseUrl with
       | Some absolute =>
           Ok (pathname absolute ++ search absolute ++ hash absolute)%string
       | None => Throw (TypeError_ "Invalid URL")
       end.

(** [s.split(/\s+/)]: [skipping] is set inside a run of white space. *)
Fixpoint split_ws (skipping : bool) (s : string) : list string :=
  match s with
  | EmptyString => [EmptyString]
  | String c r =>
      if JS.is_space c
      then if skipping then split_ws true r
           else EmptyString :: split_ws true r
      else match split_ws false r with
           | p :: ps => String c p :: ps
           | [] => [String c EmptyString]
           end
  end.

Definition srcset_candidate (candidate : string) (baseUrl : URLrec)
  : result string :=
  let parts := firstn 2 (split_ws false (JS.trim candidate)) in
  match parts with
  | [] => Ok EmptyString
  | p0 :: rest =>
      if negb (JS.truthy p0) then Ok EmptyString
      else rbind (resolveUrl p0 baseUrl) (fun url =>
             match rest with
             | p1 :: _ =>
                 if JS.truthy p1 then Ok (url ++ " " ++ p1)%string else Ok url
             | [] => Ok url
             end)
  end.

Fixpoint map_result {A B} (f : A -> result B) (l : list A) : result (list B) :=
  match l with
  | [] => Ok []
  | a :: r => rbind (f a) (fun b => rbind (map_result f r) (fun bs => Ok (b :: bs)))
  end.

Definition normaliseSrcSet (value : string) (baseUrl : URLrec) : result string :=
  rbind (map_result (fun c => srcset_candidate c baseUrl) (JS.split "," value))
        (fun cs => Ok (JS.join ", " (filter JS.truthy cs))).

(** The tag to URL-attribute table.  A lookup on the object literal also
    finds what every object inherits; such a hit is not an array. *)
Definition attributeMap_own (tagName : string) : option (list string) :=
  if (tagName =? "IMG")%string then Some ["src"; "srcset"]
  else if (tagName =? "SOURCE")%string then Some ["src"; "srcset"]
  else if (tagName =? "SCRIPT")%string then Some ["src"]
  else if (tagName =? "LINK")%string then Some ["href"]
  else if (tagName =? "A")%string then Some ["href"]
  else if (tagName =? "USE")%string then Some ["href"; "xlink:href"]
  else if (tagName =? "VIDEO")%string then Some ["poster"]
  else if (tagName =? "AUDIO")%string then Some ["src"]
  else None.

Definition Object_prototype_keys : list string :=
  ["constructor"; "__defineGetter__"; "__defineSetter__"; "hasOwnProperty";
   "__lookupGetter__"; "__lookupSetter__"; "isPrototypeOf";
   "propertyIsEnumerable"; "toString"; "valueOf"; "__proto__";
   "toLocaleString"].

Definition is_url_attribute (name : string) : bool :=
  (name =? "src")%string || (name =? "href")%string
  || (name =? "xlink:href")%string || (name =? "srcset")%string.

(** [target.setAttribute(name, value)].  The target is an element that
    [document.createElement] made, an HTML element of an HTML document: a
    name the platform does not accept is refused, and an accepted one is
    put in ASCII lower case before it is looked up and set. *)
Definition setAttribute (target : list (string * string)) (name value : string)
  : result (list (string * string)) :=
  if validAttributeName P name
  then Ok (put_attribute target (ascii_lowercase name) value)
  else Throw InvalidCharacterError_.

(** First pass of [transferAttributes]: copy all but the URL attributes. *)
Fixpoint copy_plain (target source : list (string * string))
  : result (list (string * string)) :=
  match source with
  | [] => Ok target
  | (name, value) :: r =>
      if is_url_attribute name then copy_plain target r
      else rbind (setAttribute target name value)
                 (fun target' => copy_plain target' r)
  end.

(** Second pass: resolve the URL attributes the tag carries. *)
Fixpoint resolve_candidates (target source : list (string * string))
  (baseUrl : URLrec) (candidates : list string)
  : result (list (string * string)) :=
  match candidates with
  | [] => Ok target
  | attribute :: r =>
      match getAttribute source attribute with
      | Some rawValue =>
          if negb (JS.truthy rawValue)
          then resolve_candidates target source baseUrl r
          else rbind (if (attribute =? "srcset")%string
                      then normaliseSrcSet rawValue baseUrl
                      else resolveUrl rawValue baseUrl)
                 (fun v =>
                    rbind (setAttribute target attribute v)
                          (fun target' =>
                             resolve_candidates target' source baseUrl r))
      | None => resolve_candidates target source baseUrl r
      end
  end.

Definition transferAttributes (target : list (string * string))
  (tagName : string) (source : list (string * string)) (baseUrl : URLrec)
  : result (list (string * string)) :=
  rbind (copy_plain target source) (fun target1 =>
    match attributeMap_own tagName with
    | Some candidates => resolve_candidates target1 source baseUrl candidates
    | None =>
        if existsb (String.eqb tagName) Object_prototype_keys
        then Throw (TypeError_ "candidates.forEach is not a function")
        else Ok target1
    end).

End Transformer.

(* ================================================================== *)
(** * Asynchronous computations *)
(* ================================================================== *)

(** What [fetch(url)] followed by [response.text()] settles to: a response
    with its status and body, or a rejection. *)
Inductive fetch_result : Type :=
| Response (status : Z) (body : string)
| Rejected (e : js_error).

(** [response.ok]. *)
Definition response_ok (status : Z) : bool :=
  ((200 <=? status) && (status <=? 299))%Z.

(** An [async] function body up to its next network suspension: it has
    returned, thrown, or is awaiting a fetch with the rest of the body as
    continuation.  An [await] of a value that settles without the network
    (an [async] call that returns before it fetches) resumes in a microtask
    of the same turn; the embedding lets no event of the environment in
    between, so the code around such an [await] runs as one piece. *)
Inductive Async (A : Type) : Type :=
| Return (a : A)
| Fail (e : js_error)
| Await (url : string) (k : fetch_result -> Async A).
Arguments Return {A} a.
Arguments Fail {A} e.
Arguments Await {A} url k.

Fixpoint abind {A B} (m : Async A) (f : A -> Async B) : Async B :=
  match m with
  | Return a => f a
  | Fail e => Fail e
  | Await url k => Await url (fun r => abind (k r) f)
  end.

Definition lift_result {A} (r : result A) : Async A :=
  match r with
  | Ok a => Return a
  | Throw e => Fail e
  end.

Notation "x <- m ;; f" := (abind m (fun x => f))
  (at level 61, m at next level, right associativity).

(** Running a computation to completion against a network that answers
    each URL. *)
Fixpoint run_async {A} (net : string -> fetch_result) (m : Async A) : result A :=
  match m with
  | Return a => Ok a
  | Fail e => Throw e
  | Await url k => run_async net (k (net url))
  end.

(* ================================================================== *)
(** * Document transformer *)
(* ================================================================== *)

(** An entry of the scripts bucket: [{ code }], with the compiled [runner]
    cached on it by the executor. *)
Record ScriptUnit : Type := mkScript {
  code : string;
  runner : option program
}.

Definition JS_MIME_TYPES : list string :=
  [""; "text/javascript"; "application/javascript"].

Definition JS_MIME_TYPES_has (type : string) : bool :=
  existsb (String.eqb type) JS_MIME_TYPES.

(** The [type] of a script element as [cloneNodeTree] reads it. *)
Definition script_type (attrs : list (string * string)) : string :=
  JS.toLowerCase (JS.trim (or_empty (getAttribute attrs "type"))).

Definition script_dropped (attrs : list (string * string)) : bool :=
  JS.truthy (script_type attrs) && negb (JS_MIME_TYPES_has (script_type attrs)).

Section Clone.

Variable P : platform.
Variable baseUrl : URLrec.

(** The script branch of [cloneNodeTree]. *)
Definition clone_script (attrs : list (string * string)) (inline : string)
  (scriptsBucket : list ScriptUnit) : Async (option node * list ScriptUnit) :=
  if script_dropped attrs then Return (None, scriptsBucket)
  else
    match getAttribute attrs "src" with
    | Some src =>
        if JS.truthy src
        then
          url <- lift_result (resolveUrl P src baseUrl) ;;
          Await url (fun response =>
            match response with
            | Response status body =>
                if response_ok status
                then Return (None, scriptsBucket ++ [mkScript body None])
                else Fail (Error_ ("Unable to load project script ("
                                     ++ JS.string_of_Z status ++ ")")%string)
            | Rejected e => Fail e
            end)
        else Return (None, scriptsBucket ++ [mkScript inline None])
    | None => Return (None, scriptsBucket ++ [mkScript inline None])
    end.

(** [for (const child of Array.from(node.childNodes)) ...]: the children
    are cloned in order, each with the bucket the previous one left, and the
    clones that are not [null] appended to the element. *)
Fixpoint clone_children
  (clone : node -> list ScriptUnit -> Async (option node * list ScriptUnit))
  (tag : string) (element : list (string * string))
  (l : list node) (appended : list node) (bucket : list ScriptUnit)
  : Async (option node * list ScriptUnit) :=
  match l with
  | [] => Return (Some (Element tag element appended), bucket)
  | child :: r =>
      res <- clone child bucket ;;
      match fst res with
      | Some clonedChild =>
          clone_children clone tag element r (appended ++ [clonedChild]) (snd res)
      | None => clone_children clone tag element r appended (snd res)
      end
  end.

Definition is_stylesheet_link (tagName : string) (attrs : list (string * string))
  : bool :=
  (tagName =? "LINK")%string
  && match getAttribute attrs "rel" with
     | Some rel => (rel =? "stylesheet")%string
     | None => false
     end.

Fixpoint cloneNodeTree (n : node) (scriptsBucket : list ScriptUnit)
  : Async (option node * list ScriptUnit) :=
  match n with
  | Text d => Return (Some (Text d), scriptsBucket)
  | Other _ _ => Return (None, scriptsBucket)
  | Element tagName attrs kids =>
      if (tagName =? "SCRIPT")%string
      then clone_script attrs (textContent n) scriptsBucket
      else if is_stylesheet_link tagName attrs
      then
        link <- lift_result
                  (rbind (transferAttributes P [] tagName attrs baseUrl)
                         (fun link => setAttribute P link "rel" "stylesheet")) ;;
        Return (Some (Element "link" link []), scriptsBucket)
      else
        element <- lift_result (transferAttributes P [] tagName attrs baseUrl) ;;
        clone_children cloneNodeTree (JS.toLowerCase tagName) element kids []
          scriptsBucket
  end.

End Clone.

(* ================================================================== *)
(** * The real window, the shadow root and the resource ledger *)
(* ================================================================== *)

Inductive timer_kind : Type := Timeout | Interval | Frame.

(** A timer or animation frame pending in the real window.  [t_guarded]
    tells that the function handed to the real window is the wrapper that
    tests the disposed flag before it calls [t_callback]. *)
Record timer : Type := mkTimer {
  t_handle : Z;
  t_kind : timer_kind;
  t_callback : program;
  t_guarded : bool
}.

(** A registered event listener; [l_fn] is the identity of the function
    object, [l_serial] the identity of the registration. *)
Record listener : Type := mkListener {
  l_serial : Z;
  l_target : target;
  l_type : string;
  l_fn : nat;
  l_capture : bool;
  l_body : program
}.

Record observer : Type := mkObserver {
  o_serial : Z;
  o_callback : program
}.

(** The release callbacks the component pushes on [__sandboxCleanup]. *)
Inductive release : Type :=
| RClearTimeout (handle : Z)
| RClearInterval (handle : Z)
| RCancelAnimationFrame (handle : Z)
| RRemoveEventListener (t : target) (type : string) (listener : nat)
                       (capture : bool)
| RDisconnect (serial : Z)
| RDisableDprSizer.

(** Values that reach a script through the runner call. *)
Inductive binding : Type := Instrumented | Real | Missing.

Inductive value : Type :=
| VUndefined
| VGlobalThis
| VShadowRoot
| VInstrumentedWindow
| VInstrumentedDocument
| VMember (name : string) (b : binding).

(** The callbacks the browser calls on behalf of a script. *)
Inductive resource : Type := TimerCallback | ListenerCallback | ObserverCallback.

(** What an observer of the page sees, in order. *)
Inductive obs : Type :=
| ODebug (label : string) (ticket : Z)
| ORelease (r : release)
| ORootRemove (n : node)
| ORootAppend (n : node)
| ORun (index : nat) (this : value) (args : list value)
| OInvoke (k : resource) (id : Z)
| ORecord (v : Z)
| OConsoleError (label : string) (e : js_error).

Record window : Type := mkWindow {
  next_handle : Z;
  timers : list timer;
  listeners : list listener;
  observers : list observer;
  has_ResizeObserver : bool
}.

(** The host's shadow root: whether it has been attached, its children, and
    the two fields the component keeps on it. *)
Record shadow : Type := mkShadow {
  attached : bool;
  children : list node;
  sandboxCleanup : option (list release);
  sandboxDisposed : bool
}.

Record sandbox : Type := mkSandbox {
  root : shadow;
  win : window;
  dprSizer : bool;
  trace : list obs
}.

Definition with_root (f : shadow -> shadow) (sb : sandbox) : sandbox :=
  mkSandbox (f (root sb)) (win sb) (dprSizer sb) (trace sb).

Definition with_win (f : window -> window) (sb : sandbox) : sandbox :=
  mkSandbox (root sb) (f (win sb)) (dprSizer sb) (trace sb).

Definition set_dprSizer (b : bool) (sb : sandbox) : sandbox :=
  mkSandbox (root sb) (win sb) b (trace sb).

Definition log (o : obs) (sb : sandbox) : sandbox :=
  mkSandbox (root sb) (win sb) (dprSizer sb) (trace sb ++ [o]).

Definition set_attached (b : bool) (r : shadow) : shadow :=
  mkShadow b (children r) (sandboxCleanup r) (sandboxDisposed r).

Definition set_children (c : list node) (r : shadow) : shadow :=
  mkShadow (attached r) c (sandboxCleanup r) (sandboxDisposed r).

Definition set_cleanup (l : option (list release)) (r : shadow) : shadow :=
  mkShadow (attached r) (children r) l (sandboxDisposed r).

Definition set_disposed (b : bool) (r : shadow) : shadow :=
  mkShadow (attached r) (children r) (sandboxCleanup r) b.

Definition set_timers (ts : list timer) (w : window) : window :=
  mkWindow (next_handle w) ts (listeners w) (observers w) (has_ResizeObserver w).

Definition set_listeners (ls : list listener) (w : window) : window :=
  mkWindow (next_handle w) (timers w) ls (observers w) (has_ResizeObserver w).

Definition set_observers (os : list observer) (w : window) : window :=
  mkWindow (next_handle w) (timers w) (listeners w) os (has_ResizeObserver w).

Definition bump_handle (w : window) : window :=
  mkWindow (next_handle w + 1) (timers w) (listeners w) (observers w)
           (has_ResizeObserver w).

(** ** Operations of the real window and document *)

(** [setTimeout], [setInterval], [requestAnimationFrame]: a fresh handle. *)
Definition real_schedule (k : timer_kind) (cb : program) (guarded : bool)
  (sb : sandbox) : Z * sandbox :=
  let h := next_handle (win sb) in
  (h, with_win (fun w =>
         bump_handle (set_timers (timers w ++ [mkTimer h k cb guarded]) w)) sb).

Definition is_frame (k : timer_kind) : bool :=
  match k with
  | Frame => true
  | _ => false
  end.

(** [clearTimeout] and [clearInterval] share one pool of handles. *)
Definition real_clearTimer (h : Z) (sb : sandbox) : sandbox :=
  with_win (fun w =>
    set_timers (filter (fun t => negb ((t_handle t =? h)%Z
                                        && negb (is_frame (t_kind t))))
                       (timers w)) w) sb.

Definition real_cancelAnimationFrame (h : Z) (sb : sandbox) : sandbox :=
  with_win (fun w =>
    set_timers (filter (fun t => negb ((t_handle t =? h)%Z
                                        && is_frame (t_kind t)))
                       (timers w)) w) sb.

Definition target_eqb (a b : target) : bool :=
  match a, b with
  | RealWindow, RealWindow => true
  | RealDocument, RealDocument => true
  | _, _ => false
  end.

(** A listener is identified by target, type, function and capture flag. *)
Definition same_listener (t : target) (type : string) (fn : nat)
  (capture : bool) (l : listener) : bool :=
  target_eqb (l_target l) t && (l_type l =? type)%string
  && Nat.eqb (l_fn l) fn && Bool.eqb (l_capture l) capture.

(** [addEventListener]: a second registration of the same listener is
    ignored. *)
Definition real_addEventListener (t : target) (type : string) (fn : nat)
  (body : program) (capture : bool) (sb : sandbox) : sandbox :=
  if existsb (same_listener t type fn capture) (listeners (win sb)) then sb
  else
    let s := next_handle (win sb) in
    with_win (fun w =>
      bump_handle
        (set_listeners (listeners w ++ [mkListener s t type fn capture body]) w))
      sb.

Definition real_removeEventListener (t : target) (type : string) (fn : nat)
  (capture : bool) (sb : sandbox) : sandbox :=
  with_win (fun w =>
    set_listeners (filter (fun l => negb (same_listener t type fn capture l))
                          (listeners w)) w) sb.

(** [new ResizeObserver(callback)], already observing. *)
Definition real_newObserver (cb : program) (sb : sandbox) : Z * sandbox :=
  let s := next_handle (win sb) in
  (s, with_win (fun w =>
         bump_handle (set_observers (observers w ++ [mkObserver s cb]) w)) sb).

Definition real_disconnect (serial : Z) (sb : sandbox) : sandbox :=
  with_win (fun w =>
    set_observers (filter (fun o => negb (o_serial o =? serial)%Z)
                          (observers w)) w) sb.

(** [disableDprSizer]: the sizer's own observers and canvas bookkeeping
    live outside the sandbox; only whether it is active is kept. *)
Definition disableDprSizer (sb : sandbox) : sandbox := set_dprSizer false sb.

(** ** The ledger *)

Definition cleanup_list (sb : sandbox) : list release :=
  match sandboxCleanup (root sb) with
  | Some l => l
  | None => []
  end.

(** [cleanupList.push(fn)]. *)
Definition push_cleanup (r : release) (sb : sandbox) : sandbox :=
  with_root (set_cleanup (Some (cleanup_list sb ++ [r]))) sb.

(** Calling one release callback. *)
Definition apply_release (r : release) (sb : sandbox) : sandbox :=
  match r with
  | RClearTimeout h => real_clearTimer h sb
  | RClearInterval h => real_clearTimer h sb
  | RCancelAnimationFrame h => real_cancelAnimationFrame h sb
  | RRemoveEventListener t type fn capture =>
      real_removeEventListener t type fn capture sb
  | RDisconnect serial => real_disconnect serial sb
  | RDisableDprSizer => disableDprSizer sb
  end.

(** [__sandboxCleanup.forEach(fn => { try { fn?.() } catch ... })]. *)
Definition run_releases (l : list release) (sb : sandbox) : sandbox :=
  fold_left (fun s r => apply_release r (log (ORelease r) s)) l sb.

(** The drain: every callback of the ledger, then [length = 0]. *)
Definition drain (sb : sandbox) : sandbox :=
  match sandboxCleanup (root sb) with
  | Some l => with_root (set_cleanup (Some [])) (run_releases l sb)
  | None => sb
  end.

(** [while (shadow.firstChild) shadow.removeChild(shadow.firstChild)]. *)
Definition remove_children (sb : sandbox) : sandbox :=
  with_root (set_children [])
    (fold_left (fun s n => log (ORootRemove n) s) (children (root sb)) sb).

Definition appendChild (n : node) (sb : sandbox) : sandbox :=
  log (ORootAppend n) (with_root (fun r => set_children (children r ++ [n]) r) sb).

(** The body of [clearShadow] once the shadow root is known to exist. *)
Definition clear_shadow (sb : sandbox) : sandbox :=
  let sb1 := drain sb in
  let sb2 := match sandboxCleanup (root sb1) with
             | Some _ => with_root (set_disposed true) sb1
             | None => sb1
             end in
  remove_children sb2.

(* ================================================================== *)
(** * The instrumented scope *)
(* ================================================================== *)

Definition one_of (names : list string) (prop : string) : bool :=
  existsb (String.eqb prop) names.

(** Members of the real document and window among the names a script of
    this model can call. *)
Definition real_document_has (prop : string) : bool :=
  one_of ["addEventListener"; "removeEventListener"] prop.

Definition real_window_has (w : window) (prop : string) : bool :=
  one_of ["requestAnimationFrame"; "cancelAnimationFrame"; "setTimeout";
          "clearTimeout"; "setInterval"; "clearInterval"; "addEventListener";
          "removeEventListener"] prop
  || ((prop =? "ResizeObserver")%string && has_ResizeObserver w).

(** The [get] trap of [instrumentedDocument]. *)
Definition instrumentedDocument_get (prop : string) : binding :=
  if (prop =? "addEventListener")%string then Instrumented
  else if (prop =? "removeEventListener")%string then Real
  else if real_document_has prop then Real
  else Missing.

(** The [get] trap of [instrumentedWindow]. *)
Definition instrumentedWindow_get (w : window) (prop : string) : binding :=
  if (prop =? "requestAnimationFrame")%string then Instrumented
  else if (prop =? "setTimeout")%string then Instrumented
  else if (prop =? "setInterval")%string then Instrumented
  else if (prop =? "addEventListener")%string then Instrumented
  else if (prop =? "removeEventListener")%string then Real
  else if (prop =? "ResizeObserver")%string && has_ResizeObserver w
       then Instrumented
  else if real_window_has w prop then Real
  else Missing.

(** The parameter names of the compiled runner and the arguments of
    [runner.call(target, ...)]. *)
Definition runner_params : list string :=
  ["sandboxRoot"; "window"; "document"; "requestAnimationFrame";
   "cancelAnimationFrame"; "setTimeout"; "clearTimeout"; "setInterval";
   "clearInterval"; "ResizeObserver"].

Definition window_member (w : window) (prop : string) : value :=
  VMember prop (instrumentedWindow_get w prop).

Definition runner_this : value := VShadowRoot.

Definition runner_arguments (w : window) : list value :=
  [VShadowRoot; VInstrumentedWindow; VInstrumentedDocument;
   window_member w "requestAnimationFrame";
   window_member w "cancelAnimationFrame";
   window_member w "setTimeout";
   window_member w "clearTimeout";
   window_member w "setInterval";
   window_member w "clearInterval";
   window_member w "ResizeObserver"].

Fixpoint lookup_param (name : string) (params : list string)
  (args : list value) : option value :=
  match params, args with
  | p :: ps, a :: rest =>
      if (p =? name)%string then Some a else lookup_param name ps rest
  | _, _ => None
  end.

(** A bare identifier is the runner's parameter of that name, and a member
    of the real global object otherwise. *)
Definition bare_binding (w : window) (name : string) : binding :=
  match lookup_param name runner_params (runner_arguments w) with
  | Some (VMember _ b) => b
  | Some _ => Missing
  | None => if real_window_has w name then Real else Missing
  end.

Definition binding_of (via : path) (w : window) (name : string) : binding :=
  match via with
  | ViaWindow => instrumentedWindow_get w name
  | ViaDocument => instrumentedDocument_get name
  | Bare => bare_binding w name
  end.

Definition target_of (via : path) : target :=
  match via with
  | ViaDocument => RealDocument
  | _ => RealWindow
  end.

Definition release_of (k : timer_kind) (h : Z) : release :=
  match k with
  | Timeout => RClearTimeout h
  | Interval => RClearInterval h
  | Frame => RCancelAnimationFrame h
  end.

(** The wrappers of [requestAnimationFrame], [setTimeout] and
    [setInterval]: nothing is scheduled on a disposed root; otherwise the
    real call is made with the guarding wrapper and its release recorded. *)
Definition instrumented_schedule (k : timer_kind) (cb : program)
  (sb : sandbox) : Z * sandbox :=
  if sandboxDisposed (root sb) then ((-1)%Z, sb)
  else
    let hs := real_schedule k cb true sb in
    (fst hs, push_cleanup (release_of k (fst hs)) (snd hs)).

Definition instrumented_requestAnimationFrame := instrumented_schedule Frame.
Definition instrumented_setTimeout := instrumented_schedule Timeout.
Definition instrumented_setInterval := instrumented_schedule Interval.

Definition instrumented_addEventListener (t : target) (type : string)
  (fn : nat) (body : program) (capture : bool) (sb : sandbox) : sandbox :=
  push_cleanup (RRemoveEventListener t type fn capture)
    (real_addEventListener t type fn body capture sb).

(** [new WrappedResizeObserver(callback)]. *)
Definition WrappedResizeObserver (cb : program) (sb : sandbox) : Z * sandbox :=
  let ss := real_newObserver cb sb in
  (fst ss, push_cleanup (RDisconnect (fst ss)) (snd ss)).

Definition not_a_function (name : string) : js_error :=
  TypeError_ (name ++ " is not a function")%string.

(** One call of a script, with the outcome of the call: [None] when it
    returns, the error when it throws. *)
Definition schedule_via (via : path) (name : string) (k : timer_kind)
  (cb : program) (sb : sandbox) : sandbox * option js_error :=
  match binding_of via (win sb) name with
  | Instrumented => (snd (instrumented_schedule k cb sb), None)
  | Real => (snd (real_schedule k cb false sb), None)
  | Missing => (sb, Some (not_a_function name))
  end.

Definition real_via (via : path) (name : string) (f : sandbox -> sandbox)
  (sb : sandbox) : sandbox * option js_error :=
  match binding_of via (win sb) name with
  | Missing => (sb, Some (not_a_function name))
  | _ => (f sb, None)
  end.

Definition exec_action (a : action) (sb : sandbox)
  : sandbox * option js_error :=
  match a with
  | SetTimeout via cb _ => schedule_via via "setTimeout" Timeout cb sb
  | SetInterval via cb _ => schedule_via via "setInterval" Interval cb sb
  | RequestAnimationFrame via cb =>
      schedule_via via "requestAnimationFrame" Frame cb sb
  | ClearTimeout via h => real_via via "clearTimeout" (real_clearTimer h) sb
  | ClearInterval via h => real_via via "clearInterval" (real_clearTimer h) sb
  | CancelAnimationFrame via h =>
      real_via via "cancelAnimationFrame" (real_cancelAnimationFrame h) sb
  | AddEventListener via type fn body capture =>
      match binding_of via (win sb) "addEventListener" with
      | Instrumented =>
          (instrumented_addEventListener (target_of via) type fn body capture sb,
           None)
      | Real =>
          (real_addEventListener (target_of via) type fn body capture sb, None)
      | Missing => (sb, Some (not_a_function "addEventListener"))
      end
  | RemoveEventListener via type fn capture =>
      real_via via "removeEventListener"
        (real_removeEventListener (target_of via) type fn capture) sb
  | NewResizeObserver via cb =>
      match binding_of via (win sb) "ResizeObserver" with
      | Instrumented => (snd (WrappedResizeObserver cb sb), None)
      | Real => (snd (real_newObserver cb sb), None)
      | Missing => (sb, Some (not_a_function "ResizeObserver"))
      end
  | WriteRecorder v => (log (ORecord v) sb, None)
  | ThrowError e => (sb, Some e)
  end.

(** A script or callback body: its calls in order, up to the first one
    that throws. *)
Fixpoint exec_program (p : program) (sb : sandbox) : sandbox * option js_error :=
  match p with
  | [] => (sb, None)
  | a :: r =>
      match exec_action a sb with
      | (sb', None) => exec_program r sb'
      | (sb', Some e) => (sb', Some e)
      end
  end.

(** A callback the browser calls: an error it throws is reported, not
    propagated. *)
Definition invoke (k : resource) (id : Z) (cb : program) (sb : sandbox)
  : sandbox :=
  match exec_program cb (log (OInvoke k id) sb) with
  | (sb', None) => sb'
  | (sb', Some e) => log (OConsoleError "Uncaught" e) sb'
  end.

(** The timer or frame with handle [h] comes due.  A timeout and a frame
    fire once; an interval stays scheduled.  The guarding wrapper calls the
    callback only while the root is not disposed. *)
Definition fire (h : Z) (sb : sandbox) : sandbox :=
  match find (fun t => (t_handle t =? h)%Z) (timers (win sb)) with
  | None => sb
  | Some t =>
      let sb1 :=
        match t_kind t with
        | Interval => sb
        | _ => with_win (fun w =>
                 set_timers (filter (fun t' => negb (t_handle t' =? h)%Z)
                                    (timers w)) w) sb
        end in
      if t_guarded t && sandboxDisposed (root sb1) then sb1
      else invoke TimerCallback h (t_callback t) sb1
  end.

(** An event of the given type is dispatched on a real target: the
    listeners registered at that moment, each one if still registered when
    its turn comes. *)
Definition dispatch (t : target) (type : string) (sb : sandbox) : sandbox :=
  fold_left
    (fun s l =>
       if existsb (fun l' => (l_serial l' =? l_serial l)%Z) (listeners (win s))
       then invoke ListenerCallback (l_serial l) (l_body l) s
       else s)
    (filter (fun l => target_eqb (l_target l) t && (l_type l =? type)%string)
            (listeners (win sb)))
    sb.

(** A resize observer reports. *)
Definition notify (serial : Z) (sb : sandbox) : sandbox :=
  match find (fun o => (o_serial o =? serial)%Z) (observers (win sb)) with
  | None => sb
  | Some o => invoke ObserverCallback serial (o_callback o) sb
  end.

(* ================================================================== *)
(** * Executor *)
(* ================================================================== *)

(** The directive the runner body starts with. *)
Definition use_strict : string :=
  (dquote ++ "use strict" ++ dquote ++ ";" ++ newline)%string.

(** [s.replace(/pat/g, rep)] for a literal pattern; [skip] counts the code
    units of a match still to drop. *)
Fixpoint replace_all (pat rep : string) (skip : nat) (s : string) : string :=
  match s with
  | EmptyString => EmptyString
  | String c r =>
      match skip with
      | S k => replace_all pat rep k r
      | O =>
          if String.prefix pat s
          then (rep ++ replace_all pat rep (String.length pat - 1) r)%string
          else String c (replace_all pat rep 0 r)
      end
  end.

Definition prepare_code (source : string) : string :=
  replace_all "document.currentScript.getRootNode()" "sandboxRoot" 0 source.

(** The [this] of a function body called with [thisArg]: as given in strict
    code; the global object in place of [undefined] otherwise. *)
Definition this_binding (body : string) (thisArg : value) : value :=
  if JS.startsWith body (dquote ++ "use strict" ++ dquote)%string then thisArg
  else match thisArg with
       | VUndefined => VGlobalThis
       | v => v
       end.

Section Executor.

Variable P : platform.

(** The body handed to [new Function] for one entry. *)
Definition runner_body (entry : ScriptUnit) : string :=
  (use_strict ++ prepare_code (code entry))%string.

Definition compile (entry : ScriptUnit) : option program :=
  match runner entry with
  | Some r => Some r
  | None => Function_ P runner_params (runner_body entry)
  end.

(** [scriptsBucket.forEach((entry, i) => ...)].  [ticket] is the component's
    counter, which no script can reach; a [return] in the callback goes on
    with the next entry.  The result carries the error that leaves the loop,
    if any: a body that does not compile. *)
Fixpoint run_scripts (ticket currentTicket : Z) (i : nat)
  (scripts : list ScriptUnit) (sb : sandbox) : sandbox * option js_error :=
  match scripts with
  | [] => (sb, None)
  | entry :: rest =>
      if negb (ticket =? currentTicket)%Z
      then run_scripts ticket currentTicket (S i) rest sb
      else
        match compile entry with
        | None => (sb, Some (SyntaxError_ "Unexpected token"))
        | Some r =>
            let sb1 := log (ODebug "script:run" currentTicket) sb in
            let sb2 := log (ORun i (this_binding (runner_body entry) runner_this)
                                  (runner_arguments (win sb1))) sb1 in
            let out := exec_program r sb2 in
            let sb3 :=
              match snd out with
              | Some e =>
                  log (OConsoleError "[sandbox] script execution failed:" e)
                      (fst out)
              | None => fst out
              end in
            run_scripts ticket currentTicket (S i) rest sb3
        end
  end.

End Executor.

(* ================================================================== *)
(** * Loader *)
(* ================================================================== *)

Inductive lifecycle : Type := Loading | Loaded | Failed.

(** [createEventPayload(slug, entryPoint, ticketValue, extra)]. *)
Record payload : Type := mkPayload {
  p_slug : string;
  p_entryPoint : string;
  p_ticket : Z;
  p_error : option string;
  p_empty : bool
}.

Definition createEventPayload (slug entryPoint : string) (ticketValue : Z)
  : payload :=
  mkPayload slug entryPoint ticketValue None false.

(** A network request the component has issued, with the abort signal it
    carries, if any. *)
Record request : Type := mkRequest {
  rq_url : string;
  rq_signal : option Z
}.

(** Where a suspended [loadProject] call waits: on the entry document, or
    inside [cloneNodeTree] of a top-level child on the source of a script,
    with the top-level children still to visit. *)
Inductive point : Type :=
| AtEntry (controller : Z)
| AtClone (baseUrl : URLrec)
          (k : fetch_result -> Async (option node * list ScriptUnit))
          (rest : list node).

Record task : Type := mkTask {
  tk_slug : string;
  tk_entryPoint : string;
  tk_ticket : Z;
  tk_point : point
}.

(** The component instance between setup and disposal; [host.value] is the
    host element exactly while it is [Mounted]. *)
Inductive phase : Type := Setup | Mounted | Unmounted.

Record state : Type := mkState {
  ticket : Z;
  activeController : option Z;
  next_controller : Z;
  aborted : list Z;
  life : phase;
  fullscreen : bool;
  emitted : list (lifecycle * payload);
  requests : list request;
  pending : list task;
  box : sandbox
}.

Definition set_ticket (t : Z) (s : state) : state :=
  mkState t (activeController s) (next_controller s) (aborted s) (life s)
          (fullscreen s) (emitted s) (requests s) (pending s) (box s).

Definition set_controller (c : option Z) (s : state) : state :=
  mkState (ticket s) c (next_controller s) (aborted s) (life s)
          (fullscreen s) (emitted s) (requests s) (pending s) (box s).

Definition new_controller (s : state) : state :=
  mkState (ticket s) (Some (next_controller s)) (next_controller s + 1)
          (aborted s) (life s) (fullscreen s) (emitted s) (requests s)
          (pending s) (box s).

Definition set_aborted (l : list Z) (s : state) : state :=
  mkState (ticket s) (activeController s) (next_controller s) l (life s)
          (fullscreen s) (emitted s) (requests s) (pending s) (box s).

Definition set_life (p : phase) (s : state) : state :=
  mkState (ticket s) (activeController s) (next_controller s) (aborted s) p
          (fullscreen s) (emitted s) (requests s) (pending s) (box s).

Definition set_fullscreen (b : bool) (s : state) : state :=
  mkState (ticket s) (activeController s) (next_controller s) (aborted s)
          (life s) b (emitted s) (requests s) (pending s) (box s).

Definition emit (l : lifecycle) (p : payload) (s : state) : state :=
  mkState (ticket s) (activeController s) (next_controller s) (aborted s)
          (life s) (fullscreen s) (emitted s ++ [(l, p)]) (requests s)
          (pending s) (box s).

Definition issue (r : request) (s : state) : state :=
  mkState (ticket s) (activeController s) (next_controller s) (aborted s)
          (life s) (fullscreen s) (emitted s) (requests s ++ [r])
          (pending s) (box s).

Definition set_pending (l : list task) (s : state) : state :=
  mkState (ticket s) (activeController s) (next_controller s) (aborted s)
          (life s) (fullscreen s) (emitted s) (requests s) l (box s).

Definition with_box (f : sandbox -> sandbox) (s : state) : state :=
  mkState (ticket s) (activeController s) (next_controller s) (aborted s)
          (life s) (fullscreen s) (emitted s) (requests s) (pending s)
          (f (box s)).

Definition host_value (s : state) : bool :=
  match life s with
  | Mounted => true
  | _ => false
  end.

Definition clearShadow (s : state) : state :=
  if host_value s && attached (root (box s)) then with_box clear_shadow s
  else s.

(** [enableDprSizer]: needs the shadow root, does nothing when already
    active, and registers its teardown on the ledger when there is one. *)
Definition enable_sizer (sb : sandbox) : sandbox :=
  let sb1 := set_dprSizer true sb in
  match sandboxCleanup (root sb1) with
  | Some _ => push_cleanup RDisableDprSizer sb1
  | None => sb1
  end.

Definition enableDprSizer (s : state) : state :=
  if negb (host_value s && attached (root (box s))) then s
  else if dprSizer (box s) then s
  else with_box enable_sizer s.

(** The style element [injectHtml] puts first in the shadow root. *)
Definition fullscreen_host : string :=
  (":host([data-fullscreen=" ++ dquote ++ "true" ++ dquote ++ "])")%string.

Definition default_css : string :=
  JS.join newline
    [EmptyString;
     ("    " ++ fullscreen_host ++ " {")%string;
     "      width: 100%;";
     "      height: 100%;";
     "      display: block;";
     "    }";
     ("    " ++ fullscreen_host ++ " body {")%string;
     "      margin: 0;";
     "      min-height: 100%;";
     "    }";
     "    /* Expand canvases in fullscreen to fill the sandbox host */";
     ("    " ++ fullscreen_host ++ " canvas {")%string;
     "      width: 100% !important;";
     "      height: 100% !important;";
     "      max-width: 100% !important;";
     "      max-height: 100% !important;";
     "      display: block;";
     "    }";
     "  "].

Definition defaultStyle : node := Element "style" [] [Text default_css].

(** How a call of [injectHtml] ends or suspends. *)
Inductive inject_outcome : Type :=
| Returned
| Thrown (e : js_error)
| Suspended (url : string)
            (k : fetch_result -> Async (option node * list ScriptUnit))
            (rest : list node).

Section Loader.

Variable P : platform.

(** The end of [injectHtml], after the loop over the top-level children. *)
Definition finish_inject (currentTicket : Z) (scriptsBucket : list ScriptUnit)
  (s : state) : state * inject_outcome :=
  if negb (ticket s =? currentTicket)%Z then (s, Returned)
  else
    let out := run_scripts P (ticket s) currentTicket 0 scriptsBucket (box s) in
    match snd out with
    | Some e => (with_box (fun _ => fst out) s, Thrown e)
    | None =>
        let s1 := with_box (fun _ => log (ODebug "inject:done" currentTicket)
                                         (fst out)) s in
        ((if fullscreen s1 then enableDprSizer s1 else s1), Returned)
    end.

(** One top-level child has been cloned up to [m]. *)
Definition clone_step (continue : list ScriptUnit -> state -> state * inject_outcome)
  (m : Async (option node * list ScriptUnit)) (rest : list node) (s : state)
  : state * inject_outcome :=
  match m with
  | Return res =>
      continue (snd res)
        match fst res with
        | Some cloned => with_box (appendChild cloned) s
        | None => s
        end
  | Fail e => (s, Thrown e)
  | Await url k => (issue (mkRequest url None) s, Suspended url k rest)
  end.

(** [for (const child of nodes) { if (ticket !== currentTicket) return; ... }]
    and what follows it. *)
Fixpoint inject_nodes (currentTicket : Z) (baseUrl : URLrec)
  (nodes : list node) (scriptsBucket : list ScriptUnit) (s : state)
  : state * inject_outcome :=
  match nodes with
  | [] => finish_inject currentTicket scriptsBucket s
  | child :: rest =>
      if negb (ticket s =? currentTicket)%Z then (s, Returned)
      else
        clone_step (inject_nodes currentTicket baseUrl rest)
          (cloneNodeTree P baseUrl child scriptsBucket) rest s
  end.

(** The synchronous head of [injectHtml]: attach the shadow root if need
    be, drain the ledger or create it, empty the root, reset the disposed
    flag and put the default style in. *)
Definition inject_begin (currentTicket : Z) (sb : sandbox) : sandbox :=
  let sb1 := with_root (set_attached true) sb in
  let sb2 := log (ODebug "inject:start" currentTicket) sb1 in
  let sb3 := match sandboxCleanup (root sb2) with
             | Some _ => drain sb2
             | None => with_root (set_cleanup (Some [])) sb2
             end in
  let sb4 := remove_children sb3 in
  let sb5 := with_root (set_disposed false) sb4 in
  appendChild defaultStyle sb5.

Definition injectHtml (html : string) (baseUrl : URLrec) (currentTicket : Z)
  (s : state) : state * inject_outcome :=
  if negb (host_value s) then (s, Returned)
  else
    let nodes := parseFromString P html in
    inject_nodes currentTicket baseUrl nodes []
      (with_box (inject_begin currentTicket) s).

(** The [catch] block of [loadProject]. *)
Definition load_catch (tk : task) (e : js_error) (s : state) : state :=
  if (err_name e =? "AbortError")%string then s
  else if (ticket s =? tk_ticket tk)%Z
  then emit Failed
         (mkPayload (tk_slug tk) (tk_entryPoint tk) (tk_ticket tk)
                    (Some (err_message e)) false)
         (clearShadow s)
  else s.

(** What [loadProject] does with the way [injectHtml] came back. *)
Definition after_inject (tk : task) (baseUrl : URLrec)
  (r : state * inject_outcome) : state :=
  match snd r with
  | Returned =>
      if (ticket (fst r) =? tk_ticket tk)%Z
      then emit Loaded
             (createEventPayload (tk_slug tk) (tk_entryPoint tk) (tk_ticket tk))
             (fst r)
      else fst r
  | Thrown e => load_catch tk e (fst r)
  | Suspended _ k rest =>
      set_pending
        (pending (fst r)
           ++ [mkTask (tk_slug tk) (tk_entryPoint tk) (tk_ticket tk)
                      (AtClone baseUrl k rest)])
        (fst r)
  end.

(** [loadProject] up to its first [await]. *)
Definition loadProject (slug entryPoint : string) (currentTicket : Z)
  (s : state) : state :=
  let s1 := match activeController s with
            | Some c => set_aborted (aborted s ++ [c]) s
            | None => s
            end in
  let signal := next_controller s1 in
  let s2 := new_controller s1 in
  let s3 := emit Loading (createEventPayload slug entryPoint currentTicket) s2 in
  let s4 := issue (mkRequest entryPoint (Some signal)) s3 in
  set_pending
    (pending s4 ++ [mkTask slug entryPoint currentTicket (AtEntry signal)]) s4.

(** [loadProject] from the settled entry fetch on. *)
Definition resume_entry (tk : task) (r : fetch_result) (s : state) : state :=
  match r with
  | Rejected e => load_catch tk e s
  | Response status html =>
      if negb (response_ok status)
      then load_catch tk
             (Error_ ("Unable to load project asset ("
                        ++ JS.string_of_Z status ++ ")")%string) s
      else
        match URL_ P (tk_entryPoint tk) (location_origin P) with
        | None => load_catch tk (TypeError_ "Invalid URL") s
        | Some baseUrl =>
            after_inject tk baseUrl (injectHtml html baseUrl (tk_ticket tk) s)
        end
  end.

(** [injectHtml] from a settled script fetch on: the rest of the current
    child, its [appendChild], the remaining children. *)
Definition resume_clone (tk : task) (baseUrl : URLrec)
  (m : Async (option node * list ScriptUnit)) (rest : list node) (s : state)
  : state :=
  after_inject tk baseUrl
    (clone_step (inject_nodes (tk_ticket tk) baseUrl rest) m rest s).

(** The callback of the watcher on [[slug, entryPoint]]. *)
Definition watch_project (slug entryPoint : string) (s : state) : state :=
  let currentTicket := (ticket s + 1)%Z in
  let s1 := set_ticket currentTicket s in
  if negb (JS.truthy slug)
  then emit Failed
         (mkPayload slug entryPoint currentTicket
                    (Some "Sandbox slug is missing. Cannot load project.") false)
         (clearShadow s1)
  else if negb (JS.truthy entryPoint)
  then emit Loaded (mkPayload slug entryPoint currentTicket None true)
         (clearShadow s1)
  else loadProject slug entryPoint currentTicket s1.

(** The callback of the watcher on [props.fullscreen]. *)
Definition watch_fullscreen (next : bool) (s : state) : state :=
  if next then enableDprSizer s else with_box disableDprSizer s.

Definition onBeforeUnmount (s : state) : state :=
  let s1 := set_ticket (ticket s + 1)%Z s in
  let s2 := clearShadow s1 in
  let s3 := match activeController s2 with
            | Some c => set_controller None (set_aborted (aborted s2 ++ [c]) s2)
            | None => s2
            end in
  with_box disableDprSizer s3.

(** ** The component in its environment *)

(** What the network answers to a request that was not aborted. *)
Inductive net_outcome : Type :=
| NetResponse (status : Z) (body : string)
| NetFailure (message : string).

Definition settle (o : net_outcome) : fetch_result :=
  match o with
  | NetResponse status body => Response status body
  | NetFailure m => Rejected (TypeError_ m)
  end.

Inductive event : Type :=
| Mount
| Observe (slug entryPoint : string)
| SetFullscreen (next : bool)
| Unmount
| Deliver (i : nat) (o : net_outcome)
| Fire (handle : Z)
| Dispatch (t : target) (type : string)
| Notify (serial : Z).

Fixpoint remove_nth {A} (i : nat) (l : list A) : list A :=
  match i, l with
  | _, [] => []
  | O, _ :: r => r
  | S j, a :: r => a :: remove_nth j r
  end.

(** The [i]-th suspended call is resumed.  A fetch whose signal was aborted
    rejects with an [AbortError]. *)
Definition deliver (i : nat) (o : net_outcome) (s : state) : state :=
  match nth_error (pending s) i with
  | None => s
  | Some tk =>
      let s0 := set_pending (remove_nth i (pending s)) s in
      match tk_point tk with
      | AtEntry c =>
          resume_entry tk
            (if existsb (Z.eqb c) (aborted s) then Rejected AbortError_
             else settle o) s0
      | AtClone baseUrl k rest =>
          resume_clone tk baseUrl (k (settle o)) rest s0
      end
  end.

Definition step (s : state) (e : event) : state :=
  match e with
  | Mount =>
      match life s with
      | Setup => set_life Mounted s
      | _ => s
      end
  | Observe slug entryPoint =>
      match life s with
      | Unmounted => s
      | _ => watch_project slug entryPoint s
      end
  | SetFullscreen next =>
      match life s with
      | Unmounted => s
      | _ => if Bool.eqb next (fullscreen s) then s
             else watch_fullscreen next (set_fullscreen next s)
      end
  | Unmount =>
      match life s with
      | Unmounted => s
      | _ => set_life Unmounted (onBeforeUnmount s)
      end
  | Deliver i o => deliver i o s
  | Fire h => with_box (fire h) s
  | Dispatch t type => with_box (dispatch t type) s
  | Notify serial => with_box (notify serial) s
  end.

Definition run (s : state) (es : list event) : state := fold_left step es s.

End Loader.

Definition fresh_window (resizeObserver : bool) : window :=
  mkWindow 1 [] [] [] resizeObserver.

Definition fresh_sandbox (resizeObserver : bool) : sandbox :=
  mkSandbox (mkShadow false [] None false) (fresh_window resizeObserver) false [].

(** The component as [setup] leaves it, before the immediate first run of
    the watcher. *)
Definition initial (resizeObserver : bool) : state :=
  mkState 0 None 1 [] Setup false [] [] [] (fresh_sandbox resizeObserver).

(* ================================================================== *)
(** * A reference platform *)
(* ================================================================== *)

(** Modelled from the URL Standard (the [URL] constructor is a browser
    service, not repository code): resolution of a reference made of a path,
    a query and a fragment against a hierarchical base.  Dot segments are
    removed; code units are kept as they are (no percent-encoding, no
    stripping of white space, no backslash rewriting). *)
Module Std.

(** [s] up to the first [sep], and what follows it, if [sep] occurs. *)
Fixpoint cut (sep : ascii) (s : string) : string * option string :=
  match s with
  | EmptyString => (EmptyString, None)
  | String c r =>
      if Ascii.eqb c sep then (EmptyString, Some r)
      else let p := cut sep r in (String c (fst p), snd p)
  end.

(** The segments of a path that starts with a slash. *)
Definition segments (path : string) : list string :=
  match JS.split "/" path with
  | EmptyString :: r => r
  | l => l
  end.

(** The path state of the URL parser over the segments of the reference;
    [stack] is the path built so far, last segment first. *)
Fixpoint walk (stack segs : list string) : list string :=
  match segs with
  | [] => rev stack
  | seg :: rest =>
      let last := match rest with
                  | [] => true
                  | _ => false
                  end in
      if (seg =? "..")%string
      then if last then walk (EmptyString :: tl stack) rest
           else walk (tl stack) rest
      else if (seg =? ".")%string
      then if last then walk (EmptyString :: stack) rest else walk stack rest
      else walk (seg :: stack) rest
  end.

Definition with_mark (mark s : string) : string :=
  if (s =? "")%string then EmptyString else (mark ++ s)%string.

Definition URL (reference : string) (base : URLrec) : option URLrec :=
  let rest := fst (cut "#" reference) in
  let fragment := snd (cut "#" reference) in
  let path := fst (cut "?" rest) in
  let query := snd (cut "?" rest) in
  let new_hash := match fragment with
                  | Some f => with_mark "#" f
                  | None => EmptyString
                  end in
  if (path =? "")%string
  then Some (mkURL (url_origin base) (pathname base)
               match query with
               | Some q => with_mark "?" q
               | None => search base
               end new_hash)
  else
    let segs :=
      if JS.startsWith path "/" then walk [] (segments path)
      else walk (rev (removelast (segments (pathname base)))) (JS.split "/" path)
    in
    Some (mkURL (url_origin base) ("/" ++ JS.join "/" segs)%string
            match query with
            | Some q => with_mark "?" q
            | None => EmptyString
            end new_hash).

Definition origin : URLrec :=
  mkURL "https://playground.example" "/" EmptyString EmptyString.

(** A platform with this [URL], a parser and a compiler given as tables
    from document text to body children and from script source to
    behaviour, and the test of attribute names below. *)
Definition lookup {A} (table : list (string * A)) (key : string) : option A :=
  match find (fun e => (fst e =? key)%string) table with
  | Some e => Some (snd e)
  | None => None
  end.

Definition parse_table (table : list (string * list node)) (html : string)
  : list node :=
  match lookup table html with
  | Some nodes => nodes
  | None => []
  end.

Definition compile_table (table : list (string * program))
  (params : list string) (body : string) : option program :=
  lookup (map (fun e => ((use_strict ++ prepare_code (fst e))%string, snd e)) table)
         body.

(** The names [setAttribute] accepts: the [Name] production of XML, over
    the code units below 256. *)
Definition name_start_char (c : ascii) : bool :=
  Ascii.eqb c ":" || Ascii.eqb c "_" || JS.is_alpha c
  || JS.between 192 214 c || JS.between 216 246 c || JS.between 248 255 c.

Definition name_char (c : ascii) : bool :=
  name_start_char c || Ascii.eqb c "-" || Ascii.eqb c "." || JS.is_digit c
  || (JS.code c =? 183)%N.

Fixpoint name_rest (s : string) : bool :=
  match s with
  | EmptyString => true
  | String c r => name_char c && name_rest r
  end.

Definition valid_name (s : string) : bool :=
  match s with
  | EmptyString => false
  | String c r => name_start_char c && name_rest r
  end.

Definition platform_of (documents : list (string * list node))
  (scripts : list (string * program)) : platform :=
  mkPlatform URL origin (parse_table documents) (compile_table scripts)
             valid_name.

End Std.

(** The base URL of a mini-app served under [/projects/demo/]. *)
Definition demo_base : URLrec :=
  mkURL "https://playground.example" "/projects/demo/" EmptyString EmptyString.

(* ================================================================== *)
(** * Specification-side vocabulary *)
(* ================================================================== *)

(** A value carries a URI scheme: a letter, then letters, digits, [+], [-]
    or [.], then a colon. *)
Definition scheme_char (c : ascii) : bool :=
  JS.is_alpha c || JS.is_digit c
  || Ascii.eqb c "+" || Ascii.eqb c "-" || Ascii.eqb c ".".

Definition carries_scheme (v : string) : Prop :=
  exists c sch rest,
    v = String c (string_of_list_ascii sch ++ String ":" rest)%string
    /\ JS.is_alpha c = true
    /\ forallb scheme_char sch = true.

(** The values the resolver is to hand back unchanged. *)
Definition passes_through (v : string) : Prop :=
  v = EmptyString
  \/ JS.startsWith v "#" = true
  \/ carries_scheme v
  \/ JS.startsWith v "//" = true
  \/ JS.startsWith v "data:" = true.

(** Path, query and fragment of the value resolved against the base. *)
Definition resolved_against (P : platform) (v : string) (baseUrl : URLrec)
  : result string :=
  match URL_ P v baseUrl with
  | Some u => Ok (pathname u ++ search u ++ hash u)%string
  | None => Throw (TypeError_ "Invalid URL")
  end.

(** The loop of [injectHtml] over the top-level children as a computation
    of its own, for a load no newer ticket interrupts: the nodes appended to
    the root, in order, and the scripts bucket. *)
Fixpoint transform (P : platform) (baseUrl : URLrec) (nodes : list node)
  (scriptsBucket : list ScriptUnit) : Async (list node * list ScriptUnit) :=
  match nodes with
  | [] => Return ([], scriptsBucket)
  | child :: rest =>
      res <- cloneNodeTree P baseUrl child scriptsBucket ;;
      more <- transform P baseUrl rest (snd res) ;;
      Return (match fst res with
              | Some cloned => cloned :: fst more
              | None => fst more
              end, snd more)
  end.








(** ** Document order *)

(** The script elements of a tree, in document order. *)
Fixpoint script_elements (n : node) : list node :=
  match n with
  | Element t _ kids =>
      (if (t =? "SCRIPT")%string then [n] else []) ++ flat_map script_elements kids
  | _ => []
  end.

Definition is_element (n : node) : bool :=
  match n with
  | Element _ _ _ => true
  | _ => false
  end.

(** The nesting the HTML parser produces: a script element holds text only
    and a link element holds nothing. *)
Fixpoint html_nested (n : node) : bool :=
  match n with
  | Element t _ kids =>
      (if (t =? "SCRIPT")%string || (t =? "LINK")%string
       then forallb (fun k => negb (is_element k)) kids
       else true)
      && forallb html_nested kids
  | _ => true
  end.

(** The source a script element contributes: none when its type is not
    executable, the body fetched from its resolved [src] when it has one,
    its inline text otherwise. *)
Definition script_source (P : platform) (baseUrl : URLrec)
  (net : string -> fetch_result) (n : node) : list string :=
  match n with
  | Element _ attrs _ =>
      if script_dropped attrs then []
      else if attr_truthy (getAttribute attrs "src")
      then match resolveUrl P (or_empty (getAttribute attrs "src")) baseUrl with
           | Ok url =>
               match net url with
               | Response _ body => [body]
               | Rejected _ => []
               end
           | Throw _ => []
           end
      else [textContent n]
  | _ => []
  end.

(** ** What a script is expected to do *)

Definition missing (via : path) (w : window) (name : string) : option js_error :=
  match binding_of via w name with
  | Missing => Some (not_a_function name)
  | _ => None
  end.

(** The error a call throws, if it throws. *)
Definition action_error (w : window) (a : action) : option js_error :=
  match a with
  | SetTimeout via _ _ => missing via w "setTimeout"
  | SetInterval via _ _ => missing via w "setInterval"
  | RequestAnimationFrame via _ => missing via w "requestAnimationFrame"
  | ClearTimeout via _ => missing via w "clearTimeout"
  | ClearInterval via _ => missing via w "clearInterval"
  | CancelAnimationFrame via _ => missing via w "cancelAnimationFrame"
  | AddEventListener via _ _ _ _ => missing via w "addEventListener"
  | RemoveEventListener via _ _ _ => missing via w "removeEventListener"
  | NewResizeObserver via _ => missing via w "ResizeObserver"
  | WriteRecorder _ => None
  | ThrowError e => Some e
  end.

(** The values a body writes to the recorder, up to its first throwing
    call, and the error of that call. *)
Fixpoint program_writes (w : window) (p : program) : list Z :=
  match p with
  | [] => []
  | a :: r =>
      match action_error w a with
      | Some _ => []
      | None =>
          match a with
          | WriteRecorder v => v :: program_writes w r
          | _ => program_writes w r
          end
      end
  end.

Fixpoint program_error (w : window) (p : program) : option js_error :=
  match p with
  | [] => None
  | a :: r =>
      match action_error w a with
      | Some e => Some e
      | None => program_error w r
      end
  end.

(** What one script run is expected to leave in the trace: the debug
    line, the call of the runner on the shadow root, the script's writes,
    and the report of its error if it threw. *)
Definition script_trace (w : window) (currentTicket : Z) (i : nat)
  (r : program) : list obs :=
  [ODebug "script:run" currentTicket;
   ORun i VShadowRoot (runner_arguments w)]
  ++ map ORecord (program_writes w r)
  ++ match program_error w r with
     | Some e => [OConsoleError "[sandbox] script execution failed:" e]
     | None => []
     end.

(** The traces of the scripts of a bucket one after the other, in bucket
    order, up to the first body that does not compile. *)
Fixpoint expected_trace (P : platform) (w : window) (currentTicket : Z)
  (i : nat) (scripts : list ScriptUnit) : list obs :=
  match scripts with
  | [] => []
  | entry :: rest =>
      match compile P entry with
      | None => []
      | Some r =>
          script_trace w currentTicket i r
          ++ expected_trace P w currentTicket (S i) rest
      end
  end.

Definition compiles (P : platform) (entry : ScriptUnit) : Prop :=
  compile P entry <> None.

(** The observation a call leaves when it returns. *)
Definition action_obs (a : action) : list obs :=
  match a with
  | WriteRecorder v => [ORecord v]
  | _ => []
  end.

(** ** Sample inputs *)

(** A body with three script tags: inline, loaded from [two.js], inline. *)
Definition three_scripts : list node :=
  [Element "SCRIPT" [] [Text "rec(1)"];
   Element "SCRIPT" [("src", "two.js")] [];
   Element "SCRIPT" [("type", "text/javascript")] [Text "rec(3)"]].

(** A network that serves [two.js] of the demo mini-app and nothing else. *)
Definition demo_net (url : string) : fetch_result :=
  if (url =? "/projects/demo/two.js")%string then Response 200 "rec(2)"
  else Response 404 EmptyString.

(** Three scripts that write 1, 2 and 3 to the recorder; the second throws
    after its write. *)
Definition recorder_scripts : list (string * program) :=
  [("rec(1)", [WriteRecorder 1]);
   ("rec(2)", [WriteRecorder 2; ThrowError (Error_ "boom"); WriteRecorder 22]);
   ("rec(3)", [WriteRecorder 3])].

Definition recorder_bucket : list ScriptUnit :=
  [mkScript "rec(1)" None; mkScript "rec(2)" None; mkScript "rec(3)" None].

Definition demo_platform : platform :=
  Std.platform_of [("<three scripts>", three_scripts)] recorder_scripts.

(** A mounted component whose current load has ticket 1. *)
Definition loading_state : state :=
  mkState 1 (Some 1%Z) 2 [] Mounted false
    [(Loading, createEventPayload "demo" "/projects/demo/index.html" 1)]
    [mkRequest "/projects/demo/index.html" (Some 1%Z)] []
    (mkSandbox (mkShadow true [defaultStyle] (Some []) false)
               (fresh_window true) false []).

Definition demo_task : task :=
  mkTask "demo" "/projects/demo/index.html" 1 (AtEntry 1).

(** Cloning a tree appends the sources of its script elements to the
    bucket, in document order. *)
Definition sources_appended (P : platform) (baseUrl : URLrec)
  (net : string -> fetch_result) (n : node) : Prop :=
  html_nested n = true ->
  forall bucket o b',
    run_async net (cloneNodeTree P baseUrl n bucket) = Ok (o, b') ->
    map code b'
    = map code bucket ++ flat_map (script_source P baseUrl net) (script_elements n).

(** ** Ledger bookkeeping *)

(** Which resources a release callback puts an end to. *)
Definition kills_timer (r : release) (t : timer) : bool :=
  match r with
  | RClearTimeout h => (t_handle t =? h)%Z && negb (is_frame (t_kind t))
  | RClearInterval h => (t_handle t =? h)%Z && negb (is_frame (t_kind t))
  | RCancelAnimationFrame h => (t_handle t =? h)%Z && is_frame (t_kind t)
  | _ => false
  end.

Definition kills_listener (r : release) (l : listener) : bool :=
  match r with
  | RRemoveEventListener t type fn capture => same_listener t type fn capture l
  | _ => false
  end.

Definition kills_observer (r : release) (o : observer) : bool :=
  match r with
  | RDisconnect serial => (o_serial o =? serial)%Z
  | _ => false
  end.

(** A listener one of the ledger's callbacks removes. *)
Definition on_ledger (ledger : list release) (l : listener) : bool :=
  existsb (fun r => kills_listener r l) ledger.

(** The state every reachable sandbox is in: each pending timer or frame
    carries the guarding wrapper and has its release on the ledger, each
    observer has its disconnect on the ledger, and every handle and serial
    in use is below the next one to be handed out. *)
Definition timer_sound (sb : sandbox) (t : timer) : Prop :=
  t_guarded t = true
  /\ In (release_of (t_kind t) (t_handle t)) (cleanup_list sb)
  /\ (t_handle t < next_handle (win sb))%Z.

Definition observer_sound (sb : sandbox) (o : observer) : Prop :=
  In (RDisconnect (o_serial o)) (cleanup_list sb)
  /\ (o_serial o < next_handle (win sb))%Z.

Definition sound (sb : sandbox) : Prop :=
  Forall (timer_sound sb) (timers (win sb))
  /\ Forall (observer_sound sb) (observers (win sb))
  /\ Forall (fun l => (l_serial l < next_handle (win sb))%Z) (listeners (win sb))
  /\ NoDup (map l_serial (listeners (win sb))).

(** Nothing older than [N] is left to call but the listeners [S0], and
    since the trace [T0] nothing else has been called. *)
Definition allowed (N : Z) (S0 : list Z) (o : obs) : Prop :=
  match o with
  | OInvoke k id =>
      (N <= id)%Z \/ (k = ListenerCallback /\ In id S0)
  | _ => True
  end.

Definition quiet (N : Z) (S0 : list Z) (T0 : list obs) (sb : sandbox) : Prop :=
  (N <= next_handle (win sb))%Z
  /\ Forall (fun t => (N <= t_handle t)%Z) (timers (win sb))
  /\ Forall (fun o => (N <= o_serial o)%Z) (observers (win sb))
  /\ Forall (fun l => (N <= l_serial l)%Z \/ In (l_serial l) S0)
            (listeners (win sb))
  /\ exists d, trace sb = T0 ++ d /\ Forall (allowed N S0) d.



(** A mini-app that starts a repeating timer with a bare [setInterval] and
    registers a [resize] listener on the window, and a page of plain text. *)
Definition timer_scripts : list (string * program) :=
  [("tick()",
    [SetInterval Bare [WriteRecorder 7] 1000;
     AddEventListener ViaWindow "resize" 0 [WriteRecorder 8] false])].

Definition timer_platform : platform :=
  Std.platform_of
    [("<timer app>", [Element "SCRIPT" [] [Text "tick()"]]);
     ("<p>", [Element "P" [] [Text "hello"]])]
    timer_scripts.

(** The component set up with the timer app, mounted, and the entry
    document delivered. *)
Definition timer_app_loaded : list event :=
  [Observe "demo" "/projects/demo/index.html"; Mount;
   Deliver 0 (NetResponse 200 "<timer app>")].

(** The same, and then the catalog entry loses its entry point. *)
Definition timer_app_emptied : list event :=
  timer_app_loaded ++ [Observe "demo" EmptyString].





(** ** The claims the code departs from, as predicates *)

(** A step leaves the rendering root as it was. *)
Definition root_untouched (P : platform) (s : state) (e : event) : Prop :=
  root (box (step P s e)) = root (box s).

(** What a call that creates a resource is to do when it is tracked: the
    real operation, with the release that undoes it appended to the
    ledger. *)
Definition tracked_effect (a : action) (sb : sandbox) : sandbox :=
  match a with
  | SetTimeout _ cb _ =>
      let hs := real_schedule Timeout cb true sb in
      push_cleanup (RClearTimeout (fst hs)) (snd hs)
  | SetInterval _ cb _ =>
      let hs := real_schedule Interval cb true sb in
      push_cleanup (RClearInterval (fst hs)) (snd hs)
  | RequestAnimationFrame _ cb =>
      let hs := real_schedule Frame cb true sb in
      push_cleanup (RCancelAnimationFrame (fst hs)) (snd hs)
  | AddEventListener via type fn body capture =>
      push_cleanup (RRemoveEventListener (target_of via) type fn capture)
        (real_addEventListener (target_of via) type fn body capture sb)
  | NewResizeObserver _ cb =>
      let ss := real_newObserver cb sb in
      push_cleanup (RDisconnect (fst ss)) (snd ss)
  | _ => sb
  end.

Definition call_tracked (a : action) (sb : sandbox) : Prop :=
  exec_action a sb = (tracked_effect a sb, None).

(** The calls that schedule a timer or a frame. *)
Definition schedules (a : action) : bool :=
  match a with
  | SetTimeout _ _ _ => true
  | SetInterval _ _ _ => true
  | RequestAnimationFrame _ _ => true
  | _ => false
  end.

(** The resource-creating calls the instrumented scope intercepts: timers
    and frames through the window or by their bare name, listeners through
    the window or the document, observers through the window or by their
    bare name where the platform has them. *)
Definition intercepted (w : window) (a : action) : bool :=
  match a with
  | SetTimeout via _ _ | SetInterval via _ _ | RequestAnimationFrame via _ =>
      match via with
      | ViaDocument => false
      | _ => true
      end
  | AddEventListener via _ _ _ _ =>
      match via with
      | Bare => false
      | _ => true
      end
  | NewResizeObserver via _ =>
      match via with
      | ViaDocument => false
      | _ => has_ResizeObserver w
      end
  | _ => false
  end.

(** ** A race between two loads *)

(** Document [<a>] holds a block whose script is fetched from [slow.js];
    document [<b>] is a paragraph. *)
Definition race_platform : platform :=
  Std.platform_of
    [("<a>", [Element "DIV" []
                [Element "SCRIPT" [("src", "slow.js")] []; Text "stale"]]);
     ("<b>", [Element "P" [] [Text "fresh"]])]
    [("slow()", [WriteRecorder 1])].

(** The first load is waiting for [slow.js] when the descriptor changes;
    the second load runs to completion. *)
Definition race : list event :=
  [Observe "demo" "/projects/demo/a.html"; Mount;
   Deliver 0 (NetResponse 200 "<a>");
   Observe "demo" "/projects/demo/b.html";
   Deliver 1 (NetResponse 200 "<b>")].

(** The entry point of the descriptor goes away while the first load is
    still fetching its document. *)
Definition overtaken : list event :=
  [Observe "demo" "/projects/demo/a.html"; Mount; Observe "demo" EmptyString].

(** ** Tickets and events *)

(** From [s] to [s'] the ticket has not moved, and the events emitted in
    between all carry it. *)
Definition advances (s s' : state) : Prop :=
  ticket s' = ticket s
  /\ exists d, emitted s' = emitted s ++ d
               /\ Forall (fun ev => p_ticket (snd ev) = ticket s) d.

(** The tickets of the emitted events, oldest first. *)
Definition emitted_tickets (s : state) : list Z :=
  map (fun ev => p_ticket (snd ev)) (emitted s).

Fixpoint nondecreasing (l : list Z) : Prop :=
  match l with
  | [] => True
  | a :: r => Forall (fun b => (a <= b)%Z) r /\ nondecreasing r
  end.

(** ** Settled events and waiting loads *)

Definition settled (l : lifecycle) : bool :=
  match l with
  | Loading => false
  | _ => true
  end.

(** How many [loaded] and [error] events carry ticket [t], and how many
    suspended loads hold it. *)
Definition settled_count (t : Z) (evs : list (lifecycle * payload)) : nat :=
  List.length (filter (fun ev => settled (fst ev) && (p_ticket (snd ev) =? t)%Z) evs).

Definition waiting_count (t : Z) (tasks : list task) : nat :=
  List.length (filter (fun tk => (tk_ticket tk =? t)%Z) tasks).

(** A computation that never fails with an [AbortError], whatever the
    network answers. *)
Inductive clean {A : Type} : Async A -> Prop :=
| clean_return (a : A) : clean (Return a)
| clean_fail (e : js_error) :
    (err_name e =? "AbortError")%string = false -> clean (Fail e)
| clean_await (url : string) (k : fetch_result -> Async A) :
    (forall o, clean (k (settle o))) -> clean (Await url k).

Definition result_clean {A : Type} (r : result A) : Prop :=
  match r with
  | Ok _ => True
  | Throw e => (err_name e =? "AbortError")%string = false
  end.

Definition alive (s : state) : bool :=
  match life s with
  | Unmounted => false
  | _ => true
  end.

(** A suspended load is in order: its ticket is not ahead, the fetch of the
    current load's entry document has not been aborted, and a continuation
    never fails with an [AbortError]. *)
Definition task_ok (s : state) (tk : task) : Prop :=
  (tk_ticket tk <= ticket s)%Z
  /\ match tk_point tk with
     | AtEntry c =>
         (c < next_controller s)%Z
         /\ (tk_ticket tk = ticket s -> existsb (Z.eqb c) (aborted s) = false)
     | AtClone _ k _ => forall o, clean (k (settle o))
     end.

(** The books of the loader: nothing is ahead of the current ticket, and
    the settled events and suspended loads of the current ticket number
    [n] together. *)
Definition balance (n : nat) (s : state) : Prop :=
  (0 <= ticket s)%Z
  /\ Forall (task_ok s) (pending s)
  /\ Forall (fun ev => (p_ticket (snd ev) <= ticket s)%Z) (emitted s)
  /\ Forall (fun c => (c < next_controller s)%Z) (aborted s)
  /\ match activeController s with
     | Some c => (c < next_controller s)%Z
     | None => True
     end
  /\ (settled_count (ticket s) (emitted s)
      + waiting_count (ticket s) (pending s))%nat = n.

(** While the component lives and has seen a descriptor there is exactly
    one thing for the current ticket: a settled event or a suspended load. *)
Definition accounted (s : state) : Prop :=
  balance (if alive s && (1 <=? ticket s)%Z then 1 else 0) s.

(** What resuming the load [tk] adds to the books. *)
Definition due (tk : task) (s : state) : nat :=
  if (tk_ticket tk =? ticket s)%Z then 1 else 0.

(** How [injectHtml] may come back for the load that holds the current
    ticket. *)
Definition outcome_clean (o : inject_outcome) : Prop :=
  match o with
  | Returned => True
  | Thrown e => (err_name e =? "AbortError")%string = false
  | Suspended _ k _ => forall o, clean (k (settle o))
  end.

(** Only the sandbox, the full-screen flag and the log of requests
    differ. *)
Definition same_loader (s s' : state) : Prop :=
  ticket s' = ticket s /\ activeController s' = activeController s
  /\ next_controller s' = next_controller s /\ aborted s' = aborted s
  /\ life s' = life s /\ emitted s' = emitted s /\ pending s' = pending s.

(** The load that holds the current ticket comes to an end whatever the
    network answers: nothing is suspended under the current ticket, or a
    load is and, resumed with any answer, leaves a state of which the same
    holds. *)
Inductive settles_eventually (P : platform) (s : state) : Prop :=
| settled_now :
    waiting_count (ticket s) (pending s) = 0%nat -> settles_eventually P s
| settles_after (i : nat) (tk : task) :
    nth_error (pending s) i = Some tk -> tk_ticket tk = ticket s ->
    (forall o, settles_eventually P (deliver P i o s)) ->
    settles_eventually P s.

(* ================================================================== *)
(** * The earlier revision *)
(* ================================================================== *)

(** What the earlier revision of the component has in place of the
    definitions above: no disposed flag, a [clearShadow] that only empties
    the root, wrappers that hand the script's own callback to the real
    window, a runner of three parameters, no default style and no sizer.
    Everything else is as above. *)
Module Earlier.

(** [while (shadowRoot.firstChild) shadowRoot.removeChild(...)]. *)
Definition clearShadow (s : state) : state :=
  if host_value s && attached (root (box s)) then with_box remove_children s
  else s.

(** The wrappers of [requestAnimationFrame], [setTimeout] and
    [setInterval]. *)
Definition instrumented_schedule (k : timer_kind) (cb : program)
  (sb : sandbox) : Z * sandbox :=
  let hs := real_schedule k cb false sb in
  (fst hs, push_cleanup (release_of k (fst hs)) (snd hs)).

(** [new Function('sandboxRoot', 'window', 'document', ...)] and
    [runner.call(target, target, instrumentedWindow, instrumentedDocument)]. *)
Definition runner_params : list string := ["sandboxRoot"; "window"; "document"].

Definition runner_arguments : list value :=
  [VShadowRoot; VInstrumentedWindow; VInstrumentedDocument].

Definition bare_binding (w : window) (name : string) : binding :=
  match lookup_param name runner_params runner_arguments with
  | Some (VMember _ b) => b
  | Some _ => Missing
  | None => if real_window_has w name then Real else Missing
  end.

(** The synchronous head of [injectHtml]. *)
Definition inject_begin (currentTicket : Z) (sb : sandbox) : sandbox :=
  let sb1 := with_root (set_attached true) sb in
  let sb2 := log (ODebug "inject:start" currentTicket) sb1 in
  let sb3 := match sandboxCleanup (root sb2) with
             | Some _ => drain sb2
             | None => with_root (set_cleanup (Some [])) sb2
             end in
  remove_children sb3.

Definition onBeforeUnmount (s : state) : state :=
  let s1 := set_ticket (ticket s + 1)%Z s in
  let s2 := clearShadow s1 in
  match activeController s2 with
  | Some c => set_controller None (set_aborted (aborted s2 ++ [c]) s2)
  | None => s2
  end.

End Earlier.

(** A mounted component of the earlier revision whose mini-app has started
    an interval through the instrumented window. *)
Definition earlier_ticking : state :=
  let sb := with_root (fun r => set_cleanup (Some []) (set_attached true r))
              (fresh_sandbox true) in
  mkState 1 None 2 [] Mounted false [] [] []
    (snd (Earlier.instrumented_schedule Interval [WriteRecorder 7] sb)).

(** ** The loop of [injectHtml] without interruption *)

(** [clone_step] when the network answers every fetch of the clone before
    anything else happens. *)
Fixpoint clone_to_end (net : string -> net_outcome)
  (continue : list ScriptUnit -> state -> state * inject_outcome)
  (m : Async (option node * list ScriptUnit)) (rest : list node) (s : state)
  : state * inject_outcome :=
  match m with
  | Await url k =>
      clone_to_end net continue (k (settle (net url))) rest
        (issue (mkRequest url None) s)
  | _ => clone_step continue m rest s
  end.

(** [inject_nodes] likewise. *)
Fixpoint inject_to_end (P : platform) (net : string -> net_outcome)
  (currentTicket : Z) (baseUrl : URLrec) (nodes : list node)
  (scriptsBucket : list ScriptUnit) (s : state) : state * inject_outcome :=
  match nodes with
  | [] => finish_inject P currentTicket scriptsBucket s
  | child :: rest =>
      if negb (ticket s =? currentTicket)%Z then (s, Returned)
      else
        clone_to_end net (inject_to_end P net currentTicket baseUrl rest)
          (cloneNodeTree P baseUrl child scriptsBucket) rest s
  end.

Definition is_delivery (e : event) : bool :=
  match e with
  | Deliver _ _ => true
  | _ => false
  end.

(** [s'] is [s] with the nodes [out] appended to the root, one after the
    other; the log of requests may differ. *)
Definition grown_by (out : list node) (s s' : state) : Prop :=
  ticket s' = ticket s /\ life s' = life s /\ fullscreen s' = fullscreen s
  /\ emitted s' = emitted s /\ pending s' = pending s
  /\ box s' = fold_left (fun sb n => appendChild n sb) out (box s).

(* ================================================================== *)
(** * More vocabulary for the loader and the transformer *)
(* ================================================================== *)

(** No script element with a non-empty [src] at any depth. *)
Fixpoint no_script_src (n : node) : bool :=
  match n with
  | Element t attrs kids =>
      negb ((t =? "SCRIPT")%string && attr_truthy (getAttribute attrs "src"))
      && forallb no_script_src kids
  | _ => true
  end.

(** No node other than elements and texts at any depth. *)
Fixpoint elements_and_texts (n : node) : bool :=
  match n with
  | Text _ => true
  | Other _ _ => false
  | Element _ _ kids => forallb elements_and_texts kids
  end.

(** A computation that is not waiting for the network. *)
Definition not_waiting {A : Type} (m : Async A) : Prop :=
  match m with
  | Await _ _ => False
  | _ => True
  end.

(** The fetch of an entry document is the active controller's or has been
    aborted. *)
Definition entry_fetch_tracked (s : state) (tk : task) : Prop :=
  match tk_point tk with
  | AtEntry c =>
      (c < next_controller s)%Z
      /\ (activeController s = Some c \/ existsb (Z.eqb c) (aborted s) = true)
  | AtClone _ _ _ => True
  end.

Definition controllers_tracked (s : state) : Prop :=
  Forall (entry_fetch_tracked s) (pending s)
  /\ match activeController s with
     | Some c => (c < next_controller s)%Z
     | None => True
     end
  /\ (life s = Unmounted -> activeController s = None).

(** A component that has started its first load and has been mounted. *)
Definition entry_pending : state :=
  run timer_platform (initial true)
    [Observe "demo" "/projects/demo/index.html"; Mount].

(** The controllers are as they were. *)
Definition same_controllers (s s' : state) : Prop :=
  activeController s' = activeController s
  /\ next_controller s' = next_controller s
  /\ aborted s' = aborted s.

(** The descriptor changes while the first entry document is being
    fetched. *)
Definition two_loads : list event :=
  [Observe "demo" "/projects/demo/a.html"; Mount;
   Observe "demo" "/projects/demo/b.html"].

(** An attribute [transferAttributes] copies with the value it has: none
    of the four URL attributes, and not [poster]. *)
Definition plain_attribute (name : string) : bool :=
  negb (is_url_attribute name) && negb (name =? "poster")%string.

(** No two attributes of the list have the same name. *)
Fixpoint distinct_names (attrs : list (string * string)) : bool :=
  match attrs with
  | [] => true
  | (n, _) :: r =>
      negb (existsb (fun a => (fst a =? n)%string) r) && distinct_names r
  end.

(** The attributes with their names in ASCII lower case, the way
    [setAttribute] stores them on an HTML element. *)
Definition lowered (attrs : list (string * string)) : list (string * string) :=
  map (fun a => (ascii_lowercase (fst a), snd a)) attrs.

(** Every name of the list is in ASCII lower case. *)
Definition lowercase_names (attrs : list (string * string)) : Prop :=
  Forall (fun a => ascii_lowercase (fst a) = fst a) attrs.

(** What the HTML parser guarantees of an attribute name, as far as the
    URL attributes go: the name is in lower case, or it is one of the
    mixed-case names the parser gives attributes of SVG and MathML elements
    ([viewBox] and the like), none of which is a URL attribute in lower
    case. *)
Definition parsed_name (name : string) : bool :=
  (ascii_lowercase name =? name)%string
  || negb (is_url_attribute (ascii_lowercase name)).

(** A tag name of ASCII letters, digits and hyphens that starts with a
    letter: a name every engine makes an element of. *)
Definition simple_rest (c : ascii) : bool :=
  JS.is_alpha c || JS.is_digit c || Ascii.eqb c "-".

Definition simple_tag (t : string) : bool :=
  match t with
  | EmptyString => false
  | String c r => JS.is_alpha c && forallb simple_rest (list_ascii_of_string r)
  end.

(** A tree of texts and of elements with simple tag names that are no
    scripts and no stylesheet links and carry plain attributes only, under
    names the platform accepts that stay distinct in lower case. *)
Fixpoint plain (P : platform) (n : node) : bool :=
  match n with
  | Text _ => true
  | Other _ _ => false
  | Element t attrs kids =>
      negb (t =? "SCRIPT")%string
      && negb (is_stylesheet_link t attrs)
      && negb (existsb (String.eqb t) Object_prototype_keys)
      && simple_tag t
      && forallb (fun a => plain_attribute (fst a)
                           && validAttributeName P (fst a)) attrs
      && distinct_names (lowered attrs)
      && forallb (plain P) kids
  end.

(** The same tree with the tag names in lower case and the attribute names
    in ASCII lower case. *)
Fixpoint lower_names (n : node) : node :=
  match n with
  | Element t attrs kids =>
      Element (JS.toLowerCase t) (lowered attrs) (map lower_names kids)
  | _ => n
  end.



(** The value [transferAttributes] gives a URL attribute. *)
Definition rewritten (P : platform) (baseUrl : URLrec) (name raw : string)
  : result string :=
  if (name =? "srcset")%string then normaliseSrcSet P raw baseUrl
  else resolveUrl P raw baseUrl.

(* ================================================================== *)
(** * The application shell *)
(* ================================================================== *)

(** The script of [App.vue] (third document of
    [src/src/components/ProjectSandbox.vue]): the catalog, its search, the
    selection, and the handlers of the events the sandbox emits.  The refs
    and reactive objects of the component are the fields of one record;
    every function of the script is a function on it. *)
Module Shell.

(** A project as the manifest lists it; [tags] and [agents] may be
    missing. *)
Record project : Type := mkProject {
  pr_slug : string;
  pr_name : string;
  pr_summary : string;
  pr_entryPoint : string;
  pr_status : string;
  pr_tags : option (list string);
  pr_agents : option (list string)
}.

(** [sandboxState.status]: ['idle'], ['loading'], ['ready'], ['error']. *)
Inductive sandbox_status : Type := Idle | Busy | Ready | Broken.

Record app : Type := mkApp {
  projects : list project;
  selectedSlug : string;
  searchTerm : string;
  isFullscreen : bool;
  manifest_loading : bool;
  manifest_error : string;
  sandbox_status_of : sandbox_status;
  sandbox_errorMessage : string;
  activeSandbox_slug : string;
  activeSandbox_ticket : option Z
}.

(** [s.includes(t)]. *)
Fixpoint includes (s t : string) : bool :=
  String.prefix t s
  || match s with
     | EmptyString => false
     | String _ r => includes r t
     end.

(** [x ?? []]. *)
Definition or_nil (o : option (list string)) : list string :=
  match o with
  | Some l => l
  | None => []
  end.

(** [searchTerm.toLowerCase().split(/\s+/).filter(Boolean)]. *)
Definition tokens (term : string) : list string :=
  filter JS.truthy (split_ws false (JS.toLowerCase term)).

Definition haystack (p : project) : string :=
  JS.toLowerCase
    (JS.join " "
       ([pr_name p; pr_summary p; pr_slug p; pr_status p]
          ++ or_nil (pr_tags p) ++ or_nil (pr_agents p))).

Definition matches (term : string) (p : project) : bool :=
  forallb (fun token => includes (haystack p) token) (tokens term).

(** The computed [filteredProjects], as a function of what it reads. *)
Definition filter_projects (all : list project) (term : string)
  : list project :=
  match tokens term with
  | [] => all
  | _ => filter (matches term) all
  end.

Definition filteredProjects (a : app) : list project :=
  filter_projects (projects a) (searchTerm a).

Definition totalProjects (a : app) : nat := List.length (projects a).

Definition selectedProject (a : app) : option project :=
  find (fun candidate => (pr_slug candidate =? selectedSlug a)%string)
       (filteredProjects a).

Definition trimmedSearch (a : app) : string := JS.trim (searchTerm a).

Definition hasSearch (a : app) : bool :=
  (0 <? String.length (JS.trim (searchTerm a)))%nat.

(** The labels of the breadcrumb trail. *)
Definition breadcrumbs (a : app) : list string :=
  "Projects" :: match selectedProject a with
                | Some p => [pr_name p]
                | None => []
                end.

Definition handleProjectSelection (project : option project) (a : app) : app :=
  match project with
  | None => a
  | Some p =>
      if (pr_slug p =? selectedSlug a)%string then a
      else mkApp (projects a) (pr_slug p) (searchTerm a) false
                 (manifest_loading a) (manifest_error a)
                 Busy EmptyString (pr_slug p) None
  end.

Definition handleSearchTermChange (value : string) (a : app) : app :=
  mkApp (projects a) (selectedSlug a) value (isFullscreen a)
        (manifest_loading a) (manifest_error a)
        (sandbox_status_of a) (sandbox_errorMessage a)
        (activeSandbox_slug a) (activeSandbox_ticket a).

(** The payloads are the ones the sandbox builds: [slug] is a string and
    [ticket] a number on every one of them. *)
Definition isPayloadForCurrentProject (p : payload) (a : app) : bool :=
  JS.truthy (p_slug p) && (p_slug p =? selectedSlug a)%string.

Definition set_sandbox (slug : string) (ticket : option Z)
  (status : sandbox_status) (message : string) (a : app) : app :=
  mkApp (projects a) (selectedSlug a) (searchTerm a) (isFullscreen a)
        (manifest_loading a) (manifest_error a)
        status message slug ticket.

Definition handleSandboxLoading (p : payload) (a : app) : app :=
  if negb (isPayloadForCurrentProject p a) then a
  else set_sandbox (p_slug p) (Some (p_ticket p)) Busy EmptyString a.

(** [activeSandbox.ticket !== null && payload.ticket
     && payload.ticket !== activeSandbox.ticket]. *)
Definition ticket_mismatch (p : payload) (a : app) : bool :=
  match activeSandbox_ticket a with
  | None => false
  | Some t => negb (p_ticket p =? 0)%Z && negb (p_ticket p =? t)%Z
  end.

Definition handleSandboxLoaded (p : payload) (a : app) : app :=
  if negb (isPayloadForCurrentProject p a) then a
  else if ticket_mismatch p a then a
  else set_sandbox (activeSandbox_slug a) (activeSandbox_ticket a)
         Ready EmptyString a.

Definition handleSandboxError (p : payload) (a : app) : app :=
  if negb (isPayloadForCurrentProject p a) then a
  else if ticket_mismatch p a then a
  else
    let message := match p_error p with
                   | Some m => m
                   | None => "Unknown sandbox error."
                   end in
    set_sandbox (activeSandbox_slug a) (activeSandbox_ticket a)
      Broken message a.

(** The callback of the watcher on [filteredProjects]. *)
Definition watch_filteredProjects (next : list project) (a : app) : app :=
  match next with
  | [] =>
      mkApp (projects a)
            (if JS.truthy (selectedSlug a) then EmptyString else selectedSlug a)
            (searchTerm a) false (manifest_loading a) (manifest_error a)
            Idle
            match sandbox_status_of a with
            | Idle => sandbox_errorMessage a
            | _ => EmptyString
            end
            EmptyString None
  | first :: _ =>
      if existsb (fun p => (pr_slug p =? selectedSlug a)%string) next then a
      else handleProjectSelection (Some first) a
  end.

Definition toggleFullscreen (a : app) : app :=
  match selectedProject a with
  | None => a
  | Some _ =>
      mkApp (projects a) (selectedSlug a) (searchTerm a)
            (negb (isFullscreen a)) (manifest_loading a) (manifest_error a)
            (sandbox_status_of a) (sandbox_errorMessage a)
            (activeSandbox_slug a) (activeSandbox_ticket a)
  end.

(** One event of the sandbox reaches the shell. *)
Definition receive (a : app) (ev : lifecycle * payload) : app :=
  match fst ev with
  | Loading => handleSandboxLoading (snd ev) a
  | Loaded => handleSandboxLoaded (snd ev) a
  | Failed => handleSandboxError (snd ev) a
  end.

(** What the shell shows for the last event it took. *)
Definition shown (l : lifecycle) : sandbox_status :=
  match l with
  | Loading => Busy
  | Loaded => Ready
  | Failed => Broken
  end.

End Shell.

(** A string of white space only. *)
Fixpoint blank (s : string) : bool :=
  match s with
  | EmptyString => true
  | String c r => JS.is_space c && blank r
  end.

(** A catalog of three projects. *)
Definition demo_catalog : list Shell.project :=
  [Shell.mkProject "neon-lattice" "Neon Lattice" "Pulse-responsive laser lattice"
     "/projects/neon-lattice/index.html" "prototype"
     (Some ["canvas"; "audio"]) (Some ["Claude"]);
   Shell.mkProject "minesweeper" "Minesweeper" "A classic game"
     "/projects/minesweeper/index.html" "ready" None (Some ["Claude"]);
   Shell.mkProject "aurora" "Aurora Wavefield" "Layered ribbon aurora"
     "/projects/aurora/index.html" "prototype" (Some ["canvas"]) None].

(** The shell as [setup] leaves it, with a catalog and a search term. *)
Definition shell_with (all : list Shell.project) (term : string) : Shell.app :=
  Shell.mkApp all EmptyString term false false EmptyString Shell.Idle
    EmptyString EmptyString None.

(** The ticket of the last [loading] event. *)
Definition last_loading (evs : list (lifecycle * payload)) : option Z :=
  fold_left (fun cur ev => match fst ev with
                           | Loading => Some (p_ticket (snd ev))
                           | _ => cur
                           end) evs None.

(** Events of one slug in which every [loaded] and [error] carries the
    ticket of the [loading] before it. *)
Inductive orderly (slug : string) : list (lifecycle * payload) -> Prop :=
| orderly_nil : orderly slug []
| orderly_loading (evs : list (lifecycle * payload)) (p : payload) :
    orderly slug evs -> p_slug p = slug ->
    orderly slug (evs ++ [(Loading, p)])
| orderly_settled (evs : list (lifecycle * payload)) (l : lifecycle)
    (p : payload) :
    orderly slug evs -> p_slug p = slug -> settled l = true ->
    last_loading evs = Some (p_ticket p) ->
    orderly slug (evs ++ [(l, p)]).

(** The descriptors an event shows the sandbox have the slug [slug] and an
    entry point. *)
Definition shows (slug : string) (e : event) : bool :=
  match e with
  | Observe sl entryPoint => (sl =? slug)%string && JS.truthy entryPoint
  | _ => true
  end.

(** What the sandbox of one slug keeps: its events are orderly, its loads
    are that slug's, and while it lives the last [loading] is the current
    ticket's. *)
Definition relayed (slug : string) (s : state) : Prop :=
  orderly slug (emitted s)
  /\ Forall (fun tk => tk_slug tk = slug) (pending s)
  /\ (alive s = true -> (1 <= ticket s)%Z ->
      last_loading (emitted s) = Some (ticket s)).

(** A shell that shows the project [demo]. *)
Definition demo_shell : Shell.app :=
  Shell.mkApp demo_catalog "demo" EmptyString false false EmptyString
    Shell.Busy EmptyString "demo" None.

(* ================================================================== *)
(** * The manifest builder *)
(* ================================================================== *)

(** The helpers of [vite.config.js] that shape one entry of
    [/projects/manifest.json] out of a project's configuration file.  A
    configuration value is whatever the YAML or JSON parser returns; the
    helpers tell strings, arrays and the two empty values from the rest. *)
Module Manifest.

Inductive json : Type :=
| JUndefined
| JNull
| JString (s : string)
| JArray (items : list json)
| JOther.

(** [ensureString(value, fallback)]. *)
Definition ensureString (value : json) (fallback : string) : string :=
  match value with
  | JString s =>
      let trimmed := JS.trim s in
      if (0 <? String.length trimmed)%nat then trimmed else fallback
  | _ => fallback
  end.

(** [Array.from(new Set(l))]: the first occurrence of each value, in
    order. *)
Fixpoint unique (l : list string) : list string :=
  match l with
  | [] => []
  | x :: r => x :: filter (fun y => negb (y =? x)%string) (unique r)
  end.

(** [ensureArrayOfStrings(value)]. *)
Definition ensureArrayOfStrings (value : json) : list string :=
  match value with
  | JUndefined | JNull => []
  | _ =>
      let candidate := match value with
                       | JArray items => items
                       | v => [v]
                       end in
      unique (filter JS.truthy
                (map (fun item => ensureString item EmptyString) candidate))
  end.

(** [/^(https?:)?\/\//i.test(raw)]. *)
Definition web_address (raw : string) : bool :=
  JS.startsWith raw "//"
  || JS.startsWith (JS.toLowerCase raw) "http://"
  || JS.startsWith (JS.toLowerCase raw) "https://".

(** [resolveEntryPoint(slug, entry)]. *)
Definition resolveEntryPoint (slug : string) (entry : json) : string :=
  let raw := ensureString entry "index.html" in
  if web_address raw || JS.startsWith raw "data:" then raw
  else if JS.startsWith raw "/" then raw
  else ("/projects/" ++ slug ++ "/" ++ raw)%string.

(** The fields of a configuration the descriptor is made of. *)
Record config : Type := mkConfig {
  c_slug : json;
  c_entry : json;
  c_entryPoint : json
}.

(** [config.entry ?? config.entryPoint]. *)
Definition entry_of (c : config) : json :=
  match c_entry c with
  | JUndefined | JNull => c_entryPoint c
  | v => v
  end.

(** [ensureString(config.slug, slugFromDir) || slugFromDir]. *)
Definition slug_of (slugFromDir : string) (c : config) : string :=
  let s := ensureString (c_slug c) slugFromDir in
  if JS.truthy s then s else slugFromDir.

(** The descriptor [loadProjectManifest] lists for the directory
    [slugFromDir]. *)
Definition descriptor (slugFromDir : string) (c : config) : string * string :=
  (slug_of slugFromDir c, resolveEntryPoint slugFromDir (entry_of c)).

End Manifest.

(** [trimStart] on the list of code units. *)
Fixpoint drop_spaces (l : list ascii) : list ascii :=
  match l with
  | [] => []
  | c :: r => if JS.is_space c then drop_spaces r else l
  end.

(* ================================================================== *)
(** * Properties *)
(* ================================================================== *)

Unset Implicit Arguments.

(** ** URL resolver *)

Lemma truthy_false_iff (s : string) : JS.truthy s = false <-> s = EmptyString.
Proof.
  unfold JS.truthy. destruct (String.eqb_spec s EmptyString); simpl; split;
    congruence.
Qed.

Lemma scheme_rest_spec (r : string) :
  scheme_rest r = true <->
  exists sch rest,
    r = (string_of_list_ascii sch ++ String ":" rest)%string
    /\ forallb scheme_char sch = true.
Proof.
  induction r as [|c r IH]; simpl.
  - split; [discriminate|].
    intros (sch & rest & E & _). destruct sch; discriminate.
  - destruct (Ascii.eqb_spec c ":") as [->|Hc].
    + split; [|reflexivity]. intros _. exists [], r. split; reflexivity.
    + fold (scheme_char c). destruct (scheme_char c) eqn:Hs.
      * rewrite IH. split.
        -- intros (sch & rest & -> & Hall). exists (c :: sch), rest.
           simpl. rewrite Hs, Hall. split; reflexivity.
        -- intros (sch & rest & E & Hall). destruct sch as [|a sch]; simpl in *.
           ++ congruence.
           ++ injection E as -> ->. apply andb_prop in Hall as [_ Hall].
              exists sch, rest. split; [reflexivity|assumption].
      * split; [discriminate|].
        intros (sch & rest & E & Hall). destruct sch as [|a sch]; simpl in *.
        -- congruence.
        -- injection E as -> _. rewrite Hs in Hall. discriminate.
Qed.

Lemma scheme_prefix_spec (v : string) :
  scheme_prefix v = true <-> carries_scheme v.
Proof.
  unfold carries_scheme. destruct v as [|c r]; simpl.
  - split; [discriminate|]. intros (? & ? & ? & E & _). discriminate.
  - rewrite andb_true_iff, scheme_rest_spec. split.
    + intros (Hc & sch & rest & -> & Hall). exists c, sch, rest. auto.
    + intros (c' & sch & rest & E & Hc & Hall). injection E as -> ->.
      split; [assumption|]. exists sch, rest. auto.
Qed.

Lemma prefix_cons (a b : ascii) (p s : string) :
  String.prefix (String a p) (String b s) = true ->
  a = b /\ String.prefix p s = true.
Proof.
  cbn [String.prefix]. destruct (ascii_dec a b); [auto|discriminate].
Qed.

(** What the regular-expression test adds to the [data:] test: nothing. *)
Lemma data_prefix_has_scheme (v : string) :
  JS.startsWith v "data:" = true -> scheme_prefix v = true.
Proof.
  unfold JS.startsWith. intros H.
  do 5 (match type of H with
        | String.prefix _ ?s = true =>
            destruct s;
            [cbn [String.prefix] in H; discriminate H
            |apply prefix_cons in H as [<- H]]
        end).
  reflexivity.
Qed.

Lemma passes_through_guard (v : string) :
  passes_through v <->
  negb (JS.truthy v) || JS.startsWith v "#" || isExternal v = true.
Proof.
  unfold passes_through, isExternal.
  rewrite !orb_true_iff, negb_true_iff, truthy_false_iff, scheme_prefix_spec.
  tauto.
Qed.

(** C9.  The resolver hands back unchanged every value that is empty,
    starts with [#], carries a URI scheme, is protocol-relative or is a
    [data:] payload; every other value is resolved against the base URL and
    comes back as path, query and fragment only.  With the base
    [/projects/demo/], [a/b.png] becomes [/projects/demo/a/b.png], and the
    absolute and the [data:] URL stay as they are. *)
Theorem resolveUrl_contract :
  (forall P v baseUrl, passes_through v -> resolveUrl P v baseUrl = Ok v)
  /\ (forall P v baseUrl, ~ passes_through v ->
        resolveUrl P v baseUrl = resolved_against P v baseUrl)
  /\ (forall docs scripts,
        resolveUrl (Std.platform_of docs scripts) "a/b.png" demo_base
          = Ok "/projects/demo/a/b.png"
        /\ resolveUrl (Std.platform_of docs scripts) "https://x.com/c.png" demo_base
          = Ok "https://x.com/c.png"
        /\ resolveUrl (Std.platform_of docs scripts) "data:image/png;base64,AAAA"
             demo_base
          = Ok "data:image/png;base64,AAAA").
Proof.
  split; [|split].
  - intros P v baseUrl H. apply passes_through_guard in H.
    unfold resolveUrl. rewrite H. reflexivity.
  - intros P v baseUrl H. unfold resolveUrl, resolved_against.
    destruct (negb (JS.truthy v) || JS.startsWith v "#" || isExternal v) eqn:E.
    + exfalso. apply H, passes_through_guard, E.
    + reflexivity.
  - intros docs scripts. repeat split; reflexivity.
Qed.

Lemma resolveUrl_contract_witness :
  resolveUrl (Std.platform_of [] []) "https://x.com/c.png" demo_base
    = Ok "https://x.com/c.png"
  /\ resolveUrl (Std.platform_of [] []) "a/b.png" demo_base
    = resolved_against (Std.platform_of [] []) "a/b.png" demo_base.
Proof.
  split.
  - apply (proj1 resolveUrl_contract).
    right; right; left. exists "h"%char, (list_ascii_of_string "ttps"), "//x.com/c.png".
    repeat split; reflexivity.
  - apply (proj1 (proj2 resolveUrl_contract)).
    rewrite passes_through_guard. vm_compute. discriminate.
Defined.

(** ** Document transformer *)

Lemma node_forall_ind (Q : node -> Prop) :
  (forall d, Q (Text d)) ->
  (forall t d, Q (Other t d)) ->
  (forall t a kids, Forall Q kids -> Q (Element t a kids)) ->
  forall n, Q n.
Proof.
  intros HT HO HE. fix IH 1. intros [d|t d|t a kids].
  - apply HT.
  - apply HO.
  - apply HE. revert kids. fix IHk 1. intros [|k kids].
    + constructor.
    + constructor; [apply IH|apply IHk].
Qed.

Lemma run_async_bind {A B} (net : string -> fetch_result) (m : Async A)
  (f : A -> Async B) :
  run_async net (abind m f)
  = rbind (run_async net m) (fun a => run_async net (f a)).
Proof.
  induction m as [a|e|url k IH]; simpl; auto.
Qed.

Lemma run_async_lift {A} (net : string -> fetch_result) (r : result A) :
  run_async net (lift_result r) = r.
Proof. destruct r; reflexivity. Qed.

Lemma rbind_ok {A B} (r : result A) (f : A -> result B) (b : B) :
  rbind r f = Ok b -> exists a, r = Ok a /\ f a = Ok b.
Proof. destruct r; simpl; [eauto|discriminate]. Qed.


Section CloneFacts.

Variable P : platform.
Variable baseUrl : URLrec.
Variable net : string -> fetch_result.

Lemma clone_script_none attrs inline bucket res :
  run_async net (clone_script P baseUrl attrs inline bucket) = Ok res ->
  fst res = None.
Proof.
  unfold clone_script. destruct (script_dropped attrs).
  { simpl. intros [= <-]. reflexivity. }
  destruct (getAttribute attrs "src") as [src|].
  2:{ simpl. intros [= <-]. reflexivity. }
  destruct (JS.truthy src).
  2:{ simpl. intros [= <-]. reflexivity. }
  rewrite run_async_bind, run_async_lift. intros H.
  apply rbind_ok in H as (url & _ & H). simpl in H.
  destruct (net url) as [status body|e]; [|discriminate].
  destruct (response_ok status); simpl in H; [|discriminate].
  injection H as <-. reflexivity.
Qed.




End CloneFacts.






(** ** Executor *)

Lemma binding_of_ext (via : path) (w w' : window) (name : string) :
  has_ResizeObserver w = has_ResizeObserver w' ->
  binding_of via w name = binding_of via w' name.
Proof.
  intros H. destruct via; simpl.
  - unfold instrumentedWindow_get, real_window_has. rewrite H. reflexivity.
  - reflexivity.
  - unfold bare_binding, runner_arguments, window_member,
      instrumentedWindow_get, real_window_has. rewrite H. reflexivity.
Qed.

Lemma runner_arguments_ext (w w' : window) :
  has_ResizeObserver w = has_ResizeObserver w' ->
  runner_arguments w = runner_arguments w'.
Proof.
  intros H. unfold runner_arguments, window_member, instrumentedWindow_get,
    real_window_has. rewrite H. reflexivity.
Qed.

Lemma action_error_ext (w w' : window) (a : action) :
  has_ResizeObserver w = has_ResizeObserver w' ->
  action_error w a = action_error w' a.
Proof.
  intros H. destruct a; simpl; unfold missing;
    try rewrite (binding_of_ext via w w' _ H); reflexivity.
Qed.

Lemma program_writes_ext (w w' : window) (p : program) :
  has_ResizeObserver w = has_ResizeObserver w' ->
  program_writes w p = program_writes w' p.
Proof.
  intros H. induction p as [|a r IH]; simpl; [reflexivity|].
  rewrite (action_error_ext w w' a H), IH. reflexivity.
Qed.

Lemma program_error_ext (w w' : window) (p : program) :
  has_ResizeObserver w = has_ResizeObserver w' ->
  program_error w p = program_error w' p.
Proof.
  intros H. induction p as [|a r IH]; simpl; [reflexivity|].
  rewrite (action_error_ext w w' a H), IH. reflexivity.
Qed.

Lemma script_trace_ext (w w' : window) (t : Z) (i : nat) (r : program) :
  has_ResizeObserver w = has_ResizeObserver w' ->
  script_trace w t i r = script_trace w' t i r.
Proof.
  intros H. unfold script_trace.
  rewrite (runner_arguments_ext w w' H), (program_writes_ext w w' r H),
    (program_error_ext w w' r H). reflexivity.
Qed.

Lemma expected_trace_ext (P : platform) (w w' : window) (t : Z)
  (scripts : list ScriptUnit) :
  has_ResizeObserver w = has_ResizeObserver w' ->
  forall i, expected_trace P w t i scripts = expected_trace P w' t i scripts.
Proof.
  intros H. induction scripts as [|entry rest IH]; intros i;
    cbn [expected_trace]; [reflexivity|].
  destruct (compile P entry) as [r|]; [|reflexivity].
  rewrite (script_trace_ext w w' t i r H), IH. reflexivity.
Qed.

Ltac split_ifs :=
  repeat match goal with
         | |- context [binding_of ?v ?w ?n] => destruct (binding_of v w n)
         | |- context [if ?c then _ else _] =>
             match type of c with
             | bool => destruct c
             end
         end.

Lemma exec_action_spec (a : action) (sb : sandbox) :
  snd (exec_action a sb) = action_error (win sb) a
  /\ trace (fst (exec_action a sb))
     = trace sb ++ match action_error (win sb) a with
                   | None => action_obs a
                   | Some _ => []
                   end
  /\ has_ResizeObserver (win (fst (exec_action a sb)))
     = has_ResizeObserver (win sb)
  /\ (action_error (win sb) a <> None -> fst (exec_action a sb) = sb).
Proof.
  destruct a; simpl;
    unfold schedule_via, real_via, missing, instrumented_schedule,
      instrumented_addEventListener, real_addEventListener,
      WrappedResizeObserver;
    split_ifs; simpl; rewrite ?app_nil_r; repeat split; auto; congruence.
Qed.

Lemma exec_program_spec (p : program) :
  forall sb,
    snd (exec_program p sb) = program_error (win sb) p
    /\ trace (fst (exec_program p sb))
       = trace sb ++ map ORecord (program_writes (win sb) p)
    /\ has_ResizeObserver (win (fst (exec_program p sb)))
       = has_ResizeObserver (win sb).
Proof.
  induction p as [|a r IH]; intros sb; simpl.
  - rewrite app_nil_r. auto.
  - destruct (exec_action_spec a sb) as (He & Ht & Hr & _).
    destruct (exec_action a sb) as [sb' [e|]] eqn:E; simpl in *.
    + rewrite <- He. rewrite <- He in Ht. simpl. rewrite app_nil_r in *. auto.
    + rewrite <- He. rewrite <- He in Ht.
      destruct (IH sb') as (IHe & IHt & IHr).
      rewrite (program_error_ext _ _ r Hr) in IHe.
      rewrite (program_writes_ext _ _ r Hr) in IHt.
      rewrite IHe, IHt, IHr, Ht. repeat split; auto.
      rewrite <- app_assoc. f_equal.
      destruct a; simpl; reflexivity.
Qed.

Lemma strict_runner_body (entry : ScriptUnit) (thisArg : value) :
  this_binding (runner_body entry) thisArg = thisArg.
Proof. reflexivity. Qed.

Section ExecutorFacts.

Variable P : platform.

Lemma run_scripts_spec (t : Z) (scripts : list ScriptUnit) :
  forall i sb,
    trace (fst (run_scripts P t t i scripts sb))
    = trace sb ++ expected_trace P (win sb) t i scripts
    /\ has_ResizeObserver (win (fst (run_scripts P t t i scripts sb)))
       = has_ResizeObserver (win sb)
    /\ (Forall (compiles P) scripts ->
        snd (run_scripts P t t i scripts sb) = None).
Proof.
  induction scripts as [|entry rest IH]; intros i sb; cbn [run_scripts].
  - simpl. rewrite app_nil_r. auto.
  - rewrite Z.eqb_refl. cbn [negb expected_trace].
    destruct (compile P entry) as [r|] eqn:Ec.
    + cbv zeta. rewrite strict_runner_body.
      set (sb2 := log (ORun i runner_this _) _).
      destruct (exec_program_spec r sb2) as (He & Ht & Hr).
      set (sb3 := match snd (exec_program r sb2) with
                  | Some e => _
                  | None => _
                  end).
      assert (Hr3 : has_ResizeObserver (win sb3) = has_ResizeObserver (win sb)).
      { subst sb3. destruct (snd (exec_program r sb2)); simpl; rewrite Hr;
          reflexivity. }
      assert (Ht3 : trace sb3 = trace sb ++ script_trace (win sb) t i r).
      { subst sb3. unfold script_trace. rewrite He.
        change (win sb2) with (win sb) in *.
        destruct (program_error (win sb) r); simpl; rewrite Ht; subst sb2;
          simpl; rewrite <- ?app_assoc; simpl; rewrite ?app_nil_r;
          reflexivity. }
      destruct (IH (S i) sb3) as (IHt & IHr & IHc).
      rewrite IHt, IHr, Ht3, Hr3, (expected_trace_ext P _ _ t rest Hr3).
      rewrite <- app_assoc. repeat split; auto.
      intros HF. apply IHc. inversion HF; assumption.
    + simpl. rewrite app_nil_r. repeat split; auto.
      intros HF. inversion HF as [|? ? Hc _]. contradiction.
Qed.

End ExecutorFacts.

(** ** Extraction order *)

Lemma no_elements_no_scripts (kids : list node) :
  forallb (fun k => negb (is_element k)) kids = true ->
  flat_map script_elements kids = [].
Proof.
  induction kids as [|k kids IH]; simpl; [reflexivity|].
  intros H. apply andb_prop in H as [Hk H].
  rewrite (IH H). destruct k; simpl in *; try reflexivity. discriminate.
Qed.

Section ExtractionFacts.

Variable P : platform.
Variable baseUrl : URLrec.
Variable net : string -> fetch_result.

Lemma clone_script_sources tagName attrs kids bucket o b' :
  run_async net
    (clone_script P baseUrl attrs (textContent (Element tagName attrs kids)) bucket)
  = Ok (o, b') ->
  map code b'
  = map code bucket ++ script_source P baseUrl net (Element tagName attrs kids).
Proof.
  unfold clone_script, script_source.
  destruct (script_dropped attrs).
  { simpl. intros [= <- <-]. rewrite app_nil_r. reflexivity. }
  destruct (getAttribute attrs "src") as [src|]; cbn [attr_truthy or_empty].
  2:{ simpl. intros [= <- <-]. rewrite map_app. reflexivity. }
  destruct (JS.truthy src).
  2:{ simpl. intros [= <- <-]. rewrite map_app. reflexivity. }
  rewrite run_async_bind, run_async_lift. intros H.
  apply rbind_ok in H as (url & Hu & H). rewrite Hu. simpl in H.
  destruct (net url) as [status body|e]; [|discriminate].
  destruct (response_ok status); simpl in H; [|discriminate].
  injection H as <- <-. rewrite map_app. reflexivity.
Qed.

Lemma clone_children_sources (tag : string) element :
  forall kids, Forall (sources_appended P baseUrl net) kids ->
  forallb html_nested kids = true ->
  forall appended bucket o b',
    run_async net
      (clone_children (cloneNodeTree P baseUrl) tag element kids appended bucket)
      = Ok (o, b') ->
    map code b'
    = map code bucket
      ++ flat_map (script_source P baseUrl net) (flat_map script_elements kids).
Proof.
  intros kids HF. induction HF as [|k kids Hk HF IH];
    intros Hn appended bucket o b' Hrun.
  - simpl in Hrun. injection Hrun as <- <-. simpl. rewrite app_nil_r.
    reflexivity.
  - cbn [clone_children] in Hrun. rewrite run_async_bind in Hrun.
    apply rbind_ok in Hrun as ([oc bk] & Hc & Hrun). cbn [fst snd] in Hrun.
    simpl in Hn. apply andb_prop in Hn as [Hnk Hn].
    apply (Hk Hnk) in Hc.
    assert (Hrest : map code b'
                    = map code bk
                      ++ flat_map (script_source P baseUrl net)
                           (flat_map script_elements kids)).
    { destruct oc; eapply IH; eauto. }
    rewrite Hrest, Hc. simpl. rewrite flat_map_app, app_assoc. reflexivity.
Qed.

Lemma cloneNodeTree_sources (n : node) : sources_appended P baseUrl net n.
Proof.
  induction n as [d|nt d|tagName attrs kids IH] using node_forall_ind;
    unfold sources_appended; intros Hn bucket o b' Hrun.
  - simpl in Hrun. injection Hrun as <- <-. simpl. rewrite app_nil_r.
    reflexivity.
  - simpl in Hrun. injection Hrun as <- <-. simpl. rewrite app_nil_r.
    reflexivity.
  - cbn [cloneNodeTree] in Hrun. cbn [html_nested] in Hn.
    apply andb_prop in Hn as [Hleaf Hn]. cbn [script_elements].
    destruct (tagName =? "SCRIPT")%string eqn:Escript.
    { simpl in Hleaf. rewrite (no_elements_no_scripts _ Hleaf).
      apply clone_script_sources in Hrun. simpl. rewrite app_nil_r.
      exact Hrun. }
    destruct (is_stylesheet_link tagName attrs) eqn:Elink.
    + rewrite run_async_bind, run_async_lift in Hrun.
      apply rbind_ok in Hrun as (link & _ & Hrun). simpl in Hrun.
      injection Hrun as <- <-.
      unfold is_stylesheet_link in Elink. apply andb_prop in Elink as [El _].
      rewrite El in Hleaf. simpl in Hleaf.
      rewrite (no_elements_no_scripts _ Hleaf). simpl. rewrite app_nil_r.
      reflexivity.
    + rewrite run_async_bind, run_async_lift in Hrun.
      apply rbind_ok in Hrun as (element & _ & Hrun).
      simpl. eapply clone_children_sources; eauto.
Qed.

Lemma transform_sources (nodes : list node) :
  forallb html_nested nodes = true ->
  forall bucket out b',
    run_async net (transform P baseUrl nodes bucket) = Ok (out, b') ->
    map code b'
    = map code bucket
      ++ flat_map (script_source P baseUrl net) (flat_map script_elements nodes).
Proof.
  induction nodes as [|child rest IH]; intros Hn bucket out b' Hrun.
  - simpl in Hrun. injection Hrun as <- <-. simpl. rewrite app_nil_r.
    reflexivity.
  - cbn [transform] in Hrun. rewrite run_async_bind in Hrun.
    apply rbind_ok in Hrun as ([oc bk] & Hc & Hrun).
    rewrite run_async_bind in Hrun.
    apply rbind_ok in Hrun as ([more bm] & Hm & Hrun).
    simpl in Hrun. injection Hrun as <- <-. cbn [fst snd] in Hm.
    simpl in Hn. apply andb_prop in Hn as [Hnc Hn].
    apply (cloneNodeTree_sources child Hnc) in Hc.
    apply (IH Hn) in Hm. rewrite Hm, Hc. simpl.
    rewrite flat_map_app, app_assoc. reflexivity.
Qed.

End ExtractionFacts.

(** C6.  The scripts bucket of a transformed document holds the sources of
    the document's script elements in document order, inline and fetched
    alike; and the executor leaves in the trace the runs of the bucket's
    scripts one after the other in bucket order, each run with all of its
    writes before the next run starts. *)
Theorem scripts_in_document_order (P : platform) (baseUrl : URLrec) :
  (forall net nodes out bucket,
     forallb html_nested nodes = true ->
     run_async net (transform P baseUrl nodes []) = Ok (out, bucket) ->
     map code bucket
     = flat_map (script_source P baseUrl net) (flat_map script_elements nodes))
  /\ (forall t scripts sb,
        trace (fst (run_scripts P t t 0 scripts sb))
        = trace sb ++ expected_trace P (win sb) t 0 scripts).
Proof.
  split.
  - intros net nodes out bucket Hn Hrun.
    apply (transform_sources P baseUrl net nodes Hn [] out bucket Hrun).
  - intros t scripts sb. apply run_scripts_spec.
Qed.

Lemma scripts_in_document_order_witness :
  map code recorder_bucket
  = flat_map (script_source demo_platform demo_base demo_net)
      (flat_map script_elements three_scripts)
  /\ trace (fst (run_scripts demo_platform 1 1 0 recorder_bucket
                   (fresh_sandbox true)))
     = [ODebug "script:run" 1;
        ORun 0 VShadowRoot (runner_arguments (fresh_window true)); ORecord 1;
        ODebug "script:run" 1;
        ORun 1 VShadowRoot (runner_arguments (fresh_window true)); ORecord 2;
        OConsoleError "[sandbox] script execution failed:" (Error_ "boom");
        ODebug "script:run" 1;
        ORun 2 VShadowRoot (runner_arguments (fresh_window true)); ORecord 3].
Proof.
  split.
  - apply (proj1 (scripts_in_document_order demo_platform demo_base)
             demo_net three_scripts []).
    + reflexivity.
    + reflexivity.
  - rewrite (proj2 (scripts_in_document_order demo_platform demo_base)).
    reflexivity.
Defined.

(** ** Failure isolation and the runner call *)

Lemma run_scripts_stale (P : platform) (t ct : Z) (scripts : list ScriptUnit) :
  t <> ct -> forall i sb, run_scripts P t ct i scripts sb = (sb, None).
Proof.
  intros Hne. apply Z.eqb_neq in Hne.
  induction scripts as [|entry rest IH]; intros i sb; cbn [run_scripts];
    [reflexivity|].
  rewrite Hne. simpl. apply IH.
Qed.

Lemma expected_trace_nth (P : platform) (w : window) (t : Z)
  (scripts : list ScriptUnit) :
  Forall (compiles P) scripts ->
  forall k i entry body,
    nth_error scripts i = Some entry ->
    compile P entry = Some body ->
    exists before after,
      expected_trace P w t k scripts
      = before ++ script_trace w t (k + i) body ++ after.
Proof.
  intros HF. induction HF as [|e rest He HF IH]; intros k i entry body Hn Hc.
  - destruct i; discriminate.
  - cbn [expected_trace]. destruct (compile P e) as [r|] eqn:Er;
      [|contradiction].
    destruct i as [|i]; simpl in Hn.
    + injection Hn as ->. rewrite Hc in Er. injection Er as ->.
      exists [], (expected_trace P w t (S k) rest).
      rewrite Nat.add_0_r. reflexivity.
    + destruct (IH (S k) i entry body Hn Hc) as (before & after & E).
      exists (script_trace w t k r ++ before), after.
      replace (k + S i)%nat with (S k + i)%nat by lia.
      rewrite E, <- app_assoc. reflexivity.
Qed.

Lemma enableDprSizer_frame (s : state) :
  ticket (enableDprSizer s) = ticket s
  /\ emitted (enableDprSizer s) = emitted s
  /\ trace (box (enableDprSizer s)) = trace (box s).
Proof.
  unfold enableDprSizer.
  destruct (negb (host_value s && attached (root (box s)))); [auto|].
  destruct (dprSizer (box s)); [auto|]. unfold enable_sizer. simpl.
  destruct (sandboxCleanup (root (box s))); simpl; auto.
Qed.

(** X21.  When the scripts of a load all compile, an exception one of them
    throws is caught and logged; every script of the list, whatever the
    others did, leaves its run, its writes and (if it threw) the report of
    its error in the trace; [injectHtml] returns normally and the load
    emits [loaded] with its ticket. *)
Theorem script_failure_isolated
  (P : platform) (tk : task) (baseUrl : URLrec) (bucket : list ScriptUnit)
  (s : state) :
  ticket s = tk_ticket tk ->
  Forall (compiles P) bucket ->
  let r := finish_inject P (tk_ticket tk) bucket s in
  snd r = Returned
  /\ trace (box (fst r))
     = trace (box s)
       ++ expected_trace P (win (box s)) (tk_ticket tk) 0 bucket
       ++ [ODebug "inject:done" (tk_ticket tk)]
  /\ (forall i entry body,
        nth_error bucket i = Some entry ->
        compile P entry = Some body ->
        exists before after,
          expected_trace P (win (box s)) (tk_ticket tk) 0 bucket
          = before ++ script_trace (win (box s)) (tk_ticket tk) i body ++ after)
  /\ emitted (after_inject tk baseUrl r)
     = emitted s
       ++ [(Loaded,
            createEventPayload (tk_slug tk) (tk_entryPoint tk) (tk_ticket tk))].
Proof.
  intros Ht HF r. subst r. unfold finish_inject.
  rewrite Ht, Z.eqb_refl. cbn [negb].
  destruct (run_scripts_spec P (tk_ticket tk) bucket 0 (box s))
    as (Htr & _ & Hok).
  rewrite (Hok HF). cbn [snd fst].
  set (s1 := with_box _ s).
  assert (H1 : ticket s1 = tk_ticket tk /\ emitted s1 = emitted s
               /\ trace (box s1)
                  = trace (box s)
                    ++ expected_trace P (win (box s)) (tk_ticket tk) 0 bucket
                    ++ [ODebug "inject:done" (tk_ticket tk)]).
  { subst s1. simpl. rewrite Htr, <- app_assoc. auto. }
  set (s2 := if fullscreen s1 then enableDprSizer s1 else s1).
  assert (H2 : ticket s2 = tk_ticket tk /\ emitted s2 = emitted s
               /\ trace (box s2)
                  = trace (box s)
                    ++ expected_trace P (win (box s)) (tk_ticket tk) 0 bucket
                    ++ [ODebug "inject:done" (tk_ticket tk)]).
  { subst s2. destruct (fullscreen s1); [|exact H1].
    destruct (enableDprSizer_frame s1) as (E1 & E2 & E3).
    rewrite E1, E2, E3. exact H1. }
  destruct H2 as (T2 & E2 & R2).
  split; [reflexivity|]. split; [exact R2|]. split.
  - intros i entry body Hn Hc.
    apply (expected_trace_nth P (win (box s)) (tk_ticket tk) bucket HF 0%nat i entry body Hn Hc).
  - unfold after_inject. cbn [snd fst]. rewrite T2, Z.eqb_refl. simpl.
    rewrite E2. reflexivity.
Qed.

Lemma script_failure_isolated_witness :
  let r := finish_inject demo_platform 1 recorder_bucket loading_state in
  snd r = Returned
  /\ trace (box (fst r))
     = [ODebug "script:run" 1;
        ORun 0 VShadowRoot (runner_arguments (fresh_window true)); ORecord 1;
        ODebug "script:run" 1;
        ORun 1 VShadowRoot (runner_arguments (fresh_window true)); ORecord 2;
        OConsoleError "[sandbox] script execution failed:" (Error_ "boom");
        ODebug "script:run" 1;
        ORun 2 VShadowRoot (runner_arguments (fresh_window true)); ORecord 3;
        ODebug "inject:done" 1]
  /\ emitted (after_inject demo_task demo_base r)
     = [(Loading, createEventPayload "demo" "/projects/demo/index.html" 1);
        (Loaded, createEventPayload "demo" "/projects/demo/index.html" 1)].
Proof.
  assert (Hc : Forall (compiles demo_platform) recorder_bucket).
  { repeat constructor; unfold compiles; vm_compute; discriminate. }
  destruct (script_failure_isolated demo_platform demo_task demo_base
              recorder_bucket loading_state eq_refl Hc)
    as (H1 & H2 & _ & H4).
  split; [exact H1|]. split; [exact H2|exact H4].
Defined.

(** C5, the failing case.  [new Function] is called outside the [try]
    that guards the call of the runner: a body that does not compile throws
    out of the loop.  Of three scripts of which the second does not parse,
    the first runs, the third does not, and the load ends in [error]. *)
Lemma syntax_error_fails_load :
  let r := finish_inject demo_platform 1
             [mkScript "rec(1)" None; mkScript "rec(" None;
              mkScript "rec(3)" None]
             loading_state in
  snd r = Thrown (SyntaxError_ "Unexpected token")
  /\ trace (box (fst r))
     = [ODebug "script:run" 1;
        ORun 0 VShadowRoot (runner_arguments (fresh_window true)); ORecord 1]
  /\ map fst (emitted (after_inject demo_task demo_base r)) = [Loading; Failed].
Proof. vm_compute. repeat split; reflexivity. Qed.

Lemma prefix_append (p s : string) : String.prefix p (p ++ s)%string = true.
Proof.
  induction p as [|c p IH]; simpl.
  - destruct s; reflexivity.
  - destruct (ascii_dec c c); [exact IH|contradiction].
Qed.

Lemma expected_trace_runs (P : platform) (w : window) (t : Z)
  (scripts : list ScriptUnit) :
  forall i idx this args,
    In (ORun idx this args) (expected_trace P w t i scripts) ->
    this = VShadowRoot /\ args = runner_arguments w.
Proof.
  induction scripts as [|entry rest IH]; intros i idx this args Hin;
    cbn [expected_trace] in Hin; [destruct Hin|].
  destruct (compile P entry) as [r|]; [|destruct Hin].
  apply in_app_or in Hin as [Hin|Hin]; [|eapply IH; eauto].
  unfold script_trace in Hin. simpl in Hin.
  destruct Hin as [Hin|[Hin|Hin]]; try discriminate.
  - injection Hin as _ <- <-. auto.
  - apply in_app_or in Hin as [Hin|Hin].
    + apply in_map_iff in Hin as (v & Hv & _). discriminate.
    + destruct (program_error w r); simpl in Hin; [|destruct Hin].
      destruct Hin as [Hin|[]]. discriminate.
Qed.

(** C10.  Every call of a compiled runner that the executor makes has the
    shadow root as [this], the very value it passes for the [sandboxRoot]
    parameter; the body starts with the strict-mode directive, so the
    script's top-level [this] is that value as given, not [undefined] and
    not the global object. *)
Theorem runner_this_is_shadow_root
  (P : platform) (ticket currentTicket : Z) (i : nat)
  (scripts : list ScriptUnit) (sb : sandbox)
  (idx : nat) (this : value) (args : list value) :
  In (ORun idx this args)
     (trace (fst (run_scripts P ticket currentTicket i scripts sb))) ->
  In (ORun idx this args) (trace sb)
  \/ (this = VShadowRoot
      /\ lookup_param "sandboxRoot" runner_params args = Some this
      /\ this <> VUndefined /\ this <> VGlobalThis
      /\ forall entry,
           JS.startsWith (runner_body entry) use_strict = true
           /\ this_binding (runner_body entry) runner_this = this).
Proof.
  intros Hin. destruct (Z.eq_dec ticket currentTicket) as [->|Hne].
  - rewrite (proj1 (run_scripts_spec P currentTicket scripts i sb)) in Hin.
    apply in_app_or in Hin as [Hin|Hin]; [left; exact Hin|right].
    apply expected_trace_runs in Hin as [-> ->].
    repeat split; try discriminate; try reflexivity.
    apply prefix_append.
  - rewrite (run_scripts_stale P ticket currentTicket scripts Hne) in Hin. left. exact Hin.
Qed.

Lemma runner_this_is_shadow_root_witness :
  In (ORun 2 VShadowRoot (runner_arguments (fresh_window true)))
     (trace (fresh_sandbox true))
  \/ (VShadowRoot = VShadowRoot
      /\ lookup_param "sandboxRoot" runner_params
           (runner_arguments (fresh_window true)) = Some VShadowRoot
      /\ VShadowRoot <> VUndefined /\ VShadowRoot <> VGlobalThis
      /\ forall entry,
           JS.startsWith (runner_body entry) use_strict = true
           /\ this_binding (runner_body entry) runner_this = VShadowRoot).
Proof.
  apply (runner_this_is_shadow_root demo_platform 1 1 0 recorder_bucket
           (fresh_sandbox true) 2%nat VShadowRoot
           (runner_arguments (fresh_window true))).
  vm_compute. repeat (first [left; reflexivity | right]).
Defined.

(** ** The ledger and the drain *)

Lemma filter_all {A} (l : list A) : filter (fun _ => true) l = l.
Proof. induction l; simpl; congruence. Qed.

Lemma filter_and {A} (p q : A -> bool) (l : list A) :
  filter q (filter p l) = filter (fun x => p x && q x) l.
Proof.
  induction l as [|a l IH]; simpl; [reflexivity|].
  destruct (p a); simpl; [destruct (q a)|]; rewrite IH; reflexivity.
Qed.

Lemma filter_none {A} (p : A -> bool) (l : list A) :
  (forall a, In a l -> p a = false) -> filter p l = [].
Proof.
  induction l as [|a l IH]; simpl; intros H; [reflexivity|].
  rewrite (H a (or_introl eq_refl)). apply IH. intros b Hb. apply H. auto.
Qed.

(** Filtering the listeners keeps their serials distinct. *)
Lemma distinct_serials_filter (keep : listener -> bool) (ls : list listener) :
  NoDup (map l_serial ls) -> NoDup (map l_serial (filter keep ls)).
Proof.
  induction ls as [|x ls IH]; simpl; intros H; [constructor|].
  inversion H as [|? ? Hnin Hnd]; subst. destruct (keep x); simpl; auto.
  constructor; auto. intros Hin. apply Hnin.
  apply in_map_iff in Hin as (y & E & Hy). apply filter_In in Hy as [Hy _].
  apply in_map_iff. eauto.
Qed.

Lemma apply_release_spec (r : release) (sb : sandbox) :
  timers (win (apply_release r sb))
  = filter (fun t => negb (kills_timer r t)) (timers (win sb))
  /\ listeners (win (apply_release r sb))
     = filter (fun l => negb (kills_listener r l)) (listeners (win sb))
  /\ observers (win (apply_release r sb))
     = filter (fun o => negb (kills_observer r o)) (observers (win sb))
  /\ next_handle (win (apply_release r sb)) = next_handle (win sb)
  /\ has_ResizeObserver (win (apply_release r sb)) = has_ResizeObserver (win sb)
  /\ root (apply_release r sb) = root sb
  /\ trace (apply_release r sb) = trace sb.
Proof.
  destruct r; simpl; rewrite ?filter_all; repeat split; reflexivity.
Qed.

Lemma run_releases_spec (l : list release) :
  forall sb,
    timers (win (run_releases l sb))
    = filter (fun t => negb (existsb (fun r => kills_timer r t) l))
             (timers (win sb))
    /\ listeners (win (run_releases l sb))
       = filter (fun x => negb (existsb (fun r => kills_listener r x) l))
                (listeners (win sb))
    /\ observers (win (run_releases l sb))
       = filter (fun o => negb (existsb (fun r => kills_observer r o) l))
                (observers (win sb))
    /\ next_handle (win (run_releases l sb)) = next_handle (win sb)
    /\ has_ResizeObserver (win (run_releases l sb)) = has_ResizeObserver (win sb)
    /\ root (run_releases l sb) = root sb
    /\ trace (run_releases l sb) = trace sb ++ map ORelease l.
Proof.
  induction l as [|r l IH]; intros sb.
  - simpl. rewrite !filter_all, app_nil_r. repeat split; reflexivity.
  - change (run_releases (r :: l) sb)
      with (run_releases l (apply_release r (log (ORelease r) sb))).
    destruct (IH (apply_release r (log (ORelease r) sb)))
      as (Ht & Hl & Ho & Hn & Hr & Hroot & Htr).
    destruct (apply_release_spec r (log (ORelease r) sb))
      as (At & Al & Ao & An & Ar & Aroot & Atr).
    rewrite Ht, Hl, Ho, Hn, Hr, Hroot, Htr, At, Al, Ao, An, Ar, Aroot, Atr.
    simpl. rewrite !filter_and, <- app_assoc. simpl.
    repeat split; try reflexivity;
      apply filter_ext; intros x; rewrite negb_orb; reflexivity.
Qed.

(** Every callback of the ledger is called, in order, and the ledger is
    left empty. *)
Lemma drain_spec (sb : sandbox) (l : list release) :
  sandboxCleanup (root sb) = Some l ->
  sandboxCleanup (root (drain sb)) = Some []
  /\ win (drain sb) = win (run_releases l sb)
  /\ trace (drain sb) = trace sb ++ map ORelease l
  /\ children (root (drain sb)) = children (root sb)
  /\ sandboxDisposed (root (drain sb)) = sandboxDisposed (root sb)
  /\ attached (root (drain sb)) = attached (root sb).
Proof.
  intros H. unfold drain. rewrite H.
  destruct (run_releases_spec l sb) as (_ & _ & _ & _ & _ & Hroot & Htr).
  simpl. rewrite Hroot, Htr. repeat split; reflexivity.
Qed.

Lemma drain_none (sb : sandbox) :
  sandboxCleanup (root sb) = None -> drain sb = sb.
Proof. intros H. unfold drain. rewrite H. reflexivity. Qed.

(** ** Soundness of reachable sandboxes *)

Lemma cleanup_list_push (r : release) (sb : sandbox) :
  cleanup_list (push_cleanup r sb) = cleanup_list sb ++ [r].
Proof. reflexivity. Qed.

Lemma timer_sound_mono (sb sb' : sandbox) (t : timer) :
  incl (cleanup_list sb) (cleanup_list sb') ->
  (next_handle (win sb) <= next_handle (win sb'))%Z ->
  timer_sound sb t -> timer_sound sb' t.
Proof.
  intros Hi Hn (Hg & Hc & Hb). repeat split; auto. lia.
Qed.

Lemma observer_sound_mono (sb sb' : sandbox) (o : observer) :
  incl (cleanup_list sb) (cleanup_list sb') ->
  (next_handle (win sb) <= next_handle (win sb'))%Z ->
  observer_sound sb o -> observer_sound sb' o.
Proof.
  intros Hi Hn (Hc & Hb). split; auto. lia.
Qed.

Lemma Forall_filter_keep {A} (Q : A -> Prop) (p : A -> bool) (l : list A) :
  Forall Q l -> Forall Q (filter p l).
Proof.
  intros H. apply Forall_forall. intros a Ha. apply filter_In in Ha as [Ha _].
  rewrite Forall_forall in H. auto.
Qed.

(** A sandbox that differs in nothing the invariant looks at. *)
Lemma sound_same (sb sb' : sandbox) :
  win sb' = win sb -> cleanup_list sb' = cleanup_list sb ->
  sound sb -> sound sb'.
Proof.
  unfold sound, timer_sound, observer_sound. intros -> ->. auto.
Qed.

(** The ledger grows, the window loses resources. *)
Lemma sound_shrink (sb sb' : sandbox) :
  incl (cleanup_list sb) (cleanup_list sb') ->
  next_handle (win sb') = next_handle (win sb) ->
  (exists p, timers (win sb') = filter p (timers (win sb))) ->
  (exists p, observers (win sb') = filter p (observers (win sb))) ->
  (exists p, listeners (win sb') = filter p (listeners (win sb))) ->
  sound sb -> sound sb'.
Proof.
  intros Hi Hn (pt & Et) (po & Eo) (pl & El) (Ht & Ho & Hl & Hd).
  unfold sound. rewrite Et, Eo, El, Hn. repeat split.
  - apply Forall_filter_keep. eapply Forall_impl; [|exact Ht].
    intros t. apply timer_sound_mono; auto. lia.
  - apply Forall_filter_keep. eapply Forall_impl; [|exact Ho].
    intros o. apply observer_sound_mono; auto. lia.
  - apply Forall_filter_keep. exact Hl.
  - apply distinct_serials_filter. exact Hd.
Qed.

Lemma filter_id_ex {A} (l : list A) : exists p, l = filter p l.
Proof. exists (fun _ => true). symmetry. apply filter_all. Qed.

Lemma sound_push (r : release) (sb : sandbox) :
  sound sb -> sound (push_cleanup r sb).
Proof.
  apply sound_shrink; try apply filter_id_ex; try reflexivity.
  rewrite cleanup_list_push. apply incl_appl, incl_refl.
Qed.

Lemma sound_clearTimer (h : Z) (sb : sandbox) :
  sound sb -> sound (real_clearTimer h sb).
Proof.
  apply sound_shrink; try apply filter_id_ex; try reflexivity;
    try apply incl_refl. eexists. reflexivity.
Qed.

Lemma sound_cancelAnimationFrame (h : Z) (sb : sandbox) :
  sound sb -> sound (real_cancelAnimationFrame h sb).
Proof.
  apply sound_shrink; try apply filter_id_ex; try reflexivity;
    try apply incl_refl. eexists. reflexivity.
Qed.

Lemma sound_removeEventListener t type fn capture (sb : sandbox) :
  sound sb -> sound (real_removeEventListener t type fn capture sb).
Proof.
  apply sound_shrink; try apply filter_id_ex; try reflexivity;
    try apply incl_refl. eexists. reflexivity.
Qed.

Lemma sound_disconnect (serial : Z) (sb : sandbox) :
  sound sb -> sound (real_disconnect serial sb).
Proof.
  apply sound_shrink; try apply filter_id_ex; try reflexivity;
    try apply incl_refl. eexists. reflexivity.
Qed.

Lemma sound_schedule (k : timer_kind) (cb : program) (sb : sandbox) :
  sound sb -> sound (snd (instrumented_schedule k cb sb)).
Proof.
  unfold instrumented_schedule. destruct (sandboxDisposed (root sb)); [auto|].
  intros (Ht & Ho & Hl & Hd). unfold sound. simpl. repeat split.
  - apply Forall_app. split.
    + eapply Forall_impl; [|exact Ht]. intros t (Hg & Hc & Hb).
      repeat split; auto; simpl.
      * apply in_or_app. auto.
      * lia.
    + constructor; [|constructor]. repeat split; simpl.
      * apply in_or_app. right. left. reflexivity.
      * lia.
  - eapply Forall_impl; [|exact Ho]. intros o (Hc & Hb). split; simpl.
    + apply in_or_app. auto.
    + lia.
  - eapply Forall_impl; [|exact Hl]. simpl. intros; lia.
  - exact Hd.
Qed.

Lemma sound_addEventListener t type fn body capture (sb : sandbox) :
  sound sb -> sound (real_addEventListener t type fn body capture sb).
Proof.
  unfold real_addEventListener.
  destruct (existsb _ _); [auto|].
  intros (Ht & Ho & Hl & Hd). unfold sound. simpl. repeat split.
  - eapply Forall_impl; [|exact Ht]. intros x (Hg & Hc & Hb).
    repeat split; auto. simpl. lia.
  - eapply Forall_impl; [|exact Ho]. intros o (Hc & Hb). split; auto.
    simpl. lia.
  - apply Forall_app. split.
    + eapply Forall_impl; [|exact Hl]. simpl. intros; lia.
    + constructor; [simpl; lia|constructor].
  - rewrite map_app. simpl. apply NoDup_app_remove_l with (l := []).
    simpl. rewrite <- (rev_involutive (map l_serial _ ++ _)).
    apply NoDup_rev. rewrite rev_app_distr. simpl. constructor.
    + rewrite <- in_rev. intros Hin. apply in_map_iff in Hin as (l & E & Hin).
      rewrite Forall_forall in Hl. apply Hl in Hin. lia.
    + apply NoDup_rev. exact Hd.
Qed.

Lemma sound_newObserver (cb : program) (sb : sandbox) :
  sound sb -> sound (snd (WrappedResizeObserver cb sb)).
Proof.
  intros (Ht & Ho & Hl & Hd). unfold sound. simpl. repeat split.
  - eapply Forall_impl; [|exact Ht]. intros t (Hg & Hc & Hb).
    repeat split; auto; simpl.
    + apply in_or_app. auto.
    + lia.
  - apply Forall_app. split.
    + eapply Forall_impl; [|exact Ho]. intros o (Hc & Hb). split; simpl.
      * apply in_or_app. auto.
      * lia.
    + constructor; [|constructor]. split; simpl.
      * apply in_or_app. right. left. reflexivity.
      * lia.
  - eapply Forall_impl; [|exact Hl]. simpl. intros; lia.
  - exact Hd.
Qed.

(** No timer, frame or observer call of a script reaches the real window
    unwrapped. *)
Lemma resource_bindings_wrapped (via : path) (w : window) :
  binding_of via w "setTimeout" <> Real
  /\ binding_of via w "setInterval" <> Real
  /\ binding_of via w "requestAnimationFrame" <> Real
  /\ binding_of via w "ResizeObserver" <> Real.
Proof.
  destruct w as [n ts ls os ro]. destruct ro, via; vm_compute;
    repeat split; discriminate.
Qed.

Lemma sound_log (o : obs) (sb : sandbox) : sound sb -> sound (log o sb).
Proof. apply sound_same; reflexivity. Qed.

Lemma sound_exec_action (a : action) (sb : sandbox) :
  sound sb -> sound (fst (exec_action a sb)).
Proof.
  intros H.
  destruct a; simpl; unfold schedule_via, real_via;
    try (destruct (resource_bindings_wrapped via (win sb)) as (B1 & B2 & B3 & B4));
    try match goal with
        | |- context [binding_of ?v ?w ?n] =>
            destruct (binding_of v w n) eqn:E
        end;
    simpl; try congruence; auto using sound_schedule, sound_clearTimer,
      sound_cancelAnimationFrame, sound_removeEventListener,
      sound_addEventListener, sound_newObserver, sound_push, sound_log.
  - unfold instrumented_addEventListener.
    auto using sound_push, sound_addEventListener.
  - exact (sound_newObserver callback sb H).
Qed.

Lemma sound_exec_program (p : program) :
  forall sb, sound sb -> sound (fst (exec_program p sb)).
Proof.
  induction p as [|a r IH]; intros sb H; simpl; [exact H|].
  pose proof (sound_exec_action a sb H) as Ha.
  destruct (exec_action a sb) as [sb' [e|]]; simpl in *; auto.
Qed.

Lemma sound_invoke (k : resource) (id : Z) (cb : program) (sb : sandbox) :
  sound sb -> sound (invoke k id cb sb).
Proof.
  intros H. unfold invoke.
  pose proof (sound_exec_program cb (log (OInvoke k id) sb) (sound_log _ _ H))
    as Hp.
  destruct (exec_program cb (log (OInvoke k id) sb)) as [sb' [e|]]; simpl in *;
    auto using sound_log.
Qed.

Lemma sound_fire (h : Z) (sb : sandbox) : sound sb -> sound (fire h sb).
Proof.
  intros H. unfold fire. destruct (find _ _) as [t|]; [|exact H].
  set (sb1 := match t_kind t with
              | Interval => sb
              | _ => _
              end).
  assert (H1 : sound sb1).
  { subst sb1. destruct (t_kind t); auto;
      (revert H; apply sound_shrink; try apply filter_id_ex; try reflexivity;
       try apply incl_refl; eexists; reflexivity). }
  destruct (t_guarded t && sandboxDisposed (root sb1)); auto using sound_invoke.
Qed.

Lemma fold_left_preserves {A B} (I : A -> Prop) (f : A -> B -> A) (l : list B) :
  (forall a b, I a -> I (f a b)) -> forall a, I a -> I (fold_left f l a).
Proof.
  intros Hf. induction l as [|b l IH]; intros a Ha; simpl; auto.
Qed.

Lemma sound_dispatch (t : target) (type : string) (sb : sandbox) :
  sound sb -> sound (dispatch t type sb).
Proof.
  unfold dispatch. apply fold_left_preserves. intros s l Hs.
  destruct (existsb _ _); auto using sound_invoke.
Qed.

Lemma sound_notify (serial : Z) (sb : sandbox) :
  sound sb -> sound (notify serial sb).
Proof.
  intros H. unfold notify. destruct (find _ _); auto using sound_invoke.
Qed.

Lemma kills_own_release (t : timer) :
  kills_timer (release_of (t_kind t) (t_handle t)) t = true.
Proof.
  destruct t as [h k cb g]. destruct k; simpl; rewrite Z.eqb_refl; reflexivity.
Qed.

(** After a drain nothing the ledger covered is left: no timer, no frame,
    no observer, and no listener one of the callbacks removes. *)
Lemma drained_window (sb : sandbox) (l : list release) :
  sound sb -> cleanup_list sb = l ->
  timers (win (run_releases l sb)) = []
  /\ observers (win (run_releases l sb)) = []
  /\ listeners (win (run_releases l sb))
     = filter (fun x => negb (on_ledger l x)) (listeners (win sb))
  /\ next_handle (win (run_releases l sb)) = next_handle (win sb).
Proof.
  intros (Ht & Ho & _) El.
  destruct (run_releases_spec l sb) as (Et & Els & Eo & En & _).
  rewrite Et, Eo, Els, En. repeat split.
  - apply filter_none. intros t Hin. rewrite Forall_forall in Ht.
    destruct (Ht t Hin) as (_ & Hc & _). rewrite El in Hc.
    apply negb_false_iff, existsb_exists. exists (release_of (t_kind t) (t_handle t)).
    split; [exact Hc|apply kills_own_release].
  - apply filter_none. intros o Hin. rewrite Forall_forall in Ho.
    destruct (Ho o Hin) as (Hc & _). rewrite El in Hc.
    apply negb_false_iff, existsb_exists. exists (RDisconnect (o_serial o)).
    split; [exact Hc|]. simpl. apply Z.eqb_refl.
Qed.


Lemma sound_drain (sb : sandbox) : sound sb -> sound (drain sb).
Proof.
  intros H. unfold drain.
  destruct (sandboxCleanup (root sb)) as [l|] eqn:E; [|exact H].
  assert (El : cleanup_list sb = l) by (unfold cleanup_list; rewrite E; reflexivity).
  destruct (drained_window sb l H El) as (Et & Eo & Els & En).
  destruct H as (Ht & Ho & Hl & Hd).
  unfold sound. simpl. rewrite Et, Eo, Els, En. repeat split; try constructor.
  - apply Forall_filter_keep. exact Hl.
  - apply distinct_serials_filter. exact Hd.
Qed.

Lemma sound_remove_children (sb : sandbox) :
  sound sb -> sound (remove_children sb).
Proof.
  unfold remove_children. intros H.
  apply sound_same with (sb := fold_left (fun s n => log (ORootRemove n) s)
                                  (children (root sb)) sb);
    try reflexivity.
  revert H. apply fold_left_preserves. intros a b. apply sound_log.
Qed.

Lemma sound_appendChild (n : node) (sb : sandbox) :
  sound sb -> sound (appendChild n sb).
Proof. apply sound_same; reflexivity. Qed.

Lemma sound_clear_shadow (sb : sandbox) : sound sb -> sound (clear_shadow sb).
Proof.
  intros H. unfold clear_shadow. apply sound_remove_children.
  pose proof (sound_drain sb H) as Hd.
  destruct (sandboxCleanup (root (drain sb))); [|exact Hd].
  revert Hd. apply sound_same; reflexivity.
Qed.

Lemma sound_inject_begin (ct : Z) (sb : sandbox) :
  sound sb -> sound (inject_begin ct sb).
Proof.
  intros H. unfold inject_begin.
  apply sound_appendChild.
  match goal with
  | |- sound (with_root (set_disposed false) ?x) =>
      apply sound_same with (sb := x); try reflexivity
  end.
  apply sound_remove_children.
  set (sb2 := log _ (with_root (set_attached true) sb)).
  assert (H2 : sound sb2).
  { subst sb2. apply sound_log. revert H. apply sound_same; reflexivity. }
  destruct (sandboxCleanup (root sb2)) eqn:E.
  - apply sound_drain. exact H2.
  - revert H2. apply sound_same; [reflexivity|].
    unfold cleanup_list. simpl. simpl in E. rewrite E. reflexivity.
Qed.

Lemma sound_run_scripts (P : platform) (t ct : Z) (scripts : list ScriptUnit) :
  forall i sb, sound sb -> sound (fst (run_scripts P t ct i scripts sb)).
Proof.
  induction scripts as [|entry rest IH]; intros i sb H; cbn [run_scripts];
    [exact H|].
  destruct (negb (t =? ct)%Z); [apply IH; exact H|].
  destruct (compile P entry) as [r|]; [|exact H].
  cbv zeta. apply IH.
  set (sb2 := log (ORun _ _ _) _).
  pose proof (sound_exec_program r sb2) as Hp.
  assert (H2 : sound sb2) by (subst sb2; auto using sound_log).
  specialize (Hp H2).
  destruct (snd (exec_program r sb2)); auto using sound_log.
Qed.

Lemma sound_enable_sizer (sb : sandbox) : sound sb -> sound (enable_sizer sb).
Proof.
  intros H. unfold enable_sizer.
  assert (H1 : sound (set_dprSizer true sb))
    by (revert H; apply sound_same; reflexivity).
  destruct (sandboxCleanup (root (set_dprSizer true sb))); auto using sound_push.
Qed.

Lemma sound_disableDprSizer (sb : sandbox) : sound sb -> sound (disableDprSizer sb).
Proof. apply sound_same; reflexivity. Qed.

(** ** From the sandbox to the component *)

(** A property of the sandbox that the operations the component performs
    on it preserve is preserved by every step of the component. *)
Section Stability.

Variable P : platform.
Variable I : sandbox -> Prop.

Hypothesis I_clear : forall sb, I sb -> I (clear_shadow sb).
Hypothesis I_begin : forall ct sb, I sb -> I (inject_begin ct sb).
Hypothesis I_append : forall n sb, I sb -> I (appendChild n sb).
Hypothesis I_scripts :
  forall t ct i scripts sb, I sb -> I (fst (run_scripts P t ct i scripts sb)).
Hypothesis I_debug : forall label t sb, I sb -> I (log (ODebug label t) sb).
Hypothesis I_sizer_on : forall sb, I sb -> I (enable_sizer sb).
Hypothesis I_sizer_off : forall sb, I sb -> I (disableDprSizer sb).
Hypothesis I_fire : forall h sb, I sb -> I (fire h sb).
Hypothesis I_dispatch : forall t type sb, I sb -> I (dispatch t type sb).
Hypothesis I_notify : forall serial sb, I sb -> I (notify serial sb).

Lemma stable_clearShadow (s : state) : I (box s) -> I (box (clearShadow s)).
Proof.
  intros H. unfold clearShadow.
  destruct (host_value s && attached (root (box s))); simpl; auto.
Qed.

Lemma stable_enableDprSizer (s : state) :
  I (box s) -> I (box (enableDprSizer s)).
Proof.
  intros H. unfold enableDprSizer.
  destruct (negb _); [exact H|]. destruct (dprSizer (box s)); simpl; auto.
Qed.

Lemma stable_finish_inject (ct : Z) (bucket : list ScriptUnit) (s : state) :
  I (box s) -> I (box (fst (finish_inject P ct bucket s))).
Proof.
  intros H. unfold finish_inject.
  destruct (negb (ticket s =? ct)%Z); [exact H|].
  pose proof (I_scripts (ticket s) ct 0%nat bucket (box s) H) as Hr.
  destruct (snd (run_scripts P (ticket s) ct 0 bucket (box s))); simpl.
  - exact Hr.
  - destruct (fullscreen s); simpl.
    + apply stable_enableDprSizer. simpl. auto.
    + auto.
Qed.

Lemma stable_clone_step
  (continue : list ScriptUnit -> state -> state * inject_outcome)
  (m : Async (option node * list ScriptUnit)) (rest : list node) (s : state) :
  (forall b s', I (box s') -> I (box (fst (continue b s')))) ->
  I (box s) -> I (box (fst (clone_step continue m rest s))).
Proof.
  intros Hc H. destruct m as [[[c|] b]|e|url k]; simpl; auto.
  apply Hc. simpl. auto.
Qed.

Lemma stable_inject_nodes (ct : Z) (baseUrl : URLrec) (nodes : list node) :
  forall bucket s,
    I (box s) -> I (box (fst (inject_nodes P ct baseUrl nodes bucket s))).
Proof.
  induction nodes as [|child rest IH]; intros bucket s H; cbn [inject_nodes].
  - apply stable_finish_inject. exact H.
  - destruct (negb (ticket s =? ct)%Z); [exact H|].
    apply stable_clone_step; auto.
Qed.

Lemma stable_injectHtml (html : string) (baseUrl : URLrec) (ct : Z) (s : state) :
  I (box s) -> I (box (fst (injectHtml P html baseUrl ct s))).
Proof.
  intros H. unfold injectHtml. destruct (negb (host_value s)); [exact H|].
  apply stable_inject_nodes. simpl. auto.
Qed.

Lemma stable_load_catch (tk : task) (e : js_error) (s : state) :
  I (box s) -> I (box (load_catch tk e s)).
Proof.
  intros H. unfold load_catch.
  destruct (err_name e =? "AbortError")%string; [exact H|].
  destruct (ticket s =? tk_ticket tk)%Z; [|exact H].
  simpl. apply stable_clearShadow. exact H.
Qed.

Lemma stable_after_inject (tk : task) (baseUrl : URLrec)
  (r : state * inject_outcome) :
  I (box (fst r)) -> I (box (after_inject tk baseUrl r)).
Proof.
  intros H. unfold after_inject. destruct (snd r) as [|e|url k rest].
  - destruct (ticket (fst r) =? tk_ticket tk)%Z; simpl; exact H.
  - apply stable_load_catch. exact H.
  - simpl. exact H.
Qed.

Lemma stable_resume_entry (tk : task) (r : fetch_result) (s : state) :
  I (box s) -> I (box (resume_entry P tk r s)).
Proof.
  intros H. unfold resume_entry. destruct r as [status html|e].
  - destruct (negb (response_ok status)); [apply stable_load_catch; exact H|].
    destruct (URL_ P (tk_entryPoint tk) (location_origin P)) as [baseUrl|].
    + apply stable_after_inject, stable_injectHtml. exact H.
    + apply stable_load_catch. exact H.
  - apply stable_load_catch. exact H.
Qed.

Lemma stable_resume_clone (tk : task) (baseUrl : URLrec)
  (m : Async (option node * list ScriptUnit)) (rest : list node) (s : state) :
  I (box s) -> I (box (resume_clone P tk baseUrl m rest s)).
Proof.
  intros H. unfold resume_clone. apply stable_after_inject.
  apply stable_clone_step; [|exact H].
  intros b s'. apply stable_inject_nodes.
Qed.

Lemma stable_deliver (i : nat) (o : net_outcome) (s : state) :
  I (box s) -> I (box (deliver P i o s)).
Proof.
  intros H. unfold deliver. destruct (nth_error (pending s) i) as [tk|];
    [|exact H].
  destruct (tk_point tk) as [c|baseUrl k rest].
  - apply stable_resume_entry. exact H.
  - apply stable_resume_clone. exact H.
Qed.

Lemma stable_watch_project (slug entryPoint : string) (s : state) :
  I (box s) -> I (box (watch_project slug entryPoint s)).
Proof.
  intros H. unfold watch_project.
  destruct (negb (JS.truthy slug)).
  { simpl. apply stable_clearShadow. exact H. }
  destruct (negb (JS.truthy entryPoint)).
  { simpl. apply stable_clearShadow. exact H. }
  unfold loadProject. simpl. destruct (activeController s); exact H.
Qed.

Lemma stable_onBeforeUnmount (s : state) :
  I (box s) -> I (box (onBeforeUnmount s)).
Proof.
  intros H. unfold onBeforeUnmount. simpl.
  set (s2 := clearShadow (set_ticket (ticket s + 1) s)).
  assert (H2 : I (box s2)) by (apply stable_clearShadow; exact H).
  destruct (activeController s2); simpl; auto.
Qed.

Lemma stable_step (s : state) (e : event) :
  I (box s) -> I (box (step P s e)).
Proof.
  intros H. destruct e; simpl.
  - destruct (life s); exact H.
  - destruct (life s); auto using stable_watch_project.
  - destruct (life s); try exact H;
      (destruct (Bool.eqb next (fullscreen s)); [exact H|];
       unfold watch_fullscreen; destruct next;
       [apply stable_enableDprSizer; exact H|simpl; auto]).
  - destruct (life s); try exact H; simpl; apply stable_onBeforeUnmount; exact H.
  - apply stable_deliver. exact H.
  - auto.
  - auto.
  - auto.
Qed.

Lemma stable_run (es : list event) :
  forall s, I (box s) -> I (box (run P s es)).
Proof.
  induction es as [|e es IH]; intros s H; simpl; [exact H|].
  apply IH, stable_step, H.
Qed.

End Stability.

(** Every sandbox the component reaches is sound. *)
Lemma sound_step (P : platform) (s : state) (e : event) :
  sound (box s) -> sound (box (step P s e)).
Proof.
  apply stable_step; auto using sound_clear_shadow, sound_inject_begin,
    sound_appendChild, sound_run_scripts, sound_log, sound_enable_sizer,
    sound_disableDprSizer, sound_fire, sound_dispatch, sound_notify.
Qed.

Lemma sound_initial (ro : bool) : sound (box (initial ro)).
Proof. unfold sound. simpl. repeat split; constructor. Qed.

Lemma sound_reachable (P : platform) (ro : bool) (es : list event) :
  sound (box (run P (initial ro) es)).
Proof.
  apply stable_run; auto using sound_clear_shadow, sound_inject_begin,
    sound_appendChild, sound_run_scripts, sound_log, sound_enable_sizer,
    sound_disableDprSizer, sound_fire, sound_dispatch, sound_notify,
    sound_initial.
Qed.

(** ** Silence after a teardown *)

Section Quiet.

Variable N : Z.
Variable S0 : list Z.
Variable T0 : list obs.

(** The window loses resources or keeps them, the trace grows by allowed
    observations. *)
Lemma quiet_shrink (sb sb' : sandbox) (d : list obs) :
  next_handle (win sb') = next_handle (win sb) ->
  (exists p, timers (win sb') = filter p (timers (win sb))) ->
  (exists p, observers (win sb') = filter p (observers (win sb))) ->
  (exists p, listeners (win sb') = filter p (listeners (win sb))) ->
  trace sb' = trace sb ++ d -> Forall (allowed N S0) d ->
  quiet N S0 T0 sb -> quiet N S0 T0 sb'.
Proof.
  intros Hn (pt & Et) (po & Eo) (pl & El) Htr Hd
    (Hb & Ht & Ho & Hl & d0 & E0 & Hd0).
  unfold quiet. rewrite Hn, Et, Eo, El. repeat split;
    auto using Forall_filter_keep.
  exists (d0 ++ d). rewrite Htr, E0, app_assoc. split; [reflexivity|].
  apply Forall_app. auto.
Qed.

Lemma quiet_same (sb sb' : sandbox) :
  win sb' = win sb -> trace sb' = trace sb -> quiet N S0 T0 sb -> quiet N S0 T0 sb'.
Proof.
  intros Hw Htr. apply quiet_shrink with (d := []);
    rewrite ?Hw, ?Htr, ?app_nil_r; auto using filter_id_ex.
Qed.

Lemma quiet_log (o : obs) (sb : sandbox) :
  allowed N S0 o -> quiet N S0 T0 sb -> quiet N S0 T0 (log o sb).
Proof.
  intros Ha. apply quiet_shrink with (d := [o]); auto using filter_id_ex.
Qed.

Lemma quiet_push (r : release) (sb : sandbox) :
  quiet N S0 T0 sb -> quiet N S0 T0 (push_cleanup r sb).
Proof. apply quiet_same; reflexivity. Qed.

Lemma quiet_real_schedule k cb g (sb : sandbox) :
  quiet N S0 T0 sb -> quiet N S0 T0 (snd (real_schedule k cb g sb)).
Proof.
  intros (Hb & Ht & Ho & Hl & Hd). unfold quiet. simpl. repeat split; auto.
  - lia.
  - apply Forall_app. split; [exact Ht|]. constructor; [simpl; lia|constructor].
Qed.

Lemma quiet_schedule k cb (sb : sandbox) :
  quiet N S0 T0 sb -> quiet N S0 T0 (snd (instrumented_schedule k cb sb)).
Proof.
  intros H. unfold instrumented_schedule.
  destruct (sandboxDisposed (root sb)); [exact H|].
  simpl. apply quiet_push. exact (quiet_real_schedule k cb true sb H).
Qed.

Lemma quiet_addEventListener t type fn body capture (sb : sandbox) :
  quiet N S0 T0 sb -> quiet N S0 T0 (real_addEventListener t type fn body capture sb).
Proof.
  unfold real_addEventListener. destruct (existsb _ _); [auto|].
  intros (Hb & Ht & Ho & Hl & Hd). unfold quiet. simpl. repeat split; auto.
  - lia.
  - apply Forall_app. split; [exact Hl|].
    constructor; [simpl; left; lia|constructor].
Qed.

Lemma quiet_real_newObserver cb (sb : sandbox) :
  quiet N S0 T0 sb -> quiet N S0 T0 (snd (real_newObserver cb sb)).
Proof.
  intros (Hb & Ht & Ho & Hl & Hd). unfold quiet. simpl. repeat split; auto.
  - lia.
  - apply Forall_app. split; [exact Ho|]. constructor; [simpl; lia|constructor].
Qed.

Lemma quiet_filter_timers p (sb : sandbox) :
  quiet N S0 T0 sb ->
  quiet N S0 T0 (with_win (fun w => set_timers (filter p (timers w)) w) sb).
Proof.
  apply quiet_shrink with (d := []); simpl; rewrite ?app_nil_r;
    auto using filter_id_ex. eexists; reflexivity.
Qed.

Lemma quiet_filter_listeners p (sb : sandbox) :
  quiet N S0 T0 sb ->
  quiet N S0 T0 (with_win (fun w => set_listeners (filter p (listeners w)) w) sb).
Proof.
  apply quiet_shrink with (d := []); simpl; rewrite ?app_nil_r;
    auto using filter_id_ex. eexists; reflexivity.
Qed.

Lemma quiet_filter_observers p (sb : sandbox) :
  quiet N S0 T0 sb ->
  quiet N S0 T0 (with_win (fun w => set_observers (filter p (observers w)) w) sb).
Proof.
  apply quiet_shrink with (d := []); simpl; rewrite ?app_nil_r;
    auto using filter_id_ex. eexists; reflexivity.
Qed.

Lemma quiet_exec_action (a : action) (sb : sandbox) :
  quiet N S0 T0 sb -> quiet N S0 T0 (fst (exec_action a sb)).
Proof.
  intros H.
  destruct a; simpl; unfold schedule_via, real_via;
    try match goal with
        | |- context [binding_of ?v ?w ?n] => destruct (binding_of v w n)
        end;
    simpl; auto.
  - exact (quiet_schedule Timeout callback sb H).
  - exact (quiet_real_schedule Timeout callback false sb H).
  - exact (quiet_schedule Interval callback sb H).
  - exact (quiet_real_schedule Interval callback false sb H).
  - exact (quiet_schedule Frame callback sb H).
  - exact (quiet_real_schedule Frame callback false sb H).
  - exact (quiet_filter_timers _ sb H).
  - exact (quiet_filter_timers _ sb H).
  - exact (quiet_filter_timers _ sb H).
  - exact (quiet_filter_timers _ sb H).
  - exact (quiet_filter_timers _ sb H).
  - exact (quiet_filter_timers _ sb H).
  - unfold instrumented_addEventListener.
    apply quiet_push, quiet_addEventListener, H.
  - apply quiet_addEventListener, H.
  - exact (quiet_filter_listeners _ sb H).
  - exact (quiet_filter_listeners _ sb H).
  - apply (quiet_push _ _ (quiet_real_newObserver callback sb H)).
  - exact (quiet_real_newObserver callback sb H).
  - apply quiet_log; [exact I|exact H].
Qed.

Lemma quiet_exec_program (p : program) :
  forall sb, quiet N S0 T0 sb -> quiet N S0 T0 (fst (exec_program p sb)).
Proof.
  induction p as [|a r IH]; intros sb H; simpl; [exact H|].
  pose proof (quiet_exec_action a sb H) as Ha.
  destruct (exec_action a sb) as [sb' [e|]]; simpl in *; auto.
Qed.

Lemma quiet_invoke (k : resource) (id : Z) (cb : program) (sb : sandbox) :
  allowed N S0 (OInvoke k id) -> quiet N S0 T0 sb -> quiet N S0 T0 (invoke k id cb sb).
Proof.
  intros Ha H. unfold invoke.
  pose proof (quiet_exec_program cb (log (OInvoke k id) sb)
                (quiet_log _ _ Ha H)) as Hp.
  destruct (exec_program cb (log (OInvoke k id) sb)) as [sb' [e|]];
    simpl in *; [apply quiet_log; [exact I|exact Hp]|exact Hp].
Qed.

Lemma quiet_fire (h : Z) (sb : sandbox) : quiet N S0 T0 sb -> quiet N S0 T0 (fire h sb).
Proof.
  intros H. unfold fire.
  destruct (find _ _) as [t|] eqn:Ef; [|exact H].
  apply find_some in Ef as [Hin Hh]. apply Z.eqb_eq in Hh. subst h.
  assert (Hge : (N <= t_handle t)%Z).
  { destruct H as (_ & Ht & _). rewrite Forall_forall in Ht. auto. }
  set (sb1 := match t_kind t with
              | Interval => sb
              | _ => _
              end).
  assert (H1 : quiet N S0 T0 sb1).
  { subst sb1. destruct (t_kind t); auto using quiet_filter_timers. }
  destruct (t_guarded t && sandboxDisposed (root sb1)); [exact H1|].
  apply quiet_invoke; [left; exact Hge|exact H1].
Qed.

Lemma quiet_dispatch (t : target) (type : string) (sb : sandbox) :
  quiet N S0 T0 sb -> quiet N S0 T0 (dispatch t type sb).
Proof.
  unfold dispatch. apply fold_left_preserves. intros s l Hs.
  destruct (existsb _ _) eqn:E; [|exact Hs].
  apply existsb_exists in E as (l' & Hin & Heq). apply Z.eqb_eq in Heq.
  apply quiet_invoke; [|exact Hs].
  destruct Hs as (_ & _ & _ & Hl & _). rewrite Forall_forall in Hl.
  rewrite <- Heq. destruct (Hl l' Hin) as [Hge|Hs0]; [left; exact Hge|].
  right. auto.
Qed.

Lemma quiet_notify (serial : Z) (sb : sandbox) :
  quiet N S0 T0 sb -> quiet N S0 T0 (notify serial sb).
Proof.
  intros H. unfold notify. destruct (find _ _) as [o|] eqn:Ef; [|exact H].
  apply find_some in Ef as [Hin Hs]. apply Z.eqb_eq in Hs. subst serial.
  apply quiet_invoke; [|exact H]. left.
  destruct H as (_ & _ & Ho & _). rewrite Forall_forall in Ho. auto.
Qed.

Lemma quiet_run_releases (l : list release) :
  forall sb, quiet N S0 T0 sb -> quiet N S0 T0 (run_releases l sb).
Proof.
  intros sb.
  destruct (run_releases_spec l sb) as (Et & El & Eo & En & _ & _ & Htr).
  apply quiet_shrink with (d := map ORelease l); auto; try (eexists; eassumption).
  apply Forall_forall. intros o Ho. apply in_map_iff in Ho as (r & <- & _).
  exact I.
Qed.

Lemma quiet_drain (sb : sandbox) : quiet N S0 T0 sb -> quiet N S0 T0 (drain sb).
Proof.
  intros H. unfold drain. destruct (sandboxCleanup (root sb)) as [l|]; [|exact H].
  apply quiet_same with (sb := run_releases l sb); try reflexivity.
  apply quiet_run_releases. exact H.
Qed.

Lemma quiet_remove_children (sb : sandbox) :
  quiet N S0 T0 sb -> quiet N S0 T0 (remove_children sb).
Proof.
  unfold remove_children. intros H.
  apply quiet_same with (sb := fold_left (fun s n => log (ORootRemove n) s)
                                  (children (root sb)) sb);
    try reflexivity.
  revert H. apply fold_left_preserves. intros a b. apply quiet_log. exact I.
Qed.

Lemma quiet_appendChild (n : node) (sb : sandbox) :
  quiet N S0 T0 sb -> quiet N S0 T0 (appendChild n sb).
Proof.
  intros H. unfold appendChild. apply quiet_log; [exact I|].
  revert H. apply quiet_same; reflexivity.
Qed.

Lemma quiet_clear_shadow (sb : sandbox) : quiet N S0 T0 sb -> quiet N S0 T0 (clear_shadow sb).
Proof.
  intros H. unfold clear_shadow. apply quiet_remove_children.
  pose proof (quiet_drain sb H) as Hd.
  destruct (sandboxCleanup (root (drain sb))); [|exact Hd].
  revert Hd. apply quiet_same; reflexivity.
Qed.

Lemma quiet_inject_begin (ct : Z) (sb : sandbox) :
  quiet N S0 T0 sb -> quiet N S0 T0 (inject_begin ct sb).
Proof.
  intros H. unfold inject_begin.
  apply quiet_appendChild.
  match goal with
  | |- quiet N S0 T0 (with_root (set_disposed false) ?x) =>
      apply quiet_same with (sb := x); try reflexivity
  end.
  apply quiet_remove_children.
  set (sb2 := log _ (with_root (set_attached true) sb)).
  assert (H2 : quiet N S0 T0 sb2).
  { subst sb2. apply quiet_log; [exact I|]. revert H.
    apply quiet_same; reflexivity. }
  destruct (sandboxCleanup (root sb2)).
  - apply quiet_drain. exact H2.
  - revert H2. apply quiet_same; reflexivity.
Qed.

Lemma quiet_run_scripts (P : platform) (t ct : Z) (scripts : list ScriptUnit) :
  forall i sb, quiet N S0 T0 sb -> quiet N S0 T0 (fst (run_scripts P t ct i scripts sb)).
Proof.
  induction scripts as [|entry rest IH]; intros i sb H; cbn [run_scripts];
    [exact H|].
  destruct (negb (t =? ct)%Z); [apply IH; exact H|].
  destruct (compile P entry) as [r|]; [|exact H].
  cbv zeta. apply IH.
  set (sb2 := log (ORun _ _ _) _).
  pose proof (quiet_exec_program r sb2) as Hp.
  assert (H2 : quiet N S0 T0 sb2).
  { subst sb2. apply quiet_log; [exact I|]. apply quiet_log; [exact I|exact H]. }
  specialize (Hp H2).
  destruct (snd (exec_program r sb2)); [apply quiet_log; [exact I|exact Hp]|exact Hp].
Qed.

Lemma quiet_enable_sizer (sb : sandbox) : quiet N S0 T0 sb -> quiet N S0 T0 (enable_sizer sb).
Proof.
  intros H. unfold enable_sizer.
  assert (H1 : quiet N S0 T0 (set_dprSizer true sb))
    by (revert H; apply quiet_same; reflexivity).
  destruct (sandboxCleanup (root (set_dprSizer true sb))); auto using quiet_push.
Qed.

Lemma quiet_disableDprSizer (sb : sandbox) :
  quiet N S0 T0 sb -> quiet N S0 T0 (disableDprSizer sb).
Proof. apply quiet_same; reflexivity. Qed.

Lemma quiet_step (P : platform) (s : state) (e : event) :
  quiet N S0 T0 (box s) -> quiet N S0 T0 (box (step P s e)).
Proof.
  apply stable_step; auto using quiet_clear_shadow, quiet_inject_begin,
    quiet_appendChild, quiet_run_scripts, quiet_enable_sizer,
    quiet_disableDprSizer, quiet_fire, quiet_dispatch, quiet_notify.
  intros label t sb. apply quiet_log. exact I.
Qed.


End Quiet.

(** ** Teardown *)

Lemma log_removals (l : list node) :
  forall sb,
    fold_left (fun s n => log (ORootRemove n) s) l sb
    = mkSandbox (root sb) (win sb) (dprSizer sb)
                (trace sb ++ map ORootRemove l).
Proof.
  induction l as [|n l IH]; intros sb; simpl.
  - rewrite app_nil_r. destruct sb; reflexivity.
  - rewrite IH. simpl. rewrite <- app_assoc. reflexivity.
Qed.

Lemma remove_children_spec (sb : sandbox) :
  remove_children sb
  = mkSandbox (set_children [] (root sb)) (win sb) (dprSizer sb)
              (trace sb ++ map ORootRemove (children (root sb))).
Proof. unfold remove_children. rewrite log_removals. reflexivity. Qed.














(** The timer app, once torn down, stays silent: its interval came due
    once and its listener heard one event before the unmount, neither is
    called after it. *)
Lemma timer_app_silent_after_unmount :
  let before := run timer_platform (initial true)
                  (timer_app_loaded ++ [Fire 1; Dispatch RealWindow "resize"]) in
  let after := run timer_platform before
                 [Unmount; Fire 1; Dispatch RealWindow "resize"; Fire 1] in
  filter (fun o => match o with OInvoke _ _ => true | _ => false end)
         (trace (box before))
  = [OInvoke TimerCallback 1; OInvoke ListenerCallback 2]
  /\ filter (fun o => match o with OInvoke _ _ => true | _ => false end)
            (trace (box after))
     = [OInvoke TimerCallback 1; OInvoke ListenerCallback 2].
Proof. vm_compute. split; reflexivity. Qed.

(** C4.  In every state the component reaches with the root disposed: a
    call that schedules a timer or an animation frame through the
    instrumented window or by its bare name returns normally, with the
    handle -1, and leaves the sandbox as it was, so that nothing is left to
    come due; and a timer or frame scheduled earlier that comes due calls
    nothing. *)
Theorem disposed_root_is_inert (P : platform) (ro : bool) (es : list event) :
  let s := run P (initial ro) es in
  sandboxDisposed (root (box s)) = true ->
  (forall k cb, instrumented_schedule k cb (box s) = ((-1)%Z, box s))
  /\ (forall via cb delay,
        via <> ViaDocument ->
        exec_action (SetTimeout via cb delay) (box s) = (box s, None)
        /\ exec_action (SetInterval via cb delay) (box s) = (box s, None)
        /\ exec_action (RequestAnimationFrame via cb) (box s) = (box s, None))
  /\ (forall h, trace (box (step P s (Fire h))) = trace (box s)).
Proof.
  intros s Hd. pose proof (sound_reachable P ro es) as Hs. fold s in Hs.
  assert (Hsched : forall k cb,
             instrumented_schedule k cb (box s) = ((-1)%Z, box s)).
  { intros k cb. unfold instrumented_schedule. rewrite Hd. reflexivity. }
  split; [exact Hsched|]. split.
  - intros via cb delay Hvia.
    assert (Hb : forall name,
               In name ["setTimeout"; "setInterval"; "requestAnimationFrame"] ->
               binding_of via (win (box s)) name = Instrumented).
    { intros name Hin. destruct via; [| congruence |];
        simpl in Hin; destruct Hin as [<-|[<-|[<-|[]]]]; reflexivity. }
    simpl. unfold schedule_via.
    rewrite !Hb by (simpl; auto). rewrite !Hsched. auto.
  - intros h. simpl. unfold fire.
    destruct (find _ _) as [t|] eqn:Ef; [|reflexivity].
    apply find_some in Ef as [Hin _].
    destruct Hs as (Ht & _). rewrite Forall_forall in Ht.
    destruct (Ht t Hin) as (Hg & _). rewrite Hg.
    destruct (t_kind t); simpl; rewrite Hd; reflexivity.
Qed.

Lemma disposed_root_is_inert_witness :
  exec_action (SetTimeout Bare [WriteRecorder 9] 0)
    (box (run timer_platform (initial true) timer_app_emptied))
  = (box (run timer_platform (initial true) timer_app_emptied), None)
  /\ trace (box (step timer_platform
                   (run timer_platform (initial true) timer_app_emptied)
                   (Fire 1)))
     = trace (box (run timer_platform (initial true) timer_app_emptied)).
Proof.
  pose proof (disposed_root_is_inert timer_platform true timer_app_emptied) as H.
  cbv zeta in H.
  assert (Hd : sandboxDisposed
                 (root (box (run timer_platform (initial true) timer_app_emptied)))
               = true) by (vm_compute; reflexivity).
  destruct (H Hd) as (_ & H2 & H3).
  split.
  - assert (Hv : Bare <> ViaDocument) by discriminate.
    exact (proj1 (H2 Bare [WriteRecorder 9] 0%Z Hv)).
  - exact (H3 1%Z).
Defined.

(** ** A descriptor without a slug *)

(** The root does not stay as it was: the page the timer app rendered is
    cleared when a descriptor without a slug arrives. *)
Lemma missing_slug_clears_root :
  ~ root_untouched timer_platform
      (run timer_platform (initial true) timer_app_loaded)
      (Observe EmptyString "/projects/demo/index.html").
Proof.
  unfold root_untouched. intros H.
  apply (f_equal (fun r => List.length (children r))) in H.
  vm_compute in H. discriminate.
Qed.

(** C8, amended.  A descriptor without a slug takes the next ticket and
    goes straight to [error] with the missing-slug message for that ticket;
    no request is issued, none is aborted and no load is started; the
    rendering root is cleared the way [clearShadow] does when the host is
    mounted with a shadow root, and left as it is otherwise. *)
Theorem missing_slug_goes_to_error
  (P : platform) (s : state) (entryPoint : string) :
  life s <> Unmounted ->
  let s' := step P s (Observe EmptyString entryPoint) in
  ticket s' = (ticket s + 1)%Z
  /\ emitted s'
     = emitted s
       ++ [(Failed,
            mkPayload EmptyString entryPoint (ticket s + 1)
              (Some "Sandbox slug is missing. Cannot load project.") false)]
  /\ requests s' = requests s
  /\ pending s' = pending s
  /\ aborted s' = aborted s
  /\ activeController s' = activeController s
  /\ box s'
     = if host_value s && attached (root (box s))
       then clear_shadow (box s) else box s.
Proof.
  intros Hl s'.
  assert (E : s' = watch_project EmptyString entryPoint s).
  { subst s'. simpl. destruct (life s); try reflexivity. congruence. }
  rewrite E. unfold watch_project. simpl. unfold clearShadow, host_value. simpl.
  destruct (match life s with
            | Mounted => true
            | _ => false
            end && attached (root (box s))); simpl; repeat split; reflexivity.
Qed.

Lemma missing_slug_goes_to_error_witness :
  map fst
    (emitted (step timer_platform
                (run timer_platform (initial true) timer_app_loaded)
                (Observe EmptyString "/projects/demo/index.html")))
  = [Loading; Loaded; Failed]
  /\ children
       (root (box (step timer_platform
                     (run timer_platform (initial true) timer_app_loaded)
                     (Observe EmptyString "/projects/demo/index.html"))))
     = [].
Proof.
  pose proof (missing_slug_goes_to_error timer_platform
                (run timer_platform (initial true) timer_app_loaded)
                "/projects/demo/index.html") as H.
  assert (Hl : life (run timer_platform (initial true) timer_app_loaded)
               <> Unmounted) by (vm_compute; discriminate).
  destruct (H Hl) as (_ & He & _ & _ & _ & _ & Hb).
  split.
  - rewrite He. vm_compute. reflexivity.
  - rewrite Hb. vm_compute. reflexivity.
Defined.

(** ** Which calls reach the ledger *)

(** On a disposed root a [setTimeout] through the instrumented window
    performs no real operation and records no release. *)
Lemma disposed_call_not_tracked :
  ~ call_tracked (SetTimeout ViaWindow [WriteRecorder 9] 0)
      (box (run timer_platform (initial true) timer_app_emptied)).
Proof.
  unfold call_tracked. intros H.
  apply (f_equal (fun r => List.length (timers (win (fst r))))) in H.
  vm_compute in H. discriminate.
Qed.

(** A bare [addEventListener] is no parameter of the runner: it registers
    on the real window and records no release. *)
Lemma bare_listener_not_tracked type fn body capture (sb : sandbox) :
  exec_action (AddEventListener Bare type fn body capture) sb
  = (real_addEventListener RealWindow type fn body capture sb, None).
Proof. reflexivity. Qed.

(** C3, amended.  A call that schedules a timer or an animation frame
    through the instrumented window or by its bare name, registers an event
    listener through the instrumented window or document, or constructs a
    resize observer through the instrumented window or by its bare name
    performs the real operation and appends the matching release to the
    ledger; only that, on a disposed root, the timer and frame calls do
    nothing at all. *)
Theorem instrumented_calls_tracked (a : action) (sb : sandbox) :
  intercepted (win sb) a = true ->
  exec_action a sb
  = if schedules a && sandboxDisposed (root sb) then (sb, None)
    else (tracked_effect a sb, None).
Proof.
  intros H.
  destruct a; try discriminate H; destruct via; try discriminate H;
    simpl; unfold schedule_via, instrumented_schedule;
    try (destruct (sandboxDisposed (root sb)); reflexivity);
    try reflexivity.
  - simpl in H. unfold instrumentedWindow_get. rewrite H. reflexivity.
  - simpl in H. unfold bare_binding, runner_arguments, window_member,
      instrumentedWindow_get. rewrite H. reflexivity.
Qed.

Lemma instrumented_calls_tracked_witness :
  exec_action (SetInterval Bare [WriteRecorder 7] 1000)
    (inject_begin 1 (fresh_sandbox true))
  = (tracked_effect (SetInterval Bare [WriteRecorder 7] 1000)
       (inject_begin 1 (fresh_sandbox true)), None).
Proof.
  apply (instrumented_calls_tracked (SetInterval Bare [WriteRecorder 7] 1000)
           (inject_begin 1 (fresh_sandbox true))).
  reflexivity.
Defined.

(** ** Stale loads *)

(** C1, the failing case.  The second load has rendered its page and
    emitted [loaded] with ticket 2 when [slow.js] arrives for the first load:
    the stale load finishes the clone it was in and appends it to the root,
    next to the page of the current mini-app.  No event is emitted. *)
Theorem stale_load_mutates_root :
  let s := run race_platform (initial true) race in
  let s' := step race_platform s (Deliver 0 (NetResponse 200 "slow()")) in
  ticket s = 2%Z
  /\ map tk_ticket (pending s) = [1%Z]
  /\ map (fun ev => (fst ev, p_ticket (snd ev))) (emitted s)
     = [(Loading, 1%Z); (Loading, 2%Z); (Loaded, 2%Z)]
  /\ children (root (box s))
     = [defaultStyle; Element "p" [] [Text "fresh"]]
  /\ children (root (box s'))
     = [defaultStyle; Element "p" [] [Text "fresh"];
        Element "div" [] [Text "stale"]]
  /\ emitted s' = emitted s.
Proof. vm_compute. repeat split; reflexivity. Qed.

(** A second failing case.  A descriptor without an entry point does not
    abort the fetch in flight; when the document of the superseded load
    arrives, [injectHtml] attaches the shadow root, creates the ledger,
    resets the disposed flag and puts the default style in before its first
    look at the ticket. *)
Lemma stale_document_resets_root :
  let s := run race_platform (initial true) overtaken in
  let s' := step race_platform s (Deliver 0 (NetResponse 200 "<b>")) in
  ticket s = 2%Z
  /\ map tk_ticket (pending s) = [1%Z]
  /\ aborted s = []
  /\ root (box s) = mkShadow false [] None false
  /\ root (box s') = mkShadow true [defaultStyle] (Some []) false
  /\ emitted s' = emitted s.
Proof. vm_compute. repeat split; reflexivity. Qed.

(** ** Tickets and the events emitted under them *)

Lemma advances_refl (s : state) : advances s s.
Proof.
  split; [reflexivity|]. exists []. rewrite app_nil_r. split; constructor.
Qed.

Lemma advances_trans (s1 s2 s3 : state) :
  advances s1 s2 -> advances s2 s3 -> advances s1 s3.
Proof.
  intros (T1 & d1 & E1 & F1) (T2 & d2 & E2 & F2). split; [congruence|].
  exists (d1 ++ d2). rewrite E2, E1, app_assoc. split; [reflexivity|].
  apply Forall_app. split; [exact F1|]. rewrite T1 in F2. exact F2.
Qed.

Lemma advances_same (s s' : state) :
  ticket s' = ticket s -> emitted s' = emitted s -> advances s s'.
Proof.
  intros T E. split; [exact T|]. exists []. rewrite app_nil_r.
  split; [exact E|constructor].
Qed.

Lemma advances_emit (l : lifecycle) (p : payload) (s : state) :
  p_ticket p = ticket s -> advances s (emit l p s).
Proof.
  intros H. split; [reflexivity|]. exists [(l, p)]. split; [reflexivity|].
  constructor; [exact H|constructor].
Qed.

Lemma advances_clearShadow (s : state) : advances s (clearShadow s).
Proof.
  unfold clearShadow. destruct (host_value s && attached (root (box s)));
    [apply advances_same; reflexivity|apply advances_refl].
Qed.

Lemma advances_enableDprSizer (s : state) : advances s (enableDprSizer s).
Proof.
  unfold enableDprSizer. destruct (negb _); [apply advances_refl|].
  destruct (dprSizer (box s)); [apply advances_refl|].
  apply advances_same; reflexivity.
Qed.

Section Advances.

Variable P : platform.

Lemma advances_finish_inject ct bucket (s : state) :
  advances s (fst (finish_inject P ct bucket s)).
Proof.
  unfold finish_inject. destruct (negb (ticket s =? ct)%Z);
    [apply advances_refl|].
  destruct (snd (run_scripts P (ticket s) ct 0 bucket (box s))); simpl.
  - apply advances_same; reflexivity.
  - destruct (fullscreen s); simpl.
    + eapply advances_trans; [|apply advances_enableDprSizer].
      apply advances_same; reflexivity.
    + apply advances_same; reflexivity.
Qed.

Lemma advances_clone_step continue m rest (s : state) :
  (forall b s', advances s' (fst (continue b s'))) ->
  advances s (fst (clone_step continue m rest s)).
Proof.
  intros Hc. destruct m as [[[c|] b]|e|url k]; simpl.
  - eapply advances_trans; [|apply Hc]. apply advances_same; reflexivity.
  - apply Hc.
  - apply advances_refl.
  - apply advances_same; reflexivity.
Qed.

Lemma advances_inject_nodes ct baseUrl nodes :
  forall bucket s,
    advances s (fst (inject_nodes P ct baseUrl nodes bucket s)).
Proof.
  induction nodes as [|child rest IH]; intros bucket s; cbn [inject_nodes].
  - apply advances_finish_inject.
  - destruct (negb (ticket s =? ct)%Z); [apply advances_refl|].
    apply advances_clone_step. exact IH.
Qed.

Lemma advances_injectHtml html baseUrl ct (s : state) :
  advances s (fst (injectHtml P html baseUrl ct s)).
Proof.
  unfold injectHtml. destruct (negb (host_value s)); [apply advances_refl|].
  eapply advances_trans; [|apply advances_inject_nodes].
  apply advances_same; reflexivity.
Qed.

Lemma advances_load_catch tk e (s : state) : advances s (load_catch tk e s).
Proof.
  unfold load_catch. destruct (err_name e =? "AbortError")%string;
    [apply advances_refl|].
  destruct (ticket s =? tk_ticket tk)%Z eqn:E; [|apply advances_refl].
  apply Z.eqb_eq in E.
  eapply advances_trans; [apply advances_clearShadow|].
  apply advances_emit. simpl.
  destruct (advances_clearShadow s) as (T & _). congruence.
Qed.

Lemma advances_after_inject tk baseUrl (r : state * inject_outcome) :
  advances (fst r) (after_inject tk baseUrl r).
Proof.
  unfold after_inject. destruct (snd r) as [|e|url k rest].
  - destruct (ticket (fst r) =? tk_ticket tk)%Z eqn:E; [|apply advances_refl].
    apply Z.eqb_eq in E. apply advances_emit. simpl. congruence.
  - apply advances_load_catch.
  - apply advances_same; reflexivity.
Qed.

Lemma advances_resume_entry tk r (s : state) :
  advances s (resume_entry P tk r s).
Proof.
  unfold resume_entry. destruct r as [status html|e];
    [|apply advances_load_catch].
  destruct (negb (response_ok status)); [apply advances_load_catch|].
  destruct (URL_ P (tk_entryPoint tk) (location_origin P)) as [baseUrl|];
    [|apply advances_load_catch].
  eapply advances_trans; [apply advances_injectHtml|apply advances_after_inject].
Qed.

Lemma advances_resume_clone tk baseUrl m rest (s : state) :
  advances s (resume_clone P tk baseUrl m rest s).
Proof.
  unfold resume_clone.
  eapply advances_trans; [|apply advances_after_inject].
  apply advances_clone_step. intros b s'. apply advances_inject_nodes.
Qed.

Lemma advances_deliver i o (s : state) : advances s (deliver P i o s).
Proof.
  unfold deliver. destruct (nth_error (pending s) i) as [tk|];
    [|apply advances_refl].
  destruct (tk_point tk) as [c|baseUrl k rest].
  - eapply advances_trans; [|apply advances_resume_entry].
    apply advances_same; reflexivity.
  - eapply advances_trans; [|apply advances_resume_clone].
    apply advances_same; reflexivity.
Qed.

(** The watcher mints the next ticket; what it emits carries that ticket. *)
Lemma watch_project_mints slug entryPoint (s : state) :
  ticket (watch_project slug entryPoint s) = (ticket s + 1)%Z
  /\ exists d,
       emitted (watch_project slug entryPoint s) = emitted s ++ d
       /\ Forall (fun ev => p_ticket (snd ev) = (ticket s + 1)%Z) d.
Proof.
  unfold watch_project.
  destruct (advances_clearShadow (set_ticket (ticket s + 1) s))
    as (T & d & E & F).
  destruct (negb (JS.truthy slug)); [|destruct (negb (JS.truthy entryPoint))].
  - split; [exact T|]. simpl. rewrite E. eexists. rewrite <- app_assoc.
    split; [reflexivity|]. apply Forall_app. split; [exact F|].
    constructor; [reflexivity|constructor].
  - split; [exact T|]. simpl. rewrite E. eexists. rewrite <- app_assoc.
    split; [reflexivity|]. apply Forall_app. split; [exact F|].
    constructor; [reflexivity|constructor].
  - unfold loadProject. simpl. split.
    + destruct (activeController s); reflexivity.
    + exists [(Loading, createEventPayload slug entryPoint (ticket s + 1))].
      split; [destruct (activeController s); reflexivity|].
      constructor; [reflexivity|constructor].
Qed.

Lemma onBeforeUnmount_mints (s : state) :
  ticket (onBeforeUnmount s) = (ticket s + 1)%Z
  /\ emitted (onBeforeUnmount s) = emitted s.
Proof.
  unfold onBeforeUnmount. simpl.
  set (s2 := clearShadow (set_ticket (ticket s + 1) s)).
  assert (H : ticket s2 = (ticket s + 1)%Z /\ emitted s2 = emitted s).
  { subst s2. unfold clearShadow.
    destruct (host_value _ && _); split; reflexivity. }
  destruct (activeController s2); simpl; exact H.
Qed.

(** Every step leaves the ticket where it was or moves it up by one, and
    whatever it emits carries the ticket that is current when the step
    ends. *)
Lemma step_ticket_and_events (s : state) (e : event) :
  (ticket (step P s e) = ticket s \/ ticket (step P s e) = (ticket s + 1)%Z)
  /\ exists d,
       emitted (step P s e) = emitted s ++ d
       /\ Forall (fun ev => p_ticket (snd ev) = ticket (step P s e)) d.
Proof.
  assert (Hadv : forall s', advances s s' ->
            (ticket s' = ticket s \/ ticket s' = (ticket s + 1)%Z)
            /\ exists d, emitted s' = emitted s ++ d
                 /\ Forall (fun ev => p_ticket (snd ev) = ticket s') d).
  { intros s' (T & d & E & F). split; [left; exact T|].
    exists d. rewrite T. auto. }
  assert (Hmint : forall s' d,
            ticket s' = (ticket s + 1)%Z -> emitted s' = emitted s ++ d ->
            Forall (fun ev => p_ticket (snd ev) = (ticket s + 1)%Z) d ->
            (ticket s' = ticket s \/ ticket s' = (ticket s + 1)%Z)
            /\ exists d, emitted s' = emitted s ++ d
                 /\ Forall (fun ev => p_ticket (snd ev) = ticket s') d).
  { intros s' d T E F. split; [right; exact T|]. exists d. rewrite T. auto. }
  destruct e; simpl.
  - apply Hadv. destruct (life s); apply advances_same; reflexivity.
  - destruct (watch_project_mints slug entryPoint s) as (T & d & E & F).
    destruct (life s); try (eapply Hmint; eassumption).
    apply Hadv, advances_refl.
  - apply Hadv. destruct (life s); try apply advances_refl;
      (destruct (Bool.eqb next (fullscreen s)); [apply advances_refl|];
       unfold watch_fullscreen; destruct next;
       [eapply advances_trans; [|apply advances_enableDprSizer]|];
       apply advances_same; reflexivity).
  - destruct (onBeforeUnmount_mints s) as (T & E).
    destruct (life s); try (apply Hadv, advances_refl);
      (apply (Hmint _ []); simpl; rewrite ?app_nil_r; auto).
  - apply Hadv, advances_deliver.
  - apply Hadv, advances_same; reflexivity.
  - apply Hadv, advances_same; reflexivity.
  - apply Hadv, advances_same; reflexivity.
Qed.

(** A change of descriptor mints exactly one ticket, the next one. *)
Lemma observe_mints_next_ticket (s : state) (slug entryPoint : string) :
  life s <> Unmounted ->
  ticket (step P s (Observe slug entryPoint)) = (ticket s + 1)%Z.
Proof.
  intros H. simpl. destruct (life s); try congruence;
    apply watch_project_mints.
Qed.

Lemma nondecreasing_app (l d : list Z) (t : Z) :
  nondecreasing l -> Forall (fun a => (a <= t)%Z) l ->
  Forall (fun b => b = t) d -> nondecreasing (l ++ d).
Proof.
  intros Hl Hle Hd. induction l as [|a l IH]; simpl.
  - induction Hd as [|b d -> Hd IH]; simpl; [exact I|].
    split; [|exact IH]. eapply Forall_impl; [|exact Hd].
    intros c ->. lia.
  - destruct Hl as [Ha Hl]. inversion Hle as [|? ? Hat Hle']; subst.
    split; [|auto]. apply Forall_app. split; [exact Ha|].
    eapply Forall_impl; [|exact Hd]. intros c ->. exact Hat.
Qed.

(** X16.  Along every run the tickets of the emitted events never go down,
    and none is ahead of the current ticket: no event carries a ticket
    older than the one before it. *)
Lemma emitted_tickets_nondecreasing (ro : bool) (es : list event) :
  let s := run P (initial ro) es in
  nondecreasing (emitted_tickets s)
  /\ Forall (fun t => (t <= ticket s)%Z) (emitted_tickets s).
Proof.
  unfold run. rewrite <- (rev_involutive es).
  induction (rev es) as [|e res IH]; simpl.
  - split; [exact I|constructor].
  - rewrite fold_left_app. cbn [fold_left].
    set (s := fold_left (step P) (rev res) (initial ro)) in *.
    destruct IH as (Hnd & Hle).
    destruct (step_ticket_and_events s e) as (Ht & d & E & F).
    unfold emitted_tickets. rewrite E, map_app. split.
    + apply nondecreasing_app with (t := ticket (step P s e)).
      * exact Hnd.
      * eapply Forall_impl; [|exact Hle]. intros a Ha. cbv beta in *. lia.
      * apply Forall_forall. intros t Hin.
        apply in_map_iff in Hin as (ev & <- & Hin).
        rewrite Forall_forall in F. auto.
    + apply Forall_app. split.
      * eapply Forall_impl; [|exact Hle]. intros a Ha. cbv beta in *. lia.
      * apply Forall_forall. intros t Hin.
        apply in_map_iff in Hin as (ev & <- & Hin).
        rewrite Forall_forall in F. rewrite (F ev Hin). lia.
Qed.

End Advances.

(** ** One settled event for each load *)

Lemma clean_bind {A B : Type} (m : Async A) (f : A -> Async B) :
  clean m -> (forall a, clean (f a)) -> clean (abind m f).
Proof.
  intros Hm Hf. induction Hm as [a|e He|url k Hk IH]; simpl.
  - apply Hf.
  - apply clean_fail. exact He.
  - apply clean_await. exact IH.
Qed.

Lemma clean_lift {A : Type} (r : result A) :
  result_clean r -> clean (lift_result r).
Proof.
  destruct r as [a|e]; simpl; intros H;
    [apply clean_return|apply clean_fail; exact H].
Qed.

Lemma result_clean_bind {A B : Type} (r : result A) (f : A -> result B) :
  result_clean r -> (forall a, result_clean (f a)) -> result_clean (rbind r f).
Proof. destruct r as [a|e]; simpl; auto. Qed.

Lemma map_result_clean {A B : Type} (f : A -> result B) (l : list A) :
  (forall a, result_clean (f a)) -> result_clean (map_result f l).
Proof.
  intros Hf. induction l as [|a l IH]; cbn [map_result]; [exact I|].
  apply result_clean_bind; [apply Hf|]. intros b.
  apply result_clean_bind; [exact IH|]. intros bs. exact I.
Qed.

(** The transformer throws [TypeError]s and [Error]s only. *)
Section Clean.

Variable P : platform.
Variable baseUrl : URLrec.

Lemma resolveUrl_clean (value : string) :
  result_clean (resolveUrl P value baseUrl).
Proof.
  unfold resolveUrl.
  destruct (negb (JS.truthy value) || JS.startsWith value "#" || isExternal value);
    [exact I|].
  destruct (URL_ P value baseUrl); [exact I|reflexivity].
Qed.

Lemma srcset_candidate_clean (candidate : string) :
  result_clean (srcset_candidate P candidate baseUrl).
Proof.
  unfold srcset_candidate. cbv zeta.
  destruct (firstn 2 (split_ws false (JS.trim candidate))) as [|p0 rest];
    [exact I|].
  destruct (negb (JS.truthy p0)); [exact I|].
  apply result_clean_bind; [apply resolveUrl_clean|].
  intros url. destruct rest as [|p1 rest]; [exact I|].
  destruct (JS.truthy p1); exact I.
Qed.

Lemma normaliseSrcSet_clean (value : string) :
  result_clean (normaliseSrcSet P value baseUrl).
Proof.
  unfold normaliseSrcSet. apply result_clean_bind.
  - apply map_result_clean. intros c. apply srcset_candidate_clean.
  - intros cs. exact I.
Qed.

Lemma setAttribute_clean (target : list (string * string))
  (name value : string) :
  result_clean (setAttribute P target name value).
Proof.
  unfold setAttribute. destruct (validAttributeName P name);
    [exact I|reflexivity].
Qed.

Lemma copy_plain_clean (source : list (string * string)) :
  forall target, result_clean (copy_plain P target source).
Proof.
  induction source as [|[name value] r IH]; intros target; cbn [copy_plain];
    [exact I|].
  destruct (is_url_attribute name); [apply IH|].
  apply result_clean_bind; [apply setAttribute_clean|exact IH].
Qed.

Lemma resolve_candidates_clean (source : list (string * string))
  (candidates : list string) :
  forall target,
    result_clean (resolve_candidates P target source baseUrl candidates).
Proof.
  induction candidates as [|a r IH]; intros target; cbn [resolve_candidates];
    [exact I|].
  destruct (getAttribute source a) as [raw|]; [|apply IH].
  destruct (negb (JS.truthy raw)); [apply IH|].
  apply result_clean_bind.
  - destruct (a =? "srcset")%string;
      [apply normaliseSrcSet_clean|apply resolveUrl_clean].
  - intros v. apply result_clean_bind; [apply setAttribute_clean|exact IH].
Qed.

Lemma transferAttributes_clean (target : list (string * string))
  (tagName : string) (source : list (string * string)) :
  result_clean (transferAttributes P target tagName source baseUrl).
Proof.
  unfold transferAttributes.
  apply result_clean_bind; [apply copy_plain_clean|]. intros target1.
  destruct (attributeMap_own tagName); [apply resolve_candidates_clean|].
  destruct (existsb (String.eqb tagName) Object_prototype_keys);
    [reflexivity|exact I].
Qed.

Lemma clone_script_clean (attrs : list (string * string)) (inline : string)
  (bucket : list ScriptUnit) :
  clean (clone_script P baseUrl attrs inline bucket).
Proof.
  unfold clone_script. destruct (script_dropped attrs); [apply clean_return|].
  destruct (getAttribute attrs "src") as [src|]; [|apply clean_return].
  destruct (JS.truthy src); [|apply clean_return].
  apply clean_bind; [apply clean_lift, resolveUrl_clean|].
  intros url. apply clean_await. intros [status body|m]; simpl.
  - destruct (response_ok status);
      [apply clean_return|apply clean_fail; reflexivity].
  - apply clean_fail. reflexivity.
Qed.

Lemma clone_children_clean (tag : string) (element : list (string * string))
  (kids : list node) :
  Forall (fun k => forall b, clean (cloneNodeTree P baseUrl k b)) kids ->
  forall appended bucket,
    clean (clone_children (cloneNodeTree P baseUrl) tag element kids
             appended bucket).
Proof.
  intros HF. induction HF as [|k kids Hk HF IH]; intros appended bucket;
    cbn [clone_children].
  - apply clean_return.
  - apply clean_bind; [apply Hk|]. intros [[c|] b]; cbn [fst snd]; apply IH.
Qed.

Lemma cloneNodeTree_clean (n : node) :
  forall bucket, clean (cloneNodeTree P baseUrl n bucket).
Proof.
  induction n as [d|t d|tagName attrs kids IH] using node_forall_ind;
    intros bucket.
  - apply clean_return.
  - apply clean_return.
  - cbn [cloneNodeTree].
    destruct (tagName =? "SCRIPT")%string; [apply clone_script_clean|].
    destruct (is_stylesheet_link tagName attrs).
    + apply clean_bind; [|intros link; apply clean_return].
      apply clean_lift, result_clean_bind; [apply transferAttributes_clean|].
      intros link. apply setAttribute_clean.
    + apply clean_bind; [apply clean_lift, transferAttributes_clean|].
      intros element. apply clone_children_clean. exact IH.
Qed.

End Clean.

Lemma same_loader_refl (s : state) : same_loader s s.
Proof. repeat split. Qed.

Lemma same_loader_trans (s1 s2 s3 : state) :
  same_loader s1 s2 -> same_loader s2 s3 -> same_loader s1 s3.
Proof. unfold same_loader. intuition congruence. Qed.

Lemma same_loader_box (f : sandbox -> sandbox) (s : state) :
  same_loader s (with_box f s).
Proof. repeat split. Qed.

Lemma same_loader_issue (r : request) (s : state) : same_loader s (issue r s).
Proof. repeat split. Qed.

Lemma same_loader_clearShadow (s : state) : same_loader s (clearShadow s).
Proof.
  unfold clearShadow. destruct (host_value s && attached (root (box s)));
    [apply same_loader_box|apply same_loader_refl].
Qed.

Lemma same_loader_enableDprSizer (s : state) : same_loader s (enableDprSizer s).
Proof.
  unfold enableDprSizer.
  destruct (negb (host_value s && attached (root (box s))));
    [apply same_loader_refl|].
  destruct (dprSizer (box s)); [apply same_loader_refl|apply same_loader_box].
Qed.

(** ** Counting *)

Lemma settled_count_app (t : Z) (l d : list (lifecycle * payload)) :
  settled_count t (l ++ d) = (settled_count t l + settled_count t d)%nat.
Proof. unfold settled_count. rewrite filter_app, length_app. reflexivity. Qed.

Lemma waiting_count_app (t : Z) (l d : list task) :
  waiting_count t (l ++ d) = (waiting_count t l + waiting_count t d)%nat.
Proof. unfold waiting_count. rewrite filter_app, length_app. reflexivity. Qed.

Lemma settled_count_ahead (t t' : Z) (evs : list (lifecycle * payload)) :
  Forall (fun ev => (p_ticket (snd ev) <= t)%Z) evs -> (t < t')%Z ->
  settled_count t' evs = 0%nat.
Proof.
  intros HF Hlt. unfold settled_count.
  induction HF as [|ev evs Hev HF IH]; simpl; [reflexivity|].
  replace (p_ticket (snd ev) =? t')%Z with false by (symmetry; apply Z.eqb_neq; lia).
  rewrite andb_false_r. exact IH.
Qed.

Lemma settled_count_other (t t' : Z) (d : list (lifecycle * payload)) :
  Forall (fun ev => p_ticket (snd ev) = t) d -> t <> t' ->
  settled_count t' d = 0%nat.
Proof.
  intros HF Hne. unfold settled_count.
  induction HF as [|ev evs Hev HF IH]; simpl; [reflexivity|].
  replace (p_ticket (snd ev) =? t')%Z with false by (symmetry; apply Z.eqb_neq; lia).
  rewrite andb_false_r. exact IH.
Qed.

Lemma waiting_count_ahead (t t' : Z) (tasks : list task) :
  Forall (fun tk => (tk_ticket tk <= t)%Z) tasks -> (t < t')%Z ->
  waiting_count t' tasks = 0%nat.
Proof.
  intros HF Hlt. unfold waiting_count.
  induction HF as [|tk tasks Htk HF IH]; simpl; [reflexivity|].
  replace (tk_ticket tk =? t')%Z with false by (symmetry; apply Z.eqb_neq; lia).
  exact IH.
Qed.

Lemma waiting_count_none (t : Z) (tasks : list task) :
  waiting_count t tasks = 0%nat ->
  Forall (fun tk => tk_ticket tk <> t) tasks.
Proof.
  unfold waiting_count. induction tasks as [|tk tasks IH]; simpl; intros H;
    [constructor|].
  destruct (tk_ticket tk =? t)%Z eqn:E; [discriminate|].
  constructor; [apply Z.eqb_neq; exact E|apply IH; exact H].
Qed.

Lemma waiting_count_remove (t : Z) (tasks : list task) :
  forall i tk,
    nth_error tasks i = Some tk ->
    waiting_count t tasks
    = ((if (tk_ticket tk =? t)%Z then 1 else 0)
       + waiting_count t (remove_nth i tasks))%nat.
Proof.
  unfold waiting_count.
  induction tasks as [|a tasks IH]; intros [|i] tk H; simpl in H;
    try discriminate.
  - injection H as ->. simpl. destruct (tk_ticket tk =? t)%Z; reflexivity.
  - simpl. destruct (tk_ticket a =? t)%Z; simpl; rewrite (IH i tk H);
      destruct (tk_ticket tk =? t)%Z; simpl; lia.
Qed.

Lemma Forall_remove_nth {A : Type} (Q : A -> Prop) (l : list A) :
  forall i, Forall Q l -> Forall Q (remove_nth i l).
Proof.
  induction l as [|a l IH]; intros [|i] H; simpl; try exact H;
    inversion H; subst; auto.
Qed.

Lemma existsb_above (x : Z) (l : list Z) :
  Forall (fun c => (c < x)%Z) l -> existsb (Z.eqb x) l = false.
Proof.
  intros HF. induction HF as [|c l Hc HF IH]; simpl; [reflexivity|].
  rewrite IH, orb_false_r. apply Z.eqb_neq. lia.
Qed.

(** ** The books through the loader *)

Lemma task_ok_same (s s' : state) (tk : task) :
  ticket s' = ticket s -> next_controller s' = next_controller s ->
  aborted s' = aborted s -> task_ok s tk -> task_ok s' tk.
Proof. unfold task_ok. intros -> -> ->. auto. Qed.

Lemma balance_ext (n : nat) (s s' : state) :
  ticket s' = ticket s -> activeController s' = activeController s ->
  next_controller s' = next_controller s -> aborted s' = aborted s ->
  emitted s' = emitted s -> pending s' = pending s ->
  balance n s -> balance n s'.
Proof.
  intros T C N A E Pd (H0 & H1 & H2 & H3 & H4 & H5).
  unfold balance. rewrite T, C, N, A, E, Pd. repeat split; auto.
  eapply Forall_impl; [|exact H1]. intros tk. apply task_ok_same; assumption.
Qed.

Lemma balance_same (n : nat) (s s' : state) :
  same_loader s s' -> balance n s -> balance n s'.
Proof. intros (T & C & N & A & L & E & Pd). apply balance_ext; assumption. Qed.

Lemma balance_emit (n : nat) (l : lifecycle) (p : payload) (s : state) :
  p_ticket p = ticket s -> balance n s ->
  balance ((if settled l then 1 else 0) + n) (emit l p s).
Proof.
  intros Hp (H0 & H1 & H2 & H3 & H4 & H5). unfold balance.
  cbn [emit ticket pending emitted aborted next_controller activeController].
  repeat split; auto.
  - apply Forall_app. split; [exact H2|].
    constructor; [cbn [snd]; lia|constructor].
  - rewrite settled_count_app. unfold settled_count at 2.
    cbn [filter fst snd]. rewrite Hp, Z.eqb_refl, andb_true_r.
    destruct (settled l); simpl; lia.
Qed.

Lemma balance_enqueue (n : nat) (tk : task) (s : state) :
  task_ok s tk -> balance n s ->
  balance (due tk s + n) (set_pending (pending s ++ [tk]) s).
Proof.
  intros Hok (H0 & H1 & H2 & H3 & H4 & H5). unfold balance.
  cbn [set_pending ticket pending emitted aborted next_controller
       activeController].
  repeat split; auto.
  - apply Forall_app. split.
    + eapply Forall_impl; [|exact H1]. intros a.
      apply task_ok_same; reflexivity.
    + constructor; [|constructor]. revert Hok. apply task_ok_same; reflexivity.
  - rewrite waiting_count_app. unfold waiting_count at 2, due.
    cbn [filter]. destruct (tk_ticket tk =? ticket s)%Z; simpl; lia.
Qed.

Lemma balance_remove (n i : nat) (tk : task) (s : state) :
  nth_error (pending s) i = Some tk -> balance n s ->
  exists m,
    n = (due tk s + m)%nat /\ task_ok s tk
    /\ balance m (set_pending (remove_nth i (pending s)) s).
Proof.
  intros Hn (H0 & H1 & H2 & H3 & H4 & H5).
  exists (settled_count (ticket s) (emitted s)
          + waiting_count (ticket s) (remove_nth i (pending s)))%nat.
  split; [|split].
  - rewrite (waiting_count_remove (ticket s) (pending s) i tk Hn) in H5.
    unfold due. lia.
  - rewrite Forall_forall in H1. apply H1. eapply nth_error_In; exact Hn.
  - unfold balance.
    cbn [set_pending ticket pending emitted aborted next_controller
         activeController].
    repeat split; auto.
    apply Forall_remove_nth. eapply Forall_impl; [|exact H1]. intros a.
    apply task_ok_same; reflexivity.
Qed.

(** A new ticket: nothing is on the books for it yet. *)
Lemma balance_fresh (n : nat) (s : state) :
  balance n s -> balance 0 (set_ticket (ticket s + 1) s).
Proof.
  intros (H0 & H1 & H2 & H3 & H4 & H5). unfold balance.
  cbn [set_ticket ticket pending emitted aborted next_controller
       activeController].
  repeat split; auto.
  - lia.
  - eapply Forall_impl; [|exact H1]. intros tk (Hle & Hp). split.
    + cbn [set_ticket ticket]. lia.
    + destruct (tk_point tk) as [c|b k rest]; [|exact Hp].
      cbn [set_ticket ticket next_controller aborted].
      split; [apply Hp|]. intros Ht. lia.
  - eapply Forall_impl; [|exact H2]. intros ev Hev. cbv beta in *. lia.
  - rewrite (settled_count_ahead (ticket s)); [|exact H2|lia].
    rewrite (waiting_count_ahead (ticket s)); [reflexivity| |lia].
    eapply Forall_impl; [|exact H1]. intros tk Hok. apply Hok.
Qed.

(** Aborting a controller while nothing waits under the current ticket. *)
Lemma balance_abort (c : Z) (s : state) :
  balance 0 s -> (c < next_controller s)%Z ->
  balance 0 (set_aborted (aborted s ++ [c]) s).
Proof.
  intros (H0 & H1 & H2 & H3 & H4 & H5) Hc. unfold balance.
  cbn [set_aborted ticket pending emitted aborted next_controller
       activeController].
  repeat split; auto.
  - assert (Hw : waiting_count (ticket s) (pending s) = 0%nat) by lia.
    apply waiting_count_none in Hw.
    rewrite Forall_forall in *. intros tk Hin.
    destruct (H1 tk Hin) as (Hle & Hp). split; [exact Hle|].
    destruct (tk_point tk) as [c'|b k rest]; [|exact Hp].
    cbn [set_aborted ticket next_controller aborted].
    split; [apply Hp|]. intros Ht. destruct (Hw tk Hin Ht).
  - apply Forall_app. split; [exact H3|]. constructor; [exact Hc|constructor].
Qed.

Lemma balance_new_controller (n : nat) (s : state) :
  balance n s -> balance n (new_controller s).
Proof.
  intros (H0 & H1 & H2 & H3 & H4 & H5). unfold balance.
  cbn [new_controller ticket pending emitted aborted next_controller
       activeController].
  repeat split; auto.
  - eapply Forall_impl; [|exact H1]. intros tk (Hle & Hp). split; [exact Hle|].
    destruct (tk_point tk) as [c|b k rest]; [|exact Hp].
    cbn [new_controller ticket next_controller aborted].
    split; [destruct Hp; lia|apply Hp].
  - eapply Forall_impl; [|exact H3]. intros c Hc. cbv beta in *. lia.
  - lia.
Qed.

Section Books.

Variable P : platform.

Lemma run_scripts_clean (t ct : Z) (scripts : list ScriptUnit) :
  forall i sb e,
    snd (run_scripts P t ct i scripts sb) = Some e ->
    (err_name e =? "AbortError")%string = false.
Proof.
  induction scripts as [|entry rest IH]; intros i sb e; cbn [run_scripts].
  - discriminate.
  - destruct (negb (t =? ct)%Z); [apply IH|].
    destruct (compile P entry) as [r|]; [apply IH|].
    simpl. intros [= <-]. reflexivity.
Qed.

Lemma finish_inject_clean (ct : Z) (bucket : list ScriptUnit) (s : state) :
  same_loader s (fst (finish_inject P ct bucket s))
  /\ outcome_clean (snd (finish_inject P ct bucket s)).
Proof.
  unfold finish_inject. destruct (negb (ticket s =? ct)%Z);
    [split; [apply same_loader_refl|exact I]|].
  destruct (snd (run_scripts P (ticket s) ct 0 bucket (box s))) as [e|] eqn:E;
    cbn [fst snd].
  - split; [apply same_loader_box|]. eapply run_scripts_clean; exact E.
  - split; [|exact I]. cbn [with_box fullscreen].
    destruct (fullscreen s).
    + eapply same_loader_trans; [|apply same_loader_enableDprSizer].
      repeat split.
    + repeat split.
Qed.

Lemma clone_step_clean
  (continue : list ScriptUnit -> state -> state * inject_outcome)
  (m : Async (option node * list ScriptUnit)) (rest : list node) (s : state) :
  clean m ->
  (forall b s', same_loader s' (fst (continue b s'))
                /\ outcome_clean (snd (continue b s'))) ->
  same_loader s (fst (clone_step continue m rest s))
  /\ outcome_clean (snd (clone_step continue m rest s)).
Proof.
  intros Hm Hc. destruct Hm as [[[c|] b]|e He|url k Hk]; cbn [clone_step fst snd].
  - destruct (Hc b (with_box (appendChild c) s)) as [H1 H2].
    split; [|exact H2].
    eapply same_loader_trans; [apply same_loader_box|exact H1].
  - apply Hc.
  - split; [apply same_loader_refl|exact He].
  - split; [apply same_loader_issue|exact Hk].
Qed.

Lemma inject_nodes_clean (ct : Z) (baseUrl : URLrec) (nodes : list node) :
  forall bucket s,
    same_loader s (fst (inject_nodes P ct baseUrl nodes bucket s))
    /\ outcome_clean (snd (inject_nodes P ct baseUrl nodes bucket s)).
Proof.
  induction nodes as [|child rest IH]; intros bucket s; cbn [inject_nodes].
  - apply finish_inject_clean.
  - destruct (negb (ticket s =? ct)%Z);
      [split; [apply same_loader_refl|exact I]|].
    apply clone_step_clean; [apply cloneNodeTree_clean|exact IH].
Qed.

Lemma injectHtml_clean (html : string) (baseUrl : URLrec) (ct : Z) (s : state) :
  same_loader s (fst (injectHtml P html baseUrl ct s))
  /\ outcome_clean (snd (injectHtml P html baseUrl ct s)).
Proof.
  unfold injectHtml. destruct (negb (host_value s));
    [split; [apply same_loader_refl|exact I]|].
  cbv zeta.
  destruct (inject_nodes_clean ct baseUrl (parseFromString P html) []
              (with_box (inject_begin ct) s)) as [H1 H2].
  split; [|exact H2].
  eapply same_loader_trans; [apply same_loader_box|exact H1].
Qed.

Lemma load_catch_balance (n : nat) (tk : task) (e : js_error) (s : state) :
  (tk_ticket tk = ticket s -> (err_name e =? "AbortError")%string = false) ->
  balance n s ->
  life (load_catch tk e s) = life s
  /\ balance (due tk s + n) (load_catch tk e s).
Proof.
  intros He Hb. unfold load_catch, due.
  destruct (same_loader_clearShadow s) as (T & _ & _ & _ & L & _).
  rewrite (Z.eqb_sym (ticket s)).
  destruct (err_name e =? "AbortError")%string.
  - destruct (tk_ticket tk =? ticket s)%Z eqn:E; [|split; [reflexivity|exact Hb]].
    apply Z.eqb_eq in E. apply He in E. discriminate.
  - destruct (tk_ticket tk =? ticket s)%Z eqn:E; [|split; [reflexivity|exact Hb]].
    apply Z.eqb_eq in E. split; [exact L|].
    apply (balance_emit n Failed).
    + cbn [p_ticket]. congruence.
    + apply (balance_same n s); [apply same_loader_clearShadow|exact Hb].
Qed.

Lemma after_inject_balance (n : nat) (tk : task) (baseUrl : URLrec)
  (s : state) (r : state * inject_outcome) :
  same_loader s (fst r) -> outcome_clean (snd r) ->
  (tk_ticket tk <= ticket s)%Z -> balance n s ->
  life (after_inject tk baseUrl r) = life s
  /\ balance (due tk s + n) (after_inject tk baseUrl r).
Proof.
  intros Hs Ho Hle Hb. pose proof (balance_same n s (fst r) Hs Hb) as Hb'.
  destruct Hs as (T & _ & _ & _ & L & _).
  assert (D : due tk s = due tk (fst r)) by (unfold due; rewrite T; reflexivity).
  rewrite D, <- L. unfold after_inject.
  destruct (snd r) as [|e|url k rest].
  - unfold due. rewrite (Z.eqb_sym (tk_ticket tk)).
    destruct (ticket (fst r) =? tk_ticket tk)%Z eqn:E;
      [|split; [reflexivity|exact Hb']].
    apply Z.eqb_eq in E. split; [reflexivity|].
    apply (balance_emit n Loaded); [cbn [createEventPayload p_ticket]; congruence|exact Hb'].
  - apply load_catch_balance; [intros _; exact Ho|exact Hb'].
  - split; [reflexivity|].
    apply (balance_enqueue n
             (mkTask (tk_slug tk) (tk_entryPoint tk) (tk_ticket tk)
                     (AtClone baseUrl k rest)) (fst r)); [|exact Hb'].
    split; [cbn [tk_ticket]; lia|exact Ho].
Qed.

Lemma resume_entry_balance (n : nat) (tk : task) (r : fetch_result) (s : state) :
  (tk_ticket tk = ticket s ->
   match r with
   | Rejected e => (err_name e =? "AbortError")%string = false
   | Response _ _ => True
   end) ->
  (tk_ticket tk <= ticket s)%Z -> balance n s ->
  life (resume_entry P tk r s) = life s
  /\ balance (due tk s + n) (resume_entry P tk r s).
Proof.
  intros Hr Hle Hb. unfold resume_entry. destruct r as [status html|e].
  - destruct (negb (response_ok status));
      [apply load_catch_balance; [intros _; reflexivity|exact Hb]|].
    destruct (URL_ P (tk_entryPoint tk) (location_origin P)) as [b|];
      [|apply load_catch_balance; [intros _; reflexivity|exact Hb]].
    destruct (injectHtml_clean html b (tk_ticket tk) s) as [H1 H2].
    apply (after_inject_balance n tk b s); assumption.
  - apply load_catch_balance; assumption.
Qed.

Lemma resume_clone_balance (n : nat) (tk : task) (baseUrl : URLrec)
  (m : Async (option node * list ScriptUnit)) (rest : list node) (s : state) :
  clean m -> (tk_ticket tk <= ticket s)%Z -> balance n s ->
  life (resume_clone P tk baseUrl m rest s) = life s
  /\ balance (due tk s + n) (resume_clone P tk baseUrl m rest s).
Proof.
  intros Hm Hle Hb. unfold resume_clone.
  destruct (clone_step_clean (inject_nodes P (tk_ticket tk) baseUrl rest)
              m rest s Hm) as [H1 H2].
  { intros b s'. apply inject_nodes_clean. }
  apply (after_inject_balance n tk baseUrl s); assumption.
Qed.

(** Resuming a suspended load keeps the books: what it held is settled or
    suspended again. *)
Lemma deliver_balance (n i : nat) (o : net_outcome) (s : state) :
  balance n s ->
  life (deliver P i o s) = life s /\ balance n (deliver P i o s).
Proof.
  intros Hb. unfold deliver.
  destruct (nth_error (pending s) i) as [tk|] eqn:E;
    [|split; [reflexivity|exact Hb]].
  destruct (balance_remove n i tk s E Hb) as (m & -> & (Hle & Hp) & Hm).
  set (s0 := set_pending (remove_nth i (pending s)) s) in *.
  change (due tk s) with (due tk s0). change (life s) with (life s0).
  destruct (tk_point tk) as [c|baseUrl k rest].
  - apply resume_entry_balance; [|exact Hle|exact Hm].
    intros Ht. destruct Hp as [_ Hp]. rewrite (Hp Ht).
    destruct o; simpl; [exact I|reflexivity].
  - apply resume_clone_balance; [apply Hp|exact Hle|exact Hm].
Qed.

Lemma loadProject_balance (slug entryPoint : string) (s : state) :
  balance 0 s ->
  life (loadProject slug entryPoint (ticket s) s) = life s
  /\ ticket (loadProject slug entryPoint (ticket s) s) = ticket s
  /\ balance 1 (loadProject slug entryPoint (ticket s) s).
Proof.
  intros Hb. unfold loadProject. cbv zeta.
  set (s1 := match activeController s with
             | Some c => set_aborted (aborted s ++ [c]) s
             | None => s
             end).
  assert (H1 : balance 0 s1).
  { subst s1. destruct (activeController s) as [c|] eqn:E; [|exact Hb].
    apply balance_abort; [exact Hb|].
    destruct Hb as (_ & _ & _ & _ & H4 & _). rewrite E in H4. exact H4. }
  assert (T : ticket s1 = ticket s)
    by (subst s1; destruct (activeController s); reflexivity).
  assert (L : life s1 = life s)
    by (subst s1; destruct (activeController s); reflexivity).
  clearbody s1. rewrite <- T, <- L.
  split; [reflexivity|]. split; [reflexivity|].
  set (s3 := emit Loading (createEventPayload slug entryPoint (ticket s1))
               (new_controller s1)).
  assert (H3 : balance 0 s3).
  { apply (balance_emit 0 Loading); [reflexivity|].
    apply balance_new_controller. exact H1. }
  set (s4 := issue (mkRequest entryPoint (Some (next_controller s1))) s3).
  assert (H4 : balance 0 s4).
  { revert H3. apply balance_ext; reflexivity. }
  set (tk := mkTask slug entryPoint (ticket s1) (AtEntry (next_controller s1))).
  assert (D : due tk s4 = 1%nat).
  { unfold due. cbn [tk tk_ticket]. change (ticket s4) with (ticket s1).
    rewrite Z.eqb_refl. reflexivity. }
  replace 1%nat with (due tk s4 + 0)%nat by (rewrite D; reflexivity).
  apply balance_enqueue; [|exact H4].
  split; [cbn [tk tk_ticket]; change (ticket s4) with (ticket s1); lia|].
  cbn [tk tk_point]. change (next_controller s4) with (next_controller s1 + 1)%Z.
  change (aborted s4) with (aborted s1).
  split; [lia|]. intros _. apply existsb_above. apply H1.
Qed.

Lemma watch_project_balance (n : nat) (slug entryPoint : string) (s : state) :
  balance n s ->
  life (watch_project slug entryPoint s) = life s
  /\ ticket (watch_project slug entryPoint s) = (ticket s + 1)%Z
  /\ balance 1 (watch_project slug entryPoint s).
Proof.
  intros Hb. apply balance_fresh in Hb. unfold watch_project. cbv zeta.
  set (s1 := set_ticket (ticket s + 1) s) in *.
  destruct (same_loader_clearShadow s1) as (T & _ & _ & _ & L & _).
  destruct (negb (JS.truthy slug)); [|destruct (negb (JS.truthy entryPoint))].
  - split; [exact L|]. split; [exact T|].
    apply (balance_emit 0 Failed); [cbn [p_ticket]; rewrite T; reflexivity|].
    apply (balance_same 0 s1); [apply same_loader_clearShadow|exact Hb].
  - split; [exact L|]. split; [exact T|].
    apply (balance_emit 0 Loaded); [cbn [p_ticket]; rewrite T; reflexivity|].
    apply (balance_same 0 s1); [apply same_loader_clearShadow|exact Hb].
  - exact (loadProject_balance slug entryPoint s1 Hb).
Qed.

Lemma onBeforeUnmount_balance (n : nat) (s : state) :
  balance n s -> balance 0 (onBeforeUnmount s).
Proof.
  intros Hb. apply balance_fresh in Hb. unfold onBeforeUnmount. cbv zeta.
  set (s1 := set_ticket (ticket s + 1) s) in *.
  apply (balance_same 0 s1 (clearShadow s1) (same_loader_clearShadow s1)) in Hb.
  set (s2 := clearShadow s1) in *. clearbody s2.
  apply (balance_same 0
           (match activeController s2 with
            | Some c => set_controller None (set_aborted (aborted s2 ++ [c]) s2)
            | None => s2
            end)); [apply same_loader_box|].
  destruct (activeController s2) as [c|] eqn:E; [|exact Hb].
  assert (Hc : (c < next_controller s2)%Z).
  { destruct Hb as (_ & _ & _ & _ & H4 & _). rewrite E in H4. exact H4. }
  apply (balance_abort c s2 Hb) in Hc.
  destruct Hc as (H0 & H1 & H2 & H3 & H4 & H5).
  unfold balance.
  cbn [set_controller set_aborted ticket pending emitted aborted
       next_controller activeController] in *.
  repeat split; auto.
Qed.

(** Every step keeps the books. *)
Lemma accounted_step (s : state) (e : event) :
  accounted s -> accounted (step P s e).
Proof.
  assert (Hsame : forall s', same_loader s s' -> accounted s -> accounted s').
  { intros s' Hs. unfold accounted, alive.
    destruct Hs as (T & C & N & A & L & E & Pd). rewrite T, L.
    apply balance_ext; assumption. }
  intros H. destruct e; cbn [step].
  - destruct (life s) eqn:L; try exact H.
    unfold accounted, alive in *. cbn [set_life life ticket]. rewrite L in H.
    revert H. apply balance_ext; reflexivity.
  - destruct (life s) eqn:L; try exact H;
      (destruct (watch_project_balance _ slug entryPoint s H) as (L' & T & Hb);
       unfold accounted, alive; rewrite L', T, L;
       destruct H as (H0 & _);
       replace (1 <=? ticket s + 1)%Z with true
         by (symmetry; apply Z.leb_le; lia);
       exact Hb).
  - destruct (life s); try exact H;
      (destruct (Bool.eqb next (fullscreen s)); [exact H|];
       apply (Hsame _); [|exact H];
       unfold watch_fullscreen; destruct next;
       [eapply same_loader_trans; [|apply same_loader_enableDprSizer]|];
       repeat split).
  - destruct (life s) eqn:L; try exact H;
      (unfold accounted, alive; cbn [set_life life ticket andb];
       generalize (onBeforeUnmount_balance _ s H);
       apply balance_ext; reflexivity).
  - destruct (deliver_balance _ i o s H) as (L & Hb).
    destruct (advances_deliver P i o s) as (T & _).
    unfold accounted, alive in *. rewrite L, T. exact Hb.
  - apply (Hsame _); [apply same_loader_box|exact H].
  - apply (Hsame _); [apply same_loader_box|exact H].
  - apply (Hsame _); [apply same_loader_box|exact H].
Qed.

Lemma accounted_initial (ro : bool) : accounted (initial ro).
Proof.
  unfold accounted, balance. simpl. repeat split; try constructor. discriminate.
Qed.

Lemma accounted_run (ro : bool) (es : list event) :
  accounted (run P (initial ro) es).
Proof.
  unfold run. rewrite <- (rev_involutive es).
  induction (rev es) as [|e res IH]; simpl; [apply accounted_initial|].
  rewrite fold_left_app. cbn [fold_left]. apply accounted_step. exact IH.
Qed.

(** X18.  While the component lives and has seen a descriptor, the
    current ticket has exactly one of: a settled event, a suspended
    load. *)
Lemma current_ticket_settles_once (ro : bool) (es : list event) :
  let s := run P (initial ro) es in
  life s <> Unmounted -> (1 <= ticket s)%Z ->
  (settled_count (ticket s) (emitted s)
   + waiting_count (ticket s) (pending s))%nat = 1%nat.
Proof.
  intros s HL HT. pose proof (accounted_run ro es) as H. fold s in H.
  unfold accounted, alive in H.
  destruct (life s); try contradiction;
    (replace (1 <=? ticket s)%Z with true in H
       by (symmetry; apply Z.leb_le; exact HT);
     apply H).
Qed.

(** After unmount nothing is settled or suspended under the last ticket. *)
Lemma unmounted_ticket_is_silent (ro : bool) (es : list event) :
  let s := run P (initial ro) es in
  life s = Unmounted ->
  settled_count (ticket s) (emitted s) = 0%nat
  /\ waiting_count (ticket s) (pending s) = 0%nat.
Proof.
  intros s HL. pose proof (accounted_run ro es) as H. fold s in H.
  unfold accounted, alive in H. rewrite HL in H.
  destruct H as (_ & _ & _ & _ & _ & H). cbn [andb] in H. lia.
Qed.

(** X17.  No ticket ever gets a second settled event: along every run, at
    most one [loaded] or [error] carries a given ticket. *)
Lemma settled_at_most_once (ro : bool) (es : list event) (t : Z) :
  (settled_count t (emitted (run P (initial ro) es)) <= 1)%nat.
Proof.
  unfold run. rewrite <- (rev_involutive es).
  induction (rev es) as [|e res IH]; simpl; [apply Nat.le_0_l|].
  rewrite fold_left_app. cbn [fold_left].
  pose proof (accounted_run ro (rev res)) as Hacc. unfold run in Hacc.
  set (s := fold_left (step P) (rev res) (initial ro)) in *.
  pose proof (accounted_step s e Hacc) as Hacc'.
  destruct (step_ticket_and_events P s e) as (_ & d & E & F).
  destruct (Z.eq_dec t (ticket (step P s e))) as [->|Hne].
  - destruct Hacc' as (_ & _ & _ & _ & _ & H5).
    destruct (alive (step P s e) && (1 <=? ticket (step P s e))%Z); lia.
  - rewrite E, settled_count_app.
    rewrite (settled_count_other (ticket (step P s e)) t d F); [lia|].
    intros Heq. apply Hne. symmetry. exact Heq.
Qed.

End Books.

Lemma current_ticket_settles_once_witness :
  (settled_count (ticket entry_pending) (emitted entry_pending)
   + waiting_count (ticket entry_pending) (pending entry_pending))%nat = 1%nat.
Proof.
  assert (HL : life entry_pending <> Unmounted)
    by (vm_compute; discriminate).
  assert (HT : (1 <= ticket entry_pending)%Z)
    by (vm_compute; discriminate).
  exact (current_ticket_settles_once timer_platform true
           [Observe "demo" "/projects/demo/index.html"; Mount] HL HT).
Defined.

(** ** Every load comes to an end *)

Lemma nth_error_last {A : Type} (l : list A) (a : A) :
  nth_error (l ++ [a]) (List.length l) = Some a.
Proof. induction l as [|b l IH]; simpl; [reflexivity|exact IH]. Qed.

Lemma remove_nth_last {A : Type} (l : list A) (a : A) :
  remove_nth (List.length l) (l ++ [a]) = l.
Proof. induction l as [|b l IH]; simpl; [reflexivity|rewrite IH; reflexivity]. Qed.

Lemma waiting_count_find (t : Z) (tasks : list task) :
  waiting_count t tasks <> 0%nat ->
  exists i tk, nth_error tasks i = Some tk /\ tk_ticket tk = t.
Proof.
  unfold waiting_count. induction tasks as [|a tasks IH]; simpl; intros H;
    [contradiction|].
  destruct (tk_ticket a =? t)%Z eqn:E.
  - exists 0%nat, a. split; [reflexivity|apply Z.eqb_eq; exact E].
  - destruct (IH H) as (i & tk & Hn & Ht). exists (S i), tk. auto.
Qed.

Section Liveness.

Variable P : platform.

Lemma finish_inject_returns (ct : Z) (bucket : list ScriptUnit) (s : state)
  (url : string) k (rest : list node) :
  snd (finish_inject P ct bucket s) <> Suspended url k rest.
Proof.
  unfold finish_inject. destruct (negb (ticket s =? ct)%Z); [discriminate|].
  destruct (snd (run_scripts P (ticket s) ct 0 bucket (box s))); discriminate.
Qed.

(** A suspension inside the loop leaves fewer top-level children to visit. *)
Lemma inject_nodes_suspends (ct : Z) (baseUrl : URLrec) (nodes : list node) :
  forall bucket s url k rest,
    snd (inject_nodes P ct baseUrl nodes bucket s) = Suspended url k rest ->
    (List.length rest < List.length nodes)%nat.
Proof.
  induction nodes as [|child nodes IH]; intros bucket s url k rest;
    cbn [inject_nodes].
  - intros H. destruct (finish_inject_returns ct bucket s url k rest H).
  - destruct (negb (ticket s =? ct)%Z); [discriminate|].
    destruct (cloneNodeTree P baseUrl child bucket) as [res|e|url' k'];
      cbn [clone_step snd].
    + intros H. apply IH in H. simpl. lia.
    + discriminate.
    + intros [= _ _ <-]. simpl. lia.
Qed.

(** What [after_inject] leaves suspended. *)
Lemma after_inject_pending (tk : task) (baseUrl : URLrec)
  (r : state * inject_outcome) :
  ticket (after_inject tk baseUrl r) = ticket (fst r)
  /\ match snd r with
     | Suspended _ k rest =>
         pending (after_inject tk baseUrl r)
         = pending (fst r)
             ++ [mkTask (tk_slug tk) (tk_entryPoint tk) (tk_ticket tk)
                        (AtClone baseUrl k rest)]
     | _ => pending (after_inject tk baseUrl r) = pending (fst r)
     end.
Proof.
  unfold after_inject. destruct (snd r) as [|e|url k rest].
  - destruct (ticket (fst r) =? tk_ticket tk)%Z; split; reflexivity.
  - unfold load_catch.
    destruct (same_loader_clearShadow (fst r)) as (T & _ & _ & _ & _ & _ & Pd).
    destruct (err_name e =? "AbortError")%string; [split; reflexivity|].
    destruct (ticket (fst r) =? tk_ticket tk)%Z; [|split; reflexivity].
    split; [exact T|exact Pd].
  - split; reflexivity.
Qed.

Lemma load_catch_pending (tk : task) (e : js_error) (s : state) :
  ticket (load_catch tk e s) = ticket s
  /\ pending (load_catch tk e s) = pending s.
Proof.
  unfold load_catch.
  destruct (same_loader_clearShadow s) as (T & _ & _ & _ & _ & _ & Pd).
  destruct (err_name e =? "AbortError")%string; [split; reflexivity|].
  destruct (ticket s =? tk_ticket tk)%Z; [|split; reflexivity].
  split; [exact T|exact Pd].
Qed.

(** Resuming at a suspended task that is last in the queue. *)
Lemma deliver_last (o : net_outcome) (s : state) (pend : list task)
  (tk : task) (baseUrl : URLrec) k (rest : list node) :
  pending s = pend ++ [tk] -> tk_point tk = AtClone baseUrl k rest ->
  deliver P (List.length pend) o s
  = resume_clone P tk baseUrl (k (settle o)) rest (set_pending pend s).
Proof.
  intros Hp Hk. unfold deliver.
  rewrite Hp, nth_error_last, remove_nth_last, Hk. reflexivity.
Qed.

(** However [injectHtml] came back, the load comes to an end, provided it
    does from where [injectHtml] is suspended. *)
Lemma after_inject_settles (tk : task) (baseUrl : URLrec) (s : state)
  (r : state * inject_outcome) :
  waiting_count (ticket s) (pending s) = 0%nat ->
  same_loader s (fst r) ->
  (forall url k rest,
     snd r = Suspended url k rest ->
     forall o tk' s',
       waiting_count (ticket s') (pending s') = 0%nat ->
       settles_eventually P
         (resume_clone P tk' baseUrl (k (settle o)) rest s')) ->
  settles_eventually P (after_inject tk baseUrl r).
Proof.
  intros Hw (T & _ & _ & _ & _ & _ & Pd) Hs.
  destruct (after_inject_pending tk baseUrl r) as (T' & Hp).
  destruct (snd r) as [|e|url k rest] eqn:E.
  - apply settled_now. rewrite T', Hp, T, Pd. exact Hw.
  - apply settled_now. rewrite T', Hp, T, Pd. exact Hw.
  - set (tk' := mkTask (tk_slug tk) (tk_entryPoint tk) (tk_ticket tk)
                       (AtClone baseUrl k rest)) in *.
    destruct (Z.eq_dec (tk_ticket tk) (ticket (fst r))) as [Ht|Hne].
    + apply settles_after with (i := List.length (pending (fst r))) (tk := tk').
      * rewrite Hp. apply nth_error_last.
      * rewrite T'. exact Ht.
      * intros o.
        rewrite (deliver_last o _ (pending (fst r)) tk' baseUrl k rest Hp
                   eq_refl).
        apply (Hs url k rest eq_refl).
        cbn [set_pending ticket pending]. rewrite T', T, Pd. exact Hw.
    + apply settled_now. rewrite T', Hp, waiting_count_app, T, Pd, Hw.
      unfold waiting_count. cbn [filter tk' tk_ticket].
      replace (tk_ticket tk =? ticket s)%Z with false; [reflexivity|].
      symmetry. apply Z.eqb_neq. rewrite <- T. exact Hne.
Qed.

(** A load suspended inside [cloneNodeTree] comes to an end: by induction on
    the number of top-level children left, then on the continuation. *)
Lemma clone_task_settles (N : nat) :
  forall rest, (List.length rest < N)%nat ->
  forall m, clean m ->
  forall tk baseUrl s,
    waiting_count (ticket s) (pending s) = 0%nat ->
    settles_eventually P (resume_clone P tk baseUrl m rest s).
Proof.
  induction N as [|N IHN]; intros rest Hlen; [lia|].
  intros m Hm. induction Hm as [res|e He|url k Hk IH]; intros tk baseUrl s Hw;
    unfold resume_clone.
  - cbn [clone_step].
    set (s1 := match fst res with
               | Some cloned => with_box (appendChild cloned) s
               | None => s
               end).
    assert (Hs1 : same_loader s s1)
      by (subst s1; destruct (fst res);
          [apply same_loader_box|apply same_loader_refl]).
    destruct (inject_nodes_clean P (tk_ticket tk) baseUrl rest (snd res) s1)
      as [H1 H2].
    apply (after_inject_settles tk baseUrl s); [exact Hw| |].
    + eapply same_loader_trans; [exact Hs1|exact H1].
    + intros url k rest' E o tk' s' Hw'. rewrite E in H2.
      apply inject_nodes_suspends in E.
      apply IHN; [lia|apply H2|exact Hw'].
  - apply (after_inject_settles tk baseUrl s);
      [exact Hw|apply same_loader_refl|].
    intros url k rest' E. discriminate E.
  - apply (after_inject_settles tk baseUrl s);
      [exact Hw|apply same_loader_issue|].
    intros url' k' rest' E. cbn [clone_step snd] in E.
    injection E as _ <- <-. intros o tk' s' Hw'. apply IH. exact Hw'.
Qed.

Lemma resume_entry_settles (tk : task) (r : fetch_result) (s : state) :
  waiting_count (ticket s) (pending s) = 0%nat ->
  settles_eventually P (resume_entry P tk r s).
Proof.
  intros Hw.
  assert (Hc : forall e, settles_eventually P (load_catch tk e s)).
  { intros e. destruct (load_catch_pending tk e s) as (T & Pd).
    apply settled_now. rewrite T, Pd. exact Hw. }
  unfold resume_entry. destruct r as [status html|e]; [|apply Hc].
  destruct (negb (response_ok status)); [apply Hc|].
  destruct (URL_ P (tk_entryPoint tk) (location_origin P)) as [b|]; [|apply Hc].
  destruct (injectHtml_clean P html b (tk_ticket tk) s) as [H1 H2].
  apply (after_inject_settles tk b s); [exact Hw|exact H1|].
  intros url k rest E o tk' s' Hw'. rewrite E in H2.
  apply (clone_task_settles (S (List.length rest))); [lia|apply H2|exact Hw'].
Qed.

(** With the books in order the current load comes to an end, whatever the
    network answers. *)
Lemma accounted_settles (s : state) :
  accounted s -> settles_eventually P s.
Proof.
  intros (_ & H1 & _ & _ & _ & H5).
  destruct (Nat.eq_dec (waiting_count (ticket s) (pending s)) 0) as [Hz|Hnz];
    [apply settled_now; exact Hz|].
  destruct (waiting_count_find (ticket s) (pending s) Hnz) as (i & tk & Hn & Ht).
  apply settles_after with (i := i) (tk := tk); [exact Hn|exact Ht|].
  intros o. unfold deliver. rewrite Hn.
  assert (Hw : waiting_count (ticket s) (remove_nth i (pending s)) = 0%nat).
  { rewrite (waiting_count_remove (ticket s) (pending s) i tk Hn) in H5.
    rewrite Ht, Z.eqb_refl in H5.
    destruct (alive s && (1 <=? ticket s)%Z); lia. }
  rewrite Forall_forall in H1.
  destruct (H1 tk (nth_error_In _ _ Hn)) as (_ & Hp).
  destruct (tk_point tk) as [c|baseUrl k rest].
  - apply resume_entry_settles. exact Hw.
  - apply (clone_task_settles (S (List.length rest))); [lia|apply Hp|exact Hw].
Qed.

(** X19.  In every reachable state the load that holds the current ticket
    comes to an end after finitely many network answers, whatever they
    are. *)
Lemma current_load_settles (ro : bool) (es : list event) :
  settles_eventually P (run P (initial ro) es).
Proof. apply accounted_settles, accounted_run. Qed.

End Liveness.

(* ================================================================== *)
(** * The earlier revision *)
(* ================================================================== *)

(** Its [clearShadow] leaves the ledger and the real window as they are. *)
Lemma earlier_clearShadow_keeps_ledger (s : state) :
  win (box (Earlier.clearShadow s)) = win (box s)
  /\ sandboxCleanup (root (box (Earlier.clearShadow s)))
     = sandboxCleanup (root (box s)).
Proof.
  unfold Earlier.clearShadow.
  destruct (host_value s && attached (root (box s))); [|split; reflexivity].
  cbn [with_box box]. rewrite remove_children_spec. split; reflexivity.
Qed.

(** So does its [onBeforeUnmount]: what the mini-app scheduled stays
    scheduled. *)
Lemma earlier_unmount_keeps_timers (s : state) :
  win (box (Earlier.onBeforeUnmount s)) = win (box s)
  /\ sandboxCleanup (root (box (Earlier.onBeforeUnmount s)))
     = sandboxCleanup (root (box s)).
Proof.
  unfold Earlier.onBeforeUnmount. cbv zeta.
  set (s1 := set_ticket (ticket s + 1) s).
  destruct (earlier_clearShadow_keeps_ledger s1) as [Hw Hc].
  destruct (activeController (Earlier.clearShadow s1)); split; assumption.
Qed.

(** An interval started through the instrumented window goes on firing
    after the component is unmounted. *)
Lemma earlier_interval_outlives_unmount :
  let s := Earlier.onBeforeUnmount earlier_ticking in
  ticket s = 2%Z
  /\ children (root (box s)) = []
  /\ sandboxCleanup (root (box s)) = Some [RClearInterval 1]
  /\ trace (fire 1 (fire 1 (box s)))
     = [OInvoke TimerCallback 1; ORecord 7; OInvoke TimerCallback 1; ORecord 7].
Proof. vm_compute. repeat split; reflexivity. Qed.

(** Its wrappers schedule whatever the state of the root, and hand the
    script's own callback to the real window. *)
Lemma earlier_schedule_unguarded (k : timer_kind) (cb : program)
  (sb : sandbox) :
  fst (Earlier.instrumented_schedule k cb sb) = next_handle (win sb)
  /\ In (mkTimer (next_handle (win sb)) k cb false)
        (timers (win (snd (Earlier.instrumented_schedule k cb sb)))).
Proof.
  unfold Earlier.instrumented_schedule. simpl. split; [reflexivity|].
  apply in_or_app. right. left. reflexivity.
Qed.

(** In its runner a timer function called by its bare name is the real
    one. *)
Lemma earlier_bare_timers_are_real (w : window) :
  Earlier.bare_binding w "setTimeout" = Real
  /\ Earlier.bare_binding w "setInterval" = Real
  /\ Earlier.bare_binding w "requestAnimationFrame" = Real.
Proof. repeat split. Qed.

(* ================================================================== *)
(** * The loop of [injectHtml] and [transform] *)
(* ================================================================== *)

Section Uninterrupted.

Variable P : platform.
Variable net : string -> net_outcome.

Lemma after_inject_ext (tk tk' : task) (baseUrl : URLrec)
  (r : state * inject_outcome) :
  tk_slug tk' = tk_slug tk -> tk_entryPoint tk' = tk_entryPoint tk ->
  tk_ticket tk' = tk_ticket tk ->
  after_inject tk' baseUrl r = after_inject tk baseUrl r.
Proof.
  intros Hs He Ht. unfold after_inject, load_catch. rewrite Hs, He, Ht.
  reflexivity.
Qed.

(** Deliveries to the suspended load take one top-level child to the end of
    its clone. *)
Lemma clone_deliveries (tk : task) (baseUrl : URLrec) (rest : list node) :
  (forall b s, exists es,
      forallb is_delivery es = true
      /\ run P (after_inject tk baseUrl
                  (inject_nodes P (tk_ticket tk) baseUrl rest b s)) es
         = after_inject tk baseUrl
             (inject_to_end P net (tk_ticket tk) baseUrl rest b s)) ->
  forall m s, exists es,
    forallb is_delivery es = true
    /\ run P (after_inject tk baseUrl
                (clone_step (inject_nodes P (tk_ticket tk) baseUrl rest)
                   m rest s)) es
       = after_inject tk baseUrl
           (clone_to_end net (inject_to_end P net (tk_ticket tk) baseUrl rest)
              m rest s).
Proof.
  intros Hrest m. induction m as [res|e|url k IHk]; intros s.
  - cbn [clone_step clone_to_end]. apply Hrest.
  - exists []. split; reflexivity.
  - destruct (IHk (settle (net url)) (issue (mkRequest url None) s))
      as (es & Hd & Hrun).
    exists (Deliver (List.length (pending s)) (net url) :: es).
    split; [exact Hd|].
    cbn [clone_to_end]. rewrite <- Hrun. unfold run. cbn [fold_left step].
    f_equal. cbn [clone_step].
    set (tk' := mkTask (tk_slug tk) (tk_entryPoint tk) (tk_ticket tk)
                       (AtClone baseUrl k rest)).
    rewrite (deliver_last P (net url)
               (after_inject tk baseUrl
                  (issue (mkRequest url None) s, Suspended url k rest))
               (pending s) tk' baseUrl k rest eq_refl eq_refl).
    unfold resume_clone.
    apply (after_inject_ext tk tk'); reflexivity.
Qed.

(** Deliveries take the loop to its end. *)
Lemma inject_deliveries (tk : task) (baseUrl : URLrec) (nodes : list node) :
  forall b s, exists es,
    forallb is_delivery es = true
    /\ run P (after_inject tk baseUrl
                (inject_nodes P (tk_ticket tk) baseUrl nodes b s)) es
       = after_inject tk baseUrl
           (inject_to_end P net (tk_ticket tk) baseUrl nodes b s).
Proof.
  induction nodes as [|child rest IH]; intros b s;
    cbn [inject_nodes inject_to_end].
  - exists []. split; reflexivity.
  - destruct (negb (ticket s =? tk_ticket tk)%Z);
      [exists []; split; reflexivity|].
    apply clone_deliveries. exact IH.
Qed.

Lemma grown_by_nil (s : state) : grown_by [] s s.
Proof. repeat split. Qed.

Lemma grown_by_issue (out : list node) (r : request) (s s' : state) :
  grown_by out (issue r s) s' -> grown_by out s s'.
Proof. intros H. exact H. Qed.

Lemma grown_by_cons (c : node) (out : list node) (s s' : state) :
  grown_by out (with_box (appendChild c) s) s' -> grown_by (c :: out) s s'.
Proof. intros H. exact H. Qed.

(** The loop run to its end hands the executor the bucket [transform]
    computes, with the nodes [transform] returns appended to the root. *)
Lemma inject_to_end_transform (ct : Z) (baseUrl : URLrec) (nodes : list node) :
  forall bucket s,
    ticket s = ct ->
    match run_async (fun url => settle (net url))
            (transform P baseUrl nodes bucket) with
    | Ok res =>
        exists s',
          inject_to_end P net ct baseUrl nodes bucket s
          = finish_inject P ct (snd res) s'
          /\ grown_by (fst res) s s'
    | Throw e => snd (inject_to_end P net ct baseUrl nodes bucket s) = Thrown e
    end.
Proof.
  induction nodes as [|child rest IH]; intros bucket s Ht;
    cbn [transform inject_to_end].
  - simpl. exists s. split; [reflexivity|apply grown_by_nil].
  - replace (negb (ticket s =? ct)%Z) with false
      by (symmetry; apply negb_false_iff, Z.eqb_eq; exact Ht).
    generalize (cloneNodeTree P baseUrl child bucket). intros m.
    revert s Ht. induction m as [res|e|url k IHk]; intros s Ht.
    + cbn [abind clone_to_end clone_step]. rewrite run_async_bind.
      set (s1 := match fst res with
                 | Some cloned => with_box (appendChild cloned) s
                 | None => s
                 end).
      assert (Ht1 : ticket s1 = ct)
        by (subst s1; destruct (fst res); exact Ht).
      specialize (IH (snd res) s1 Ht1).
      destruct (run_async (fun url => settle (net url))
                  (transform P baseUrl rest (snd res))) as [[more b']|e];
        cbn [rbind run_async fst snd] in *; [|exact IH].
      destruct IH as (s' & E & G). exists s'. split; [exact E|].
      subst s1. destruct (fst res) as [c|]; [apply grown_by_cons|]; exact G.
    + simpl. reflexivity.
    + cbn [abind run_async clone_to_end].
      specialize (IHk (settle (net url)) (issue (mkRequest url None) s) Ht).
      destruct (run_async (fun url0 => settle (net url0))
                  (abind (k (settle (net url)))
                     (fun res =>
                        abind (transform P baseUrl rest (snd res))
                          (fun more =>
                             Return
                               (match fst res with
                                | Some cloned => cloned :: fst more
                                | None => fst more
                                end, snd more))))) as [res|e];
        [|exact IHk].
      destruct IHk as (s' & E & G). exists s'. split; [exact E|].
      apply (grown_by_issue _ (mkRequest url None)). exact G.
Qed.

(** X20.  A load no newer ticket interrupts: when [transform] returns the
    nodes [out] and the bucket [bucket] under the answers of [net], there
    is a finite sequence of deliveries after which the emptied root has
    grown by exactly [out], and the executor has been handed [bucket]. *)
Lemma uninterrupted_load (tk : task) (baseUrl : URLrec) (html : string)
  (s : state) (out : list node) (bucket : list ScriptUnit) :
  host_value s = true -> ticket s = tk_ticket tk ->
  run_async (fun url => settle (net url))
    (transform P baseUrl (parseFromString P html) []) = Ok (out, bucket) ->
  exists es s',
    forallb is_delivery es = true
    /\ run P (after_inject tk baseUrl
                (injectHtml P html baseUrl (tk_ticket tk) s)) es
       = after_inject tk baseUrl (finish_inject P (tk_ticket tk) bucket s')
    /\ grown_by out (with_box (inject_begin (tk_ticket tk)) s) s'.
Proof.
  intros Hh Ht Hrun. unfold injectHtml. rewrite Hh. cbn [negb]. cbv zeta.
  set (s0 := with_box (inject_begin (tk_ticket tk)) s).
  destruct (inject_deliveries tk baseUrl (parseFromString P html) [] s0)
    as (es & Hd & Hes).
  pose proof (inject_to_end_transform (tk_ticket tk) baseUrl
                (parseFromString P html) [] s0 Ht) as H.
  rewrite Hrun in H. destruct H as (s' & E & G). cbn [fst snd] in *.
  exists es, s'. split; [exact Hd|]. split; [|exact G].
  rewrite Hes, E. reflexivity.
Qed.

End Uninterrupted.

Lemma uninterrupted_load_witness :
  exists es s',
    forallb is_delivery es = true
    /\ run demo_platform
         (after_inject demo_task demo_base
            (injectHtml demo_platform "<three scripts>" demo_base
               (tk_ticket demo_task) loading_state)) es
       = after_inject demo_task demo_base
           (finish_inject demo_platform (tk_ticket demo_task)
              recorder_bucket s')
    /\ grown_by [] (with_box (inject_begin (tk_ticket demo_task)) loading_state)
         s'.
Proof.
  assert (H : run_async (fun url => settle (NetResponse 200 "rec(2)"))
                (transform demo_platform demo_base
                   (parseFromString demo_platform "<three scripts>") [])
              = Ok ([], recorder_bucket))
    by (vm_compute; reflexivity).
  exact (uninterrupted_load demo_platform (fun _ => NetResponse 200 "rec(2)")
           demo_task demo_base "<three scripts>" loading_state []
           recorder_bucket eq_refl eq_refl H).
Defined.

(* ================================================================== *)
(** * The loader at its edges *)
(* ================================================================== *)

(** X1.  A descriptor with a slug and no entry point takes the next ticket
    and goes straight to [loaded] with the [empty] mark; no request is
    issued, none is aborted (a fetch in flight stays in flight) and no load
    is started; the root is cleared the way [clearShadow] does when the host
    is mounted with a shadow root, and left as it is otherwise. *)
Theorem missing_entry_point_loads_empty
  (P : platform) (s : state) (slug : string) :
  life s <> Unmounted -> JS.truthy slug = true ->
  let s' := step P s (Observe slug EmptyString) in
  ticket s' = (ticket s + 1)%Z
  /\ emitted s'
     = emitted s ++ [(Loaded, mkPayload slug EmptyString (ticket s + 1) None true)]
  /\ requests s' = requests s
  /\ pending s' = pending s
  /\ aborted s' = aborted s
  /\ activeController s' = activeController s
  /\ box s'
     = if host_value s && attached (root (box s))
       then clear_shadow (box s) else box s.
Proof.
  intros HL Hs.
  assert (E : step P s (Observe slug EmptyString)
              = watch_project slug EmptyString s)
    by (cbn [step]; destruct (life s); [reflexivity|reflexivity|contradiction]).
  cbv zeta. rewrite E. clear E.
  unfold watch_project. rewrite Hs. cbn [negb JS.truthy String.eqb].
  assert (Hh : host_value (set_ticket (ticket s + 1) s) = host_value s)
    by reflexivity.
  unfold clearShadow. rewrite Hh. cbn [set_ticket box].
  destruct (host_value s && attached (root (box s))); repeat split.
Qed.

Lemma missing_entry_point_loads_empty_witness :
  let s' := step (Std.platform_of [] []) (initial true)
              (Observe "demo" EmptyString) in
  ticket s' = 1%Z
  /\ emitted s' = [(Loaded, mkPayload "demo" EmptyString 1 None true)]
  /\ requests s' = [] /\ pending s' = [] /\ aborted s' = []
  /\ activeController s' = None
  /\ box s' = box (initial true).
Proof.
  apply (missing_entry_point_loads_empty (Std.platform_of [] []) (initial true)
           "demo"); [discriminate|reflexivity].
Defined.

(** X3.  When the fetch of the entry document fails for the load that holds
    the current ticket (the network fails, the status is not a success, or
    the entry point does not parse as a URL), the load ends in [error] with
    the failure's message, after the root has been cleared by [clearShadow];
    nothing is requested and nothing is parsed.  For a load that has been
    overtaken the failure changes nothing. *)
Theorem entry_failure_reports_error
  (P : platform) (s : state) (i : nat) (tk : task) (c : Z) :
  nth_error (pending s) i = Some tk -> tk_point tk = AtEntry c ->
  existsb (Z.eqb c) (aborted s) = false ->
  let s0 := set_pending (remove_nth i (pending s)) s in
  let fails := fun message =>
    if (ticket s =? tk_ticket tk)%Z
    then emit Failed
           (mkPayload (tk_slug tk) (tk_entryPoint tk) (tk_ticket tk)
                      (Some message) false)
           (clearShadow s0)
    else s0 in
  (forall message, deliver P i (NetFailure message) s = fails message)
  /\ (forall status body,
        response_ok status = false ->
        deliver P i (NetResponse status body) s
        = fails ("Unable to load project asset ("
                   ++ JS.string_of_Z status ++ ")")%string)
  /\ (forall status body,
        response_ok status = true ->
        URL_ P (tk_entryPoint tk) (location_origin P) = None ->
        deliver P i (NetResponse status body) s = fails "Invalid URL").
Proof.
  intros Hn Hp Ha s0 fails. unfold deliver. rewrite Hn, Hp, Ha.
  fold s0. cbn [settle resume_entry].
  assert (Hc : forall name message,
            (name =? "AbortError")%string = false ->
            load_catch tk (mkError name message) s0 = fails message).
  { intros name message Hname. unfold load_catch. cbn [err_name err_message].
    rewrite Hname. reflexivity. }
  split; [|split].
  - intros message. apply Hc. reflexivity.
  - intros status body Hs. rewrite Hs. cbn [negb]. apply Hc. reflexivity.
  - intros status body Hs Hu. rewrite Hs, Hu. cbn [negb]. apply Hc. reflexivity.
Qed.

Lemma entry_failure_reports_error_witness :
  map (fun ev => (fst ev, p_error (snd ev)))
      (emitted (deliver timer_platform 0 (NetResponse 404 EmptyString)
                  entry_pending))
  = [(Loading, None); (Failed, Some "Unable to load project asset (404)")].
Proof.
  assert (Hn : nth_error (pending entry_pending) 0 = Some demo_task)
    by (vm_compute; reflexivity).
  assert (Ha : existsb (Z.eqb 1) (aborted entry_pending) = false)
    by (vm_compute; reflexivity).
  pose proof (entry_failure_reports_error timer_platform entry_pending 0
                demo_task 1 Hn eq_refl Ha) as H.
  cbv zeta in H. destruct H as (_ & H & _).
  rewrite (H 404%Z EmptyString eq_refl). vm_compute. reflexivity.
Defined.

(** ** Controllers *)

Lemma same_controllers_refl (s : state) : same_controllers s s.
Proof. repeat split. Qed.

Lemma same_controllers_trans (s1 s2 s3 : state) :
  same_controllers s1 s2 -> same_controllers s2 s3 -> same_controllers s1 s3.
Proof. unfold same_controllers. intuition congruence. Qed.

Lemma same_loader_controllers (s s' : state) :
  same_loader s s' -> same_controllers s s'.
Proof. intros (_ & C & N & A & _). repeat split; assumption. Qed.

Lemma same_loader_clone_step
  (continue : list ScriptUnit -> state -> state * inject_outcome)
  (m : Async (option node * list ScriptUnit)) (rest : list node) (s : state) :
  (forall b s', same_loader s' (fst (continue b s'))) ->
  same_loader s (fst (clone_step continue m rest s)).
Proof.
  intros Hc. destruct m as [[[c|] b]|e|url k]; cbn [clone_step fst].
  - eapply same_loader_trans; [apply same_loader_box|apply Hc].
  - apply Hc.
  - apply same_loader_refl.
  - apply same_loader_issue.
Qed.

Lemma In_remove_nth {A : Type} (a : A) (l : list A) :
  forall i, In a (remove_nth i l) -> In a l.
Proof.
  induction l as [|b l IH]; intros [|i] H; simpl in *; auto.
  destruct H as [H|H]; eauto.
Qed.

Section Controllers.

Variable P : platform.

(** Resuming a suspended load leaves the controllers alone; what it leaves
    suspended was suspended before, or waits inside [cloneNodeTree]. *)
Lemma after_inject_frame (tk : task) (baseUrl : URLrec) (s : state)
  (r : state * inject_outcome) :
  same_loader s (fst r) ->
  same_controllers s (after_inject tk baseUrl r)
  /\ life (after_inject tk baseUrl r) = life s
  /\ forall tk', In tk' (pending (after_inject tk baseUrl r)) ->
       In tk' (pending s)
       \/ exists b k rest, tk_point tk' = AtClone b k rest.
Proof.
  intros Hs. pose proof (same_loader_controllers _ _ Hs) as Hc.
  destruct Hs as (_ & _ & _ & _ & L & _ & Pd).
  destruct (after_inject_pending tk baseUrl r) as (_ & Hp).
  split; [|split].
  - eapply same_controllers_trans; [exact Hc|].
    unfold after_inject. destruct (snd r) as [|e|url k rest].
    + destruct (ticket (fst r) =? tk_ticket tk)%Z; repeat split.
    + unfold load_catch.
      destruct (err_name e =? "AbortError")%string; [repeat split|].
      destruct (ticket (fst r) =? tk_ticket tk)%Z; [|repeat split].
      apply (same_controllers_trans _ (clearShadow (fst r)));
        [apply same_loader_controllers, same_loader_clearShadow|repeat split].
    + repeat split.
  - rewrite <- L. unfold after_inject. destruct (snd r) as [|e|url k rest].
    + destruct (ticket (fst r) =? tk_ticket tk)%Z; reflexivity.
    + unfold load_catch.
      destruct (err_name e =? "AbortError")%string; [reflexivity|].
      destruct (ticket (fst r) =? tk_ticket tk)%Z; [|reflexivity].
      apply (same_loader_clearShadow (fst r)).
    + reflexivity.
  - intros tk' Hin. destruct (snd r) as [|e|url k rest];
      rewrite Hp in Hin; try (left; rewrite <- Pd; exact Hin).
    apply in_app_or in Hin as [Hin|[<-|[]]].
    + left. rewrite <- Pd. exact Hin.
    + right. exists baseUrl, k, rest. reflexivity.
Qed.

Lemma load_catch_frame (tk : task) (e : js_error) (s : state) :
  same_controllers s (load_catch tk e s)
  /\ life (load_catch tk e s) = life s
  /\ pending (load_catch tk e s) = pending s.
Proof.
  destruct (load_catch_pending tk e s) as (_ & Pd).
  split; [|split; [|exact Pd]]; unfold load_catch;
    destruct (err_name e =? "AbortError")%string;
    try (repeat split; fail);
    destruct (ticket s =? tk_ticket tk)%Z; try (repeat split; fail).
  - apply (same_controllers_trans _ (clearShadow s));
      [apply same_loader_controllers, same_loader_clearShadow|repeat split].
  - apply (same_loader_clearShadow s).
Qed.

Lemma deliver_frame (i : nat) (o : net_outcome) (s : state) :
  same_controllers s (deliver P i o s)
  /\ life (deliver P i o s) = life s
  /\ forall tk', In tk' (pending (deliver P i o s)) ->
       In tk' (pending s)
       \/ exists b k rest, tk_point tk' = AtClone b k rest.
Proof.
  unfold deliver. destruct (nth_error (pending s) i) as [tk|] eqn:E;
    [|split; [apply same_controllers_refl|split; [reflexivity|auto]]].
  set (s0 := set_pending (remove_nth i (pending s)) s).
  assert (Hsub : forall tk', In tk' (pending s0) -> In tk' (pending s)).
  { intros tk'. apply In_remove_nth. }
  assert (Hwrap : forall s',
            same_controllers s0 s' /\ life s' = life s0
            /\ (forall tk', In tk' (pending s') ->
                  In tk' (pending s0)
                  \/ exists b k rest, tk_point tk' = AtClone b k rest) ->
            same_controllers s s' /\ life s' = life s
            /\ (forall tk', In tk' (pending s') ->
                  In tk' (pending s)
                  \/ exists b k rest, tk_point tk' = AtClone b k rest)).
  { intros s' (Hc & Hl & Hp). split; [exact Hc|]. split; [exact Hl|].
    intros tk' Hin. destruct (Hp tk' Hin) as [H|H]; auto. }
  assert (Hcatch : forall e,
            same_controllers s0 (load_catch tk e s0)
            /\ life (load_catch tk e s0) = life s0
            /\ (forall tk', In tk' (pending (load_catch tk e s0)) ->
                  In tk' (pending s0)
                  \/ exists b k rest, tk_point tk' = AtClone b k rest)).
  { intros e. destruct (load_catch_frame tk e s0) as (Hc & Hl & Hp).
    split; [exact Hc|]. split; [exact Hl|]. intros tk' Hin.
    left. rewrite <- Hp. exact Hin. }
  apply Hwrap. destruct (tk_point tk) as [c|baseUrl k rest].
  - unfold resume_entry.
    destruct (if existsb (Z.eqb c) (aborted s) then Rejected AbortError_
              else settle o) as [status html|e]; [|apply Hcatch].
    destruct (negb (response_ok status)); [apply Hcatch|].
    destruct (URL_ P (tk_entryPoint tk) (location_origin P)) as [b|];
      [|apply Hcatch].
    apply after_inject_frame. apply injectHtml_clean.
  - unfold resume_clone. apply after_inject_frame.
    apply same_loader_clone_step. intros b s'. apply inject_nodes_clean.
Qed.

Lemma tracked_weaken (s s' : state) (tk : task) :
  (next_controller s <= next_controller s')%Z ->
  (forall c, activeController s = Some c ->
             activeController s' = Some c
             \/ existsb (Z.eqb c) (aborted s') = true) ->
  (forall c, existsb (Z.eqb c) (aborted s) = true ->
             existsb (Z.eqb c) (aborted s') = true) ->
  entry_fetch_tracked s tk -> entry_fetch_tracked s' tk.
Proof.
  unfold entry_fetch_tracked. intros Hn Hact Hab.
  destruct (tk_point tk) as [c|b k rest]; [|auto].
  intros (Hlt & [H|H]); (split; [lia|]); auto.
Qed.

Lemma existsb_app_last (c c' : Z) (l : list Z) :
  existsb (Z.eqb c) (l ++ [c'])
  = existsb (Z.eqb c) l || (c =? c')%Z.
Proof. rewrite existsb_app. simpl. rewrite orb_false_r. reflexivity. Qed.

Lemma tracked_superseding (s s' : state) (l : list task) :
  (next_controller s <= next_controller s')%Z ->
  aborted s'
  = match activeController s with
    | Some c0 => aborted s ++ [c0]
    | None => aborted s
    end ->
  Forall (entry_fetch_tracked s) l -> Forall (entry_fetch_tracked s') l.
Proof.
  intros Hn Ha H. eapply Forall_impl; [|exact H]. intros tk.
  unfold entry_fetch_tracked. destruct (tk_point tk) as [c|b k rest]; auto.
  intros (Hlt & Hc). split; [lia|]. right. rewrite Ha.
  destruct (activeController s) as [c0|].
  - rewrite existsb_app_last. destruct Hc as [Hc|Hc].
    + injection Hc as ->. rewrite Z.eqb_refl. apply orb_true_r.
    + rewrite Hc. reflexivity.
  - destruct Hc as [Hc|Hc]; [discriminate|exact Hc].
Qed.

Lemma tracked_ext (s s' : state) (l : list task) :
  same_controllers s s' ->
  Forall (entry_fetch_tracked s) l -> Forall (entry_fetch_tracked s') l.
Proof.
  intros (C & N & A) H. eapply Forall_impl; [|exact H]. intros tk.
  apply tracked_weaken; rewrite ?C, ?N, ?A; auto; lia.
Qed.

Lemma tracked_same (s s' : state) :
  same_controllers s s' -> life s' = life s -> pending s' = pending s ->
  controllers_tracked s -> controllers_tracked s'.
Proof.
  intros Hc L Pd (H1 & H2 & H3). pose proof Hc as (C & N & A).
  unfold controllers_tracked. rewrite C, N, L, Pd.
  split; [|split; assumption]. revert H1. apply tracked_ext. exact Hc.
Qed.

Lemma tracked_loadProject (slug entryPoint : string) (ct : Z) (s : state) :
  life s <> Unmounted -> controllers_tracked s ->
  controllers_tracked (loadProject slug entryPoint ct s).
Proof.
  intros HL (H1 & H2 & H3). unfold loadProject. cbv zeta.
  set (s1 := match activeController s with
             | Some c => set_aborted (aborted s ++ [c]) s
             | None => s
             end).
  assert (E1 : next_controller s1 = next_controller s
               /\ pending s1 = pending s /\ life s1 = life s
               /\ aborted s1 = match activeController s with
                               | Some c0 => aborted s ++ [c0]
                               | None => aborted s
                               end)
    by (subst s1; destruct (activeController s); repeat split).
  destruct E1 as (N1 & P1 & L1 & A1). clearbody s1.
  unfold controllers_tracked.
  cbn [set_pending issue emit new_controller pending activeController
       next_controller life].
  rewrite N1, P1, L1. split; [|split; [lia|intros HU; contradiction]].
  apply Forall_app. split.
  - revert H1. apply tracked_superseding;
      cbn [set_pending issue emit new_controller next_controller aborted];
      [lia|exact A1].
  - constructor; [|constructor]. unfold entry_fetch_tracked.
    cbn [tk_point set_pending issue emit new_controller activeController
         next_controller].
    rewrite ?N1. split; [lia|left; reflexivity].
Qed.

Lemma tracked_fresh_ticket (t : Z) (s : state) :
  controllers_tracked s -> controllers_tracked (set_ticket t s).
Proof. apply tracked_same; repeat split. Qed.

Lemma tracked_clearShadow (s : state) :
  controllers_tracked s -> controllers_tracked (clearShadow s).
Proof.
  destruct (same_loader_clearShadow s) as (T & C & N & A & L & E & Pd).
  apply tracked_same; [repeat split; assumption|exact L|exact Pd].
Qed.

Lemma tracked_watch_project (slug entryPoint : string) (s : state) :
  life s <> Unmounted -> controllers_tracked s ->
  controllers_tracked (watch_project slug entryPoint s).
Proof.
  intros HL H. unfold watch_project. cbv zeta.
  apply (tracked_fresh_ticket (ticket s + 1)) in H.
  destruct (negb (JS.truthy slug)); [|destruct (negb (JS.truthy entryPoint))].
  - apply tracked_clearShadow in H. revert H.
    apply tracked_same; repeat split.
  - apply tracked_clearShadow in H. revert H.
    apply tracked_same; repeat split.
  - apply tracked_loadProject; [exact HL|exact H].
Qed.

Lemma tracked_unmount (s : state) :
  controllers_tracked s ->
  controllers_tracked (set_life Unmounted (onBeforeUnmount s)).
Proof.
  intros H. unfold onBeforeUnmount. cbv zeta.
  apply (tracked_fresh_ticket (ticket s + 1)) in H.
  apply tracked_clearShadow in H.
  set (s2 := clearShadow (set_ticket (ticket s + 1) s)) in *. clearbody s2.
  destruct H as (H1 & H2 & H3). unfold controllers_tracked.
  assert (E : activeController
                (set_life Unmounted
                   (with_box disableDprSizer
                      match activeController s2 with
                      | Some c =>
                          set_controller None
                            (set_aborted (aborted s2 ++ [c]) s2)
                      | None => s2
                      end)) = None)
    by (destruct (activeController s2) eqn:Ec; [reflexivity|exact Ec]).
  rewrite E. split; [|split; [exact I|reflexivity]].
  assert (Pd : pending
                 (set_life Unmounted
                    (with_box disableDprSizer
                       match activeController s2 with
                       | Some c =>
                           set_controller None
                             (set_aborted (aborted s2 ++ [c]) s2)
                       | None => s2
                       end)) = pending s2)
    by (destruct (activeController s2); reflexivity).
  rewrite Pd. revert H1. apply tracked_superseding;
    destruct (activeController s2); cbn; (reflexivity || lia).
Qed.

Lemma tracked_step (s : state) (e : event) :
  controllers_tracked s -> controllers_tracked (step P s e).
Proof.
  intros H. destruct e; cbn [step].
  - destruct (life s) eqn:L; try exact H.
    destruct H as (H1 & H2 & H3). split; [|split].
    + revert H1. apply tracked_ext. repeat split.
    + exact H2.
    + discriminate.
  - destruct (life s) eqn:L; try exact H;
      (apply tracked_watch_project; [rewrite L; discriminate|exact H]).
  - destruct (life s) eqn:L; try exact H;
      (destruct (Bool.eqb next (fullscreen s)); [exact H|];
       unfold watch_fullscreen; destruct next;
       [destruct (same_loader_enableDprSizer (set_fullscreen true s))
          as (_ & C & N & A & LL & _ & Pd);
        revert H; apply tracked_same;
        [repeat split; assumption|exact LL|exact Pd]
       |revert H; apply tracked_same; repeat split]).
  - destruct (life s); try (apply tracked_unmount; exact H). exact H.
  - destruct (deliver_frame i o s) as ((C & N & A) & L & Hp).
    destruct H as (H1 & H2 & H3).
    unfold controllers_tracked. rewrite C, N, L.
    split; [|split; assumption].
    apply Forall_forall. intros tk Hin.
    destruct (Hp tk Hin) as [Hold|(b & k & rest & Hk)].
    + rewrite Forall_forall in H1. specialize (H1 tk Hold). revert H1.
      apply tracked_weaken; rewrite ?C, ?N, ?A; auto; lia.
    + unfold entry_fetch_tracked. rewrite Hk. exact I.
  - revert H. apply tracked_same; repeat split.
  - revert H. apply tracked_same; repeat split.
  - revert H. apply tracked_same; repeat split.
Qed.

Lemma tracked_reachable (ro : bool) (es : list event) :
  controllers_tracked (run P (initial ro) es).
Proof.
  unfold run. rewrite <- (rev_involutive es).
  induction (rev es) as [|e res IH]; simpl.
  - split; [constructor|split; [exact I|discriminate]].
  - rewrite fold_left_app. cbn [fold_left]. apply tracked_step. exact IH.
Qed.

End Controllers.

(** X2.  In every state the component reaches, the fetch of an entry
    document that is not the active controller's has been aborted, and its
    answer, whatever it is, only takes the load off the queue: no event, no
    request, nothing done to the root.  Once the component is unmounted
    there is no active controller, so this holds of every entry fetch. *)
Theorem superseded_entry_fetch_is_silent
  (P : platform) (ro : bool) (es : list event)
  (i : nat) (tk : task) (c : Z) (o : net_outcome) :
  let s := run P (initial ro) es in
  nth_error (pending s) i = Some tk -> tk_point tk = AtEntry c ->
  activeController s <> Some c \/ life s = Unmounted ->
  existsb (Z.eqb c) (aborted s) = true
  /\ step P s (Deliver i o) = set_pending (remove_nth i (pending s)) s.
Proof.
  intros s Hn Hp Hc.
  destruct (tracked_reachable P ro es) as (H1 & _ & H3). fold s in H1, H3.
  rewrite Forall_forall in H1.
  pose proof (H1 tk (nth_error_In _ _ Hn)) as Ht.
  unfold entry_fetch_tracked in Ht. rewrite Hp in Ht.
  assert (Ha : existsb (Z.eqb c) (aborted s) = true).
  { destruct Ht as (_ & [Hact|Hab]); [|exact Hab].
    destruct Hc as [Hc|Hc]; [contradiction|].
    rewrite (H3 Hc) in Hact. discriminate. }
  split; [exact Ha|].
  cbn [step]. unfold deliver. rewrite Hn, Hp, Ha.
  cbn [resume_entry]. unfold load_catch. reflexivity.
Qed.

Lemma superseded_entry_fetch_is_silent_witness :
  existsb (Z.eqb 1) (aborted (run race_platform (initial true) two_loads)) = true
  /\ step race_platform (run race_platform (initial true) two_loads)
       (Deliver 0 (NetResponse 200 "<a>"))
     = set_pending
         (remove_nth 0 (pending (run race_platform (initial true) two_loads)))
         (run race_platform (initial true) two_loads).
Proof.
  assert (Hn : nth_error (pending (run race_platform (initial true) two_loads)) 0
               = Some (mkTask "demo" "/projects/demo/a.html" 1 (AtEntry 1)))
    by (vm_compute; reflexivity).
  assert (Hc : activeController (run race_platform (initial true) two_loads)
               <> Some 1%Z) by (vm_compute; discriminate).
  exact (superseded_entry_fetch_is_silent race_platform true two_loads 0
           (mkTask "demo" "/projects/demo/a.html" 1 (AtEntry 1)) 1
           (NetResponse 200 "<a>") Hn eq_refl (or_introl Hc)).
Defined.

(** ** Documents without external scripts *)

Lemma not_waiting_bind {A B : Type} (m : Async A) (f : A -> Async B) :
  not_waiting m -> (forall a, not_waiting (f a)) -> not_waiting (abind m f).
Proof. destruct m as [a|e|url k]; simpl; auto. Qed.

Lemma not_waiting_lift {A : Type} (r : result A) : not_waiting (lift_result r).
Proof. destruct r; exact I. Qed.

Section Inline.

Variable P : platform.
Variable baseUrl : URLrec.

Lemma clone_script_inline (attrs : list (string * string)) (inline : string)
  (bucket : list ScriptUnit) :
  attr_truthy (getAttribute attrs "src") = false ->
  not_waiting (clone_script P baseUrl attrs inline bucket).
Proof.
  intros H. unfold clone_script. destruct (script_dropped attrs); [exact I|].
  destruct (getAttribute attrs "src") as [src|]; [|exact I].
  simpl in H. rewrite H. exact I.
Qed.

Lemma clone_children_inline (tag : string) (element : list (string * string))
  (kids : list node) :
  Forall (fun k => forall b, not_waiting (cloneNodeTree P baseUrl k b)) kids ->
  forall appended bucket,
    not_waiting (clone_children (cloneNodeTree P baseUrl) tag element kids
                   appended bucket).
Proof.
  intros HF. induction HF as [|k kids Hk HF IH]; intros appended bucket;
    cbn [clone_children]; [exact I|].
  apply not_waiting_bind; [apply Hk|].
  intros [[c|] b]; cbn [fst snd]; apply IH.
Qed.

Lemma cloneNodeTree_inline (n : node) :
  no_script_src n = true ->
  forall bucket, not_waiting (cloneNodeTree P baseUrl n bucket).
Proof.
  induction n as [d|t d|tagName attrs kids IH] using node_forall_ind;
    intros Hn bucket; try exact I.
  cbn [no_script_src] in Hn. apply andb_prop in Hn as [Hs Hk].
  cbn [cloneNodeTree]. destruct (tagName =? "SCRIPT")%string.
  - apply clone_script_inline. cbn [andb] in Hs.
    apply negb_true_iff in Hs. exact Hs.
  - destruct (is_stylesheet_link tagName attrs).
    + apply not_waiting_bind; [apply not_waiting_lift|]. intros link. exact I.
    + apply not_waiting_bind; [apply not_waiting_lift|]. intros element.
      apply clone_children_inline.
      rewrite forallb_forall in Hk. rewrite Forall_forall in *.
      intros k Hin. apply IH; auto.
Qed.

End Inline.

Lemma requests_clearShadow (s : state) : requests (clearShadow s) = requests s.
Proof.
  unfold clearShadow. destruct (host_value s && attached (root (box s)));
    reflexivity.
Qed.

Lemma requests_enableDprSizer (s : state) :
  requests (enableDprSizer s) = requests s.
Proof.
  unfold enableDprSizer.
  destruct (negb (host_value s && attached (root (box s)))); [reflexivity|].
  destruct (dprSizer (box s)); reflexivity.
Qed.

Section InlineLoad.

Variable P : platform.

Lemma finish_inject_requests (ct : Z) (bucket : list ScriptUnit) (s : state) :
  requests (fst (finish_inject P ct bucket s)) = requests s.
Proof.
  unfold finish_inject. destruct (negb (ticket s =? ct)%Z); [reflexivity|].
  destruct (snd (run_scripts P (ticket s) ct 0 bucket (box s)));
    cbn [fst]; [reflexivity|].
  cbn [with_box fullscreen]. destruct (fullscreen s); [|reflexivity].
  rewrite requests_enableDprSizer. reflexivity.
Qed.

(** The loop over a document without external scripts runs to its end
    without a request. *)
Lemma inject_nodes_inline (ct : Z) (baseUrl : URLrec) (nodes : list node) :
  forallb no_script_src nodes = true ->
  forall bucket s,
    requests (fst (inject_nodes P ct baseUrl nodes bucket s)) = requests s
    /\ forall url k rest,
         snd (inject_nodes P ct baseUrl nodes bucket s) <> Suspended url k rest.
Proof.
  induction nodes as [|child rest IH]; intros Hn bucket s; cbn [inject_nodes].
  - split; [apply finish_inject_requests|].
    intros url k rest. apply finish_inject_returns.
  - cbn [forallb] in Hn. apply andb_prop in Hn as [Hc Hr].
    destruct (negb (ticket s =? ct)%Z); [split; [reflexivity|discriminate]|].
    pose proof (cloneNodeTree_inline P baseUrl child Hc bucket) as Hw.
    destruct (cloneNodeTree P baseUrl child bucket) as [res|e|url k];
      cbn [clone_step]; [|split; [reflexivity|discriminate]|destruct Hw].
    destruct (IH Hr (snd res)
                match fst res with
                | Some cloned => with_box (appendChild cloned) s
                | None => s
                end) as [Hq Hs].
    split; [|exact Hs]. rewrite Hq. destruct (fst res); reflexivity.
Qed.

End InlineLoad.

(** X4.  A document without external scripts (no script element with a
    non-empty [src]) is loaded in one piece: when its text arrives for the
    load that holds the current ticket, the load leaves the queue, no
    request is issued, and exactly one event is emitted, [loaded] or
    [error], with the load's slug, entry point and ticket. *)
Theorem inline_document_settles_at_once
  (P : platform) (s : state) (i : nat) (tk : task) (c : Z)
  (status : Z) (html : string) :
  nth_error (pending s) i = Some tk -> tk_point tk = AtEntry c ->
  existsb (Z.eqb c) (aborted s) = false ->
  tk_ticket tk = ticket s -> response_ok status = true ->
  forallb no_script_src (parseFromString P html) = true ->
  let s' := step P s (Deliver i (NetResponse status html)) in
  pending s' = remove_nth i (pending s)
  /\ requests s' = requests s
  /\ ticket s' = ticket s
  /\ exists l p,
       emitted s' = emitted s ++ [(l, p)]
       /\ settled l = true
       /\ p_slug p = tk_slug tk /\ p_entryPoint p = tk_entryPoint tk
       /\ p_ticket p = ticket s.
Proof.
  intros Hn Hp Ha Ht Hok Hdoc. cbv zeta. cbn [step]. unfold deliver.
  rewrite Hn, Hp, Ha. cbn [settle resume_entry]. rewrite Hok. cbn [negb].
  set (s0 := set_pending (remove_nth i (pending s)) s).
  assert (Hcatch : forall e s1,
            (err_name e =? "AbortError")%string = false ->
            same_loader s0 s1 -> requests s1 = requests s0 ->
            pending (load_catch tk e s1) = remove_nth i (pending s)
            /\ requests (load_catch tk e s1) = requests s
            /\ ticket (load_catch tk e s1) = ticket s
            /\ exists l p,
                 emitted (load_catch tk e s1) = emitted s ++ [(l, p)]
                 /\ settled l = true
                 /\ p_slug p = tk_slug tk /\ p_entryPoint p = tk_entryPoint tk
                 /\ p_ticket p = ticket s).
  { intros e s1 He (T & _ & _ & _ & _ & E & Pd) Hq. unfold load_catch.
    rewrite He, T. cbn [s0 set_pending ticket]. rewrite Ht, Z.eqb_refl.
    destruct (same_loader_clearShadow s1) as (T' & _ & _ & _ & _ & E' & Pd').
    cbn [emit pending requests ticket emitted].
    rewrite Pd', Pd, requests_clearShadow, Hq, T', T, E', E.
    repeat split. eexists _, _. split; [reflexivity|].
    repeat split; try exact Ht. }
  destruct (URL_ P (tk_entryPoint tk) (location_origin P)) as [b|].
  2:{ apply Hcatch; [reflexivity|apply same_loader_refl|reflexivity]. }
  destruct (injectHtml_clean P html b (tk_ticket tk) s0) as [Hs Ho].
  assert (Hq : requests (fst (injectHtml P html b (tk_ticket tk) s0))
               = requests s0
               /\ forall url k rest,
                    snd (injectHtml P html b (tk_ticket tk) s0)
                    <> Suspended url k rest).
  { unfold injectHtml. destruct (negb (host_value s0));
      [split; [reflexivity|discriminate]|].
    cbv zeta.
    destruct (inject_nodes_inline P (tk_ticket tk) b (parseFromString P html)
                Hdoc [] (with_box (inject_begin (tk_ticket tk)) s0))
      as [Hq Hsus].
    split; [rewrite Hq; reflexivity|exact Hsus]. }
  destruct Hq as [Hq Hsus].
  set (r := injectHtml P html b (tk_ticket tk) s0) in *.
  unfold after_inject. destruct (snd r) as [|e|url k rest] eqn:Er.
  - destruct Hs as (T & _ & _ & _ & _ & E & Pd). rewrite T.
    cbn [s0 set_pending ticket]. rewrite Ht, Z.eqb_refl.
    cbn [emit pending requests ticket emitted]. rewrite Pd, Hq, T, E.
    repeat split. eexists _, _. split; [reflexivity|].
    repeat split; try exact Ht.
  - apply Hcatch; [exact Ho|exact Hs|exact Hq].
  - destruct (Hsus url k rest eq_refl).
Qed.

Lemma inline_document_settles_at_once_witness :
  pending (step timer_platform entry_pending (Deliver 0 (NetResponse 200 "<p>")))
  = remove_nth 0 (pending entry_pending)
  /\ requests (step timer_platform entry_pending (Deliver 0 (NetResponse 200 "<p>")))
     = requests entry_pending
  /\ ticket (step timer_platform entry_pending (Deliver 0 (NetResponse 200 "<p>")))
     = ticket entry_pending
  /\ exists l p,
       emitted (step timer_platform entry_pending
                  (Deliver 0 (NetResponse 200 "<p>")))
       = emitted entry_pending ++ [(l, p)]
       /\ settled l = true
       /\ p_slug p = tk_slug demo_task
       /\ p_entryPoint p = tk_entryPoint demo_task
       /\ p_ticket p = ticket entry_pending.
Proof.
  assert (Hn : nth_error (pending entry_pending) 0 = Some demo_task)
    by (vm_compute; reflexivity).
  assert (Ha : existsb (Z.eqb 1) (aborted entry_pending) = false)
    by (vm_compute; reflexivity).
  assert (Ht : tk_ticket demo_task = ticket entry_pending)
    by (vm_compute; reflexivity).
  assert (Hd : forallb no_script_src (parseFromString timer_platform "<p>")
               = true) by (vm_compute; reflexivity).
  exact (inline_document_settles_at_once timer_platform entry_pending 0
           demo_task 1 200 "<p>" Hn eq_refl Ha Ht eq_refl Hd).
Defined.

(* ================================================================== *)
(** * The transformer on attributes and plain trees *)
(* ================================================================== *)

Section CloneShape.

Variable P : platform.
Variable baseUrl : URLrec.
Variable net : string -> fetch_result.

Lemma clone_children_texts (tag : string) (element : list (string * string))
  (kids : list node) :
  Forall (fun k => forall bucket o b',
            run_async net (cloneNodeTree P baseUrl k bucket) = Ok (Some o, b') ->
            elements_and_texts o = true) kids ->
  forall appended bucket o b',
    forallb elements_and_texts appended = true ->
    run_async net
      (clone_children (cloneNodeTree P baseUrl) tag element kids appended bucket)
    = Ok (Some o, b') ->
    elements_and_texts o = true.
Proof.
  intros HF. induction HF as [|k kids Hk HF IH];
    intros appended bucket o b' Happ Hrun.
  - simpl in Hrun. injection Hrun as <- <-. exact Happ.
  - cbn [clone_children] in Hrun. rewrite run_async_bind in Hrun.
    apply rbind_ok in Hrun as ([oc bk] & Hc & Hrun). cbn [fst snd] in Hrun.
    destruct oc as [c|].
    + apply (IH (appended ++ [c]) bk o b'); [|exact Hrun].
      rewrite forallb_app, Happ. simpl. rewrite (Hk bucket c bk Hc).
      reflexivity.
    + apply (IH appended bk o b'); assumption.
Qed.

End CloneShape.

(** X5.  Whatever the clone of a node is, it holds elements and texts only:
    comments, processing instructions and every other kind of node are left
    out at every depth. *)
Theorem comments_never_rendered
  (P : platform) (baseUrl : URLrec) (net : string -> fetch_result)
  (n : node) (bucket : list ScriptUnit) (o : node) (b' : list ScriptUnit) :
  run_async net (cloneNodeTree P baseUrl n bucket) = Ok (Some o, b') ->
  elements_and_texts o = true.
Proof.
  revert bucket o b'.
  induction n as [d|nt d|tagName attrs kids IH] using node_forall_ind;
    intros bucket o b' Hrun.
  - simpl in Hrun. injection Hrun as <- <-. reflexivity.
  - simpl in Hrun. discriminate.
  - cbn [cloneNodeTree] in Hrun.
    destruct (tagName =? "SCRIPT")%string.
    { apply clone_script_none in Hrun. discriminate. }
    destruct (is_stylesheet_link tagName attrs).
    + rewrite run_async_bind, run_async_lift in Hrun.
      apply rbind_ok in Hrun as (link & _ & Hrun). simpl in Hrun.
      injection Hrun as <- <-. reflexivity.
    + rewrite run_async_bind, run_async_lift in Hrun.
      apply rbind_ok in Hrun as (element & _ & Hrun).
      apply (clone_children_texts P baseUrl net (JS.toLowerCase tagName) element kids IH [] bucket o b');
        [reflexivity|exact Hrun].
Qed.

Lemma comments_never_rendered_witness :
  elements_and_texts (Element "div" [] [Text "kept"]) = true.
Proof.
  apply (comments_never_rendered (Std.platform_of [] []) demo_base
           (fun _ => Rejected AbortError_)
           (Element "DIV" [] [Other 8 "note"; Text "kept"]) []
           (Element "div" [] [Text "kept"]) []).
  reflexivity.
Defined.

(** ** Attributes *)

Lemma ascii_lower_char_idem (c : ascii) :
  ascii_lower_char (ascii_lower_char c) = ascii_lower_char c.
Proof. destruct c as [[] [] [] [] [] [] [] []]; reflexivity. Qed.

Lemma ascii_lowercase_idem (s : string) :
  ascii_lowercase (ascii_lowercase s) = ascii_lowercase s.
Proof.
  induction s as [|c s IH]; cbn [ascii_lowercase]; [reflexivity|].
  rewrite ascii_lower_char_idem, IH. reflexivity.
Qed.

(** The four URL attributes are written in lower case. *)
Lemma url_attribute_lowercase (name : string) :
  is_url_attribute name = true -> ascii_lowercase name = name.
Proof.
  unfold is_url_attribute. intros H.
  repeat (apply orb_prop in H as [H|H]);
    apply String.eqb_eq in H; subst name; reflexivity.
Qed.

Lemma attributeMap_lowercase (tagName : string) (candidates : list string) :
  attributeMap_own tagName = Some candidates ->
  forall c, In c candidates -> ascii_lowercase c = c.
Proof.
  unfold attributeMap_own. intros H c Hin.
  repeat match type of H with
         | (if ?b then _ else _) = _ => destruct b
         end;
    try discriminate; injection H as <-;
    repeat (destruct Hin as [<-|Hin]; [reflexivity|]); destruct Hin.
Qed.

Lemma getAttribute_put_same (attrs : list (string * string)) (n v : string) :
  getAttribute (put_attribute attrs n v) n = Some v.
Proof.
  induction attrs as [|[m w] r IH]; simpl.
  - rewrite String.eqb_refl. reflexivity.
  - destruct (m =? n)%string eqn:E; simpl; rewrite E; [reflexivity|exact IH].
Qed.

Lemma getAttribute_put_other (attrs : list (string * string)) (n v name : string) :
  n <> name ->
  getAttribute (put_attribute attrs n v) name = getAttribute attrs name.
Proof.
  intros Hne. induction attrs as [|[m w] r IH]; simpl.
  - apply String.eqb_neq in Hne. rewrite Hne. reflexivity.
  - destruct (m =? n)%string eqn:E; simpl.
    + apply String.eqb_eq in E. subst m.
      apply String.eqb_neq in Hne. rewrite Hne. reflexivity.
    + rewrite IH. reflexivity.
Qed.

Lemma getAttribute_absent (attrs : list (string * string)) (name : string) :
  existsb (fun a => (fst a =? name)%string) attrs = false ->
  getAttribute attrs name = None.
Proof.
  induction attrs as [|[m w] r IH]; simpl; [reflexivity|].
  intros H. apply orb_false_elim in H as [E H]. rewrite E. auto.
Qed.

Lemma put_attribute_absent (attrs : list (string * string)) (n v : string) :
  existsb (fun a => (fst a =? n)%string) attrs = false ->
  put_attribute attrs n v = attrs ++ [(n, v)].
Proof.
  induction attrs as [|[m w] r IH]; simpl; [reflexivity|].
  intros H. apply orb_false_elim in H as [E H]. rewrite E, (IH H). reflexivity.
Qed.

Lemma put_attribute_lowercase (attrs : list (string * string)) (n v : string) :
  ascii_lowercase n = n -> lowercase_names attrs ->
  lowercase_names (put_attribute attrs n v).
Proof.
  intros Hn H. induction H as [|[m w] r Hm H IH]; cbn [put_attribute].
  - constructor; [exact Hn|constructor].
  - destruct (m =? n)%string; constructor; auto.
Qed.

(** What [setAttribute] returns when it returns. *)
Lemma setAttribute_ok (P : platform) (target out : list (string * string))
  (name value : string) :
  setAttribute P target name value = Ok out ->
  validAttributeName P name = true
  /\ out = put_attribute target (ascii_lowercase name) value.
Proof.
  unfold setAttribute. destruct (validAttributeName P name);
    [intros [= <-]; auto|discriminate].
Qed.

Section Attributes.

Variable P : platform.
Variable baseUrl : URLrec.

(** The first pass never sets a URL attribute, the names of the source
    being as the parser leaves them. *)
Lemma copy_plain_url (source : list (string * string)) (name : string) :
  is_url_attribute name = true ->
  forallb (fun a => parsed_name (fst a)) source = true ->
  forall target out,
    copy_plain P target source = Ok out ->
    getAttribute out name = getAttribute target name.
Proof.
  intros Hu. induction source as [|[n v] r IH]; intros Hp target out Hres;
    cbn [copy_plain] in Hres.
  - injection Hres as <-. reflexivity.
  - cbn [forallb fst] in Hp. apply andb_prop in Hp as [Hn Hp].
    destruct (is_url_attribute n) eqn:En; [apply (IH Hp); exact Hres|].
    apply rbind_ok in Hres as (target' & Hset & Hres).
    apply setAttribute_ok in Hset as [_ ->].
    rewrite (IH Hp _ _ Hres). apply getAttribute_put_other.
    intros E. unfold parsed_name in Hn. rewrite E, Hu in Hn.
    cbn [negb] in Hn. rewrite orb_false_r in Hn.
    apply String.eqb_eq in Hn. congruence.
Qed.

(** With names that stay distinct in lower case it copies every other
    attribute, under its name in lower case. *)
Lemma copy_plain_other (source : list (string * string)) (name : string) :
  is_url_attribute name = false ->
  forall target out,
    distinct_names (lowered source) = true ->
    copy_plain P target source = Ok out ->
    getAttribute out name
    = match getAttribute (lowered source) name with
      | Some v => Some v
      | None => getAttribute target name
      end.
Proof.
  intros Hu. induction source as [|[n v] r IH]; intros target out Hd Hres;
    cbn [copy_plain] in Hres.
  - injection Hres as <-. reflexivity.
  - cbn [lowered map fst snd distinct_names] in Hd.
    fold (lowered r) in Hd. apply andb_prop in Hd as [Hn Hd].
    apply negb_true_iff in Hn.
    cbn [lowered map fst snd getAttribute]. fold (lowered r).
    destruct (is_url_attribute n) eqn:En.
    + assert (E : (ascii_lowercase n =? name)%string = false).
      { apply String.eqb_neq. intros E.
        rewrite (url_attribute_lowercase n En) in E. congruence. }
      rewrite E. apply (IH _ _ Hd Hres).
    + apply rbind_ok in Hres as (target' & Hset & Hres).
      apply setAttribute_ok in Hset as [_ ->].
      rewrite (IH _ _ Hd Hres).
      destruct (ascii_lowercase n =? name)%string eqn:E.
      * apply String.eqb_eq in E. subst name.
        rewrite (getAttribute_absent (lowered r) _ Hn).
        apply getAttribute_put_same.
      * destruct (getAttribute (lowered r) name); [reflexivity|].
        apply getAttribute_put_other. apply String.eqb_neq. exact E.
Qed.

(** Both passes put names in lower case only. *)
Lemma copy_plain_lowercase (source : list (string * string)) :
  forall target out,
    lowercase_names target -> copy_plain P target source = Ok out ->
    lowercase_names out.
Proof.
  induction source as [|[n v] r IH]; intros target out Ht Hres;
    cbn [copy_plain] in Hres.
  - injection Hres as <-. exact Ht.
  - destruct (is_url_attribute n); [apply (IH _ _ Ht Hres)|].
    apply rbind_ok in Hres as (target' & Hset & Hres).
    apply setAttribute_ok in Hset as [_ ->].
    apply (IH _ _ (put_attribute_lowercase target _ v
                     (ascii_lowercase_idem n) Ht) Hres).
Qed.

Lemma resolve_candidates_lowercase (source : list (string * string))
  (candidates : list string) :
  forall target out,
    lowercase_names target ->
    resolve_candidates P target source baseUrl candidates = Ok out ->
    lowercase_names out.
Proof.
  induction candidates as [|a r IH]; intros target out Ht Hres;
    cbn [resolve_candidates] in Hres.
  - injection Hres as <-. exact Ht.
  - destruct (getAttribute source a) as [raw|]; [|apply (IH _ _ Ht Hres)].
    destruct (negb (JS.truthy raw)); [apply (IH _ _ Ht Hres)|].
    apply rbind_ok in Hres as (w & _ & Hres).
    apply rbind_ok in Hres as (target' & Hset & Hres).
    apply setAttribute_ok in Hset as [_ ->].
    apply (IH _ _ (put_attribute_lowercase target _ w
                     (ascii_lowercase_idem a) Ht) Hres).
Qed.

(** What the second pass leaves under a name was there before, or is the
    rewritten value of a candidate. *)
Lemma resolve_candidates_get (source : list (string * string))
  (candidates : list string) :
  (forall c, In c candidates -> ascii_lowercase c = c) ->
  forall target out name v,
    resolve_candidates P target source baseUrl candidates = Ok out ->
    getAttribute out name = Some v ->
    getAttribute target name = Some v
    \/ (In name candidates
        /\ exists raw,
             getAttribute source name = Some raw /\ JS.truthy raw = true
             /\ rewritten P baseUrl name raw = Ok v).
Proof.
  induction candidates as [|a r IH]; intros Hlow target out name v Hres Hget;
    cbn [resolve_candidates] in Hres.
  - injection Hres as <-. left. exact Hget.
  - assert (Hr : forall c, In c r -> ascii_lowercase c = c)
      by (intros c Hc; apply Hlow; right; exact Hc).
    assert (Hskip : resolve_candidates P target source baseUrl r = Ok out ->
              getAttribute target name = Some v
              \/ (In name (a :: r)
                  /\ exists raw,
                       getAttribute source name = Some raw /\ JS.truthy raw = true
                       /\ rewritten P baseUrl name raw = Ok v)).
    { intros H. destruct (IH Hr _ _ _ _ H Hget) as [Ht|(Hin & Hraw)];
        [left; exact Ht|right; split; [right; exact Hin|exact Hraw]]. }
    destruct (getAttribute source a) as [raw|] eqn:Ea; [|auto].
    destruct (JS.truthy raw) eqn:Et; cbn [negb] in Hres; [|auto].
    fold (rewritten P baseUrl a raw) in Hres.
    apply rbind_ok in Hres as (w & Hw & Hres).
    apply rbind_ok in Hres as (target' & Hset & Hres).
    apply setAttribute_ok in Hset as [_ ->].
    rewrite (Hlow a (or_introl eq_refl)) in Hres.
    destruct (IH Hr _ _ _ _ Hres Hget) as [Ht|(Hin & Hraw)].
    + destruct (String.eqb_spec a name) as [->|Hne].
      * rewrite getAttribute_put_same in Ht. injection Ht as ->.
        right. split; [left; reflexivity|]. exists raw. auto.
      * rewrite getAttribute_put_other in Ht by exact Hne. left. exact Ht.
    + right. split; [right; exact Hin|exact Hraw].
Qed.

(** Names that are no candidates are left alone. *)
Lemma resolve_candidates_other (source : list (string * string))
  (candidates : list string) (name : string) :
  (forall c, In c candidates -> ascii_lowercase c = c) ->
  ~ In name candidates ->
  forall target out,
    resolve_candidates P target source baseUrl candidates = Ok out ->
    getAttribute out name = getAttribute target name.
Proof.
  induction candidates as [|a r IH]; intros Hlow Hnin target out Hres;
    cbn [resolve_candidates] in Hres.
  - injection Hres as <-. reflexivity.
  - assert (Hl : forall c, In c r -> ascii_lowercase c = c)
      by (intros c Hc; apply Hlow; right; exact Hc).
    assert (Hr : ~ In name r) by (intros H; apply Hnin; right; exact H).
    assert (Ha : a <> name) by (intros H; apply Hnin; left; exact H).
    destruct (getAttribute source a) as [raw|]; [|apply (IH Hl Hr); exact Hres].
    destruct (negb (JS.truthy raw)); [apply (IH Hl Hr); exact Hres|].
    apply rbind_ok in Hres as (w & _ & Hres).
    apply rbind_ok in Hres as (target' & Hset & Hres).
    apply setAttribute_ok in Hset as [_ ->].
    rewrite (Hlow a (or_introl eq_refl)) in Hres.
    rewrite (IH Hl Hr _ _ Hres). apply getAttribute_put_other. exact Ha.
Qed.

End Attributes.

(** X6.  What [transferAttributes] puts on a fresh element, when it
    returns.  Every name is in ASCII lower case ([viewBox] arrives as
    [viewbox]).  The names of the source being as the HTML parser leaves
    them, a URL attribute ([src], [href], [xlink:href], [srcset]) is there
    only where the table lists it for the tag and the source carries a
    non-empty value, and then with the rewritten value, never the raw one.
    The names of the source staying distinct in lower case, every attribute
    that is no URL attribute and no candidate of the tag is there with the
    value the source has, under its name in lower case. *)
Theorem url_attributes_only_where_mapped
  (P : platform) (baseUrl : URLrec) (tagName : string)
  (source out : list (string * string)) :
  transferAttributes P [] tagName source baseUrl = Ok out ->
  lowercase_names out
  /\ (forallb (fun a => parsed_name (fst a)) source = true ->
   forall name v,
     is_url_attribute name = true -> getAttribute out name = Some v ->
     exists candidates raw,
       attributeMap_own tagName = Some candidates /\ In name candidates
       /\ getAttribute source name = Some raw /\ JS.truthy raw = true
       /\ rewritten P baseUrl name raw = Ok v)
  /\ (distinct_names (lowered source) = true ->
      forall name,
        ascii_lowercase name = name ->
        is_url_attribute name = false ->
        (forall candidates,
           attributeMap_own tagName = Some candidates -> ~ In name candidates) ->
        getAttribute out name = getAttribute (lowered source) name).
Proof.
  unfold transferAttributes. intros Hres.
  apply rbind_ok in Hres as (target1 & Hcopy & Hres). split; [|split].
  - pose proof (copy_plain_lowercase P source [] target1 (Forall_nil _) Hcopy)
      as H1.
    destruct (attributeMap_own tagName) as [candidates|].
    + apply (resolve_candidates_lowercase P baseUrl source candidates _ _ H1
               Hres).
    + destruct (existsb (String.eqb tagName) Object_prototype_keys);
        [discriminate|].
      injection Hres as <-. exact H1.
  - intros Hp name v Hu Hget.
    pose proof (copy_plain_url P source name Hu Hp [] target1 Hcopy) as Hc.
    cbn [getAttribute] in Hc.
    destruct (attributeMap_own tagName) as [candidates|] eqn:Em.
    + destruct (resolve_candidates_get P baseUrl source candidates
                  (attributeMap_lowercase tagName candidates Em) _ _ _ _
                  Hres Hget) as [Ht|(Hin & raw & Hraw)].
      * rewrite Hc in Ht. discriminate.
      * exists candidates, raw. auto.
    + destruct (existsb (String.eqb tagName) Object_prototype_keys);
        [discriminate|].
      injection Hres as <-. rewrite Hc in Hget. discriminate.
  - intros Hd name _ Hu Hc.
    assert (Hget : getAttribute target1 name
                   = getAttribute (lowered source) name).
    { rewrite (copy_plain_other P source name Hu [] target1 Hd Hcopy).
      destruct (getAttribute (lowered source) name); reflexivity. }
    destruct (attributeMap_own tagName) as [candidates|] eqn:Em.
    + rewrite (resolve_candidates_other P baseUrl source candidates name
                 (attributeMap_lowercase tagName candidates Em)
                 (Hc candidates eq_refl) _ _ Hres).
      exact Hget.
    + destruct (existsb (String.eqb tagName) Object_prototype_keys);
        [discriminate|].
      injection Hres as <-. exact Hget.
Qed.

Lemma url_attributes_only_where_mapped_witness :
  getAttribute [("viewbox", "0 0 10 10"); ("class", "icon")] "href" = None
  /\ getAttribute [("viewbox", "0 0 10 10"); ("class", "icon")] "viewbox"
     = Some "0 0 10 10".
Proof.
  pose proof (url_attributes_only_where_mapped (Std.platform_of [] [])
                demo_base "svg"
                [("viewBox", "0 0 10 10"); ("href", "icon.svg");
                 ("class", "icon")]
                [("viewbox", "0 0 10 10"); ("class", "icon")]
                eq_refl) as (_ & Hurl & Hplain).
  split.
  - destruct (getAttribute [("viewbox", "0 0 10 10"); ("class", "icon")]
                "href") as [v|] eqn:E; [|reflexivity].
    destruct (Hurl eq_refl "href" v eq_refl E) as (candidates & _ & Hm & _).
    discriminate Hm.
  - rewrite (Hplain eq_refl "viewbox" eq_refl eq_refl); [reflexivity|].
    intros candidates Hm. discriminate Hm.
Defined.

(** ** Plain trees *)

Section PlainTrees.

Variable P : platform.
Variable baseUrl : URLrec.

Lemma copy_plain_all (source : list (string * string)) :
  forallb (fun a => plain_attribute (fst a) && validAttributeName P (fst a))
          source = true ->
  distinct_names (lowered source) = true ->
  forall target,
    (forall a, In a (lowered source) ->
               existsb (fun b => (fst b =? fst a)%string) target = false) ->
    copy_plain P target source = Ok (target ++ lowered source).
Proof.
  induction source as [|[n v] r IH]; intros Hp Hd target Hfresh;
    cbn [copy_plain lowered map fst snd].
  - rewrite app_nil_r. reflexivity.
  - fold (lowered r).
    cbn [forallb fst] in Hp. apply andb_prop in Hp as [Hn Hp].
    apply andb_prop in Hn as [Hn Hv].
    cbn [lowered map fst snd distinct_names] in Hd. fold (lowered r) in Hd.
    apply andb_prop in Hd as [Hnr Hd]. apply negb_true_iff in Hnr.
    unfold plain_attribute in Hn. apply andb_prop in Hn as [Hu _].
    apply negb_true_iff in Hu. rewrite Hu.
    unfold setAttribute. rewrite Hv. cbn [rbind].
    rewrite (put_attribute_absent target (ascii_lowercase n) v
               (Hfresh (ascii_lowercase n, v) (or_introl eq_refl))).
    rewrite (IH Hp Hd).
    + rewrite <- app_assoc. reflexivity.
    + intros a Hin. rewrite existsb_app.
      rewrite (Hfresh a (or_intror Hin)). cbn [existsb fst orb].
      rewrite orb_false_r. apply not_true_is_false. intros E.
      apply String.eqb_eq in E. rewrite E in Hnr.
      assert (Hex : existsb (fun b => (fst b =? fst a)%string) (lowered r)
                    = true).
      { apply existsb_exists. exists a. split; [exact Hin|].
        apply String.eqb_refl. }
      congruence.
Qed.

Lemma getAttribute_plain (source : list (string * string)) (c : string) :
  forallb (fun a => plain_attribute (fst a) && validAttributeName P (fst a))
          source = true ->
  plain_attribute c = false -> getAttribute source c = None.
Proof.
  intros Hp Hc. induction source as [|[n v] r IH]; simpl; [reflexivity|].
  cbn [forallb fst] in Hp. apply andb_prop in Hp as [Hn Hp].
  apply andb_prop in Hn as [Hn _].
  destruct (n =? c)%string eqn:E; [|auto].
  apply String.eqb_eq in E. subst n. congruence.
Qed.

Lemma candidates_not_plain (tagName : string) (candidates : list string) :
  attributeMap_own tagName = Some candidates ->
  forall c, In c candidates -> plain_attribute c = false.
Proof.
  unfold attributeMap_own. intros H c Hin.
  repeat match type of H with
         | (if ?b then _ else _) = _ => destruct b
         end;
    try discriminate; injection H as <-;
    repeat (destruct Hin as [<-|Hin]; [reflexivity|]); destruct Hin.
Qed.

Lemma resolve_candidates_none (source : list (string * string))
  (candidates : list string) (target : list (string * string)) :
  (forall c, In c candidates -> getAttribute source c = None) ->
  resolve_candidates P target source baseUrl candidates = Ok target.
Proof.
  induction candidates as [|a r IH]; intros H; cbn [resolve_candidates];
    [reflexivity|].
  rewrite (H a (or_introl eq_refl)). apply IH. intros c Hin. apply H.
  right. exact Hin.
Qed.

Lemma transferAttributes_plain (tagName : string)
  (attrs : list (string * string)) :
  existsb (String.eqb tagName) Object_prototype_keys = false ->
  forallb (fun a => plain_attribute (fst a) && validAttributeName P (fst a))
          attrs = true ->
  distinct_names (lowered attrs) = true ->
  transferAttributes P [] tagName attrs baseUrl = Ok (lowered attrs).
Proof.
  intros Hk Hp Hd. unfold transferAttributes.
  rewrite (copy_plain_all attrs Hp Hd []) by reflexivity. cbn [app rbind].
  destruct (attributeMap_own tagName) as [candidates|] eqn:Em.
  - apply resolve_candidates_none. intros c Hin.
    apply getAttribute_plain; [exact Hp|].
    apply (candidates_not_plain tagName candidates Em c Hin).
  - rewrite Hk. reflexivity.
Qed.

Lemma clone_children_plain (tag : string) (element : list (string * string))
  (kids : list node) :
  Forall (fun k => plain P k = true ->
            forall bucket,
              cloneNodeTree P baseUrl k bucket
              = Return (Some (lower_names k), bucket)) kids ->
  forallb (plain P) kids = true ->
  forall appended bucket,
    clone_children (cloneNodeTree P baseUrl) tag element kids appended bucket
    = Return (Some (Element tag element (appended ++ map lower_names kids)),
              bucket).
Proof.
  intros HF. induction HF as [|k kids Hk HF IH]; intros Hp appended bucket;
    cbn [clone_children map].
  - rewrite app_nil_r. reflexivity.
  - cbn [forallb] in Hp. apply andb_prop in Hp as [Hpk Hp].
    rewrite (Hk Hpk bucket). cbn [abind fst snd]. rewrite (IH Hp).
    rewrite <- app_assoc. reflexivity.
Qed.

End PlainTrees.

(** X7.  A tree of texts and of elements with simple tag names that are
    neither scripts nor stylesheet links and carry no URL attribute and no
    [poster], under attribute names the platform accepts that stay distinct
    in lower case, is cloned without any fetch into the same tree, values
    and texts as they are, with the tag names in lower case and the
    attribute names in ASCII lower case; the bucket is left as it was. *)
Theorem plain_tree_cloned_verbatim
  (P : platform) (baseUrl : URLrec) (n : node) (bucket : list ScriptUnit) :
  plain P n = true ->
  cloneNodeTree P baseUrl n bucket = Return (Some (lower_names n), bucket).
Proof.
  revert bucket.
  induction n as [d|nt d|tagName attrs kids IH] using node_forall_ind;
    intros bucket Hp.
  - reflexivity.
  - discriminate.
  - cbn [plain] in Hp.
    apply andb_prop in Hp as [Hp Hkids]. apply andb_prop in Hp as [Hp Hdist].
    apply andb_prop in Hp as [Hp Hattrs]. apply andb_prop in Hp as [Hp _].
    apply andb_prop in Hp as [Hp Hkeys].
    apply andb_prop in Hp as [Hscript Hlink].
    apply negb_true_iff in Hscript, Hlink, Hkeys.
    cbn [cloneNodeTree lower_names]. rewrite Hscript, Hlink.
    rewrite (transferAttributes_plain P baseUrl tagName attrs Hkeys Hattrs Hdist).
    cbn [lift_result abind].
    rewrite (clone_children_plain P baseUrl (JS.toLowerCase tagName)
               (lowered attrs) kids);
      [reflexivity| |exact Hkids].
    eapply Forall_impl; [|exact IH]. intros k Hk Hpk b. apply Hk. exact Hpk.
Qed.

Lemma plain_tree_cloned_verbatim_witness :
  cloneNodeTree (Std.platform_of [] []) demo_base
    (Element "SECTION" [("class", "card")]
       [Element "H1" [] [Text "Title"];
        Element "svg" [("viewBox", "0 0 10 10")]
          [Element "circle" [("r", "4")] []];
        Text "body"]) []
  = Return
      (Some (Element "section" [("class", "card")]
               [Element "h1" [] [Text "Title"];
                Element "svg" [("viewbox", "0 0 10 10")]
                  [Element "circle" [("r", "4")] []];
                Text "body"]), []).
Proof.
  apply (plain_tree_cloned_verbatim (Std.platform_of [] []) demo_base
           (Element "SECTION" [("class", "card")]
              [Element "H1" [] [Text "Title"];
               Element "svg" [("viewBox", "0 0 10 10")]
                 [Element "circle" [("r", "4")] []];
               Text "body"]) []).
  reflexivity.
Defined.

(* ================================================================== *)
(** * The ledger: clearing twice, and release after registration *)
(* ================================================================== *)

Lemma clear_shadow_cleared (a : bool) (c : option (list release)) (d : bool)
  (w : window) (z : bool) (t : list obs) :
  (c = Some [] /\ d = true) \/ c = None ->
  clear_shadow (mkSandbox (mkShadow a [] c d) w z t)
  = mkSandbox (mkShadow a [] c d) w z t.
Proof. intros [[-> ->]| ->]; reflexivity. Qed.

Lemma clear_shadow_twice (sb : sandbox) :
  clear_shadow (clear_shadow sb) = clear_shadow sb.
Proof.
  assert (H : exists a c d w z t,
            clear_shadow sb = mkSandbox (mkShadow a [] c d) w z t
            /\ ((c = Some [] /\ d = true) \/ c = None)).
  { unfold clear_shadow. rewrite remove_children_spec.
    destruct (sandboxCleanup (root sb)) as [l|] eqn:E.
    - destruct (drain_spec sb l E) as (Dc & _). rewrite Dc.
      do 6 eexists. split; [reflexivity|]. left. cbn. rewrite Dc. auto.
    - rewrite (drain_none sb E), E.
      do 6 eexists. split; [reflexivity|]. right. cbn. exact E. }
  destruct H as (a & c & d & w & z & t & -> & Hc).
  apply clear_shadow_cleared. exact Hc.
Qed.

Lemma clear_shadow_attached (sb : sandbox) :
  attached (root (clear_shadow sb)) = attached (root sb).
Proof.
  unfold clear_shadow. rewrite remove_children_spec.
  cbn [root set_children attached].
  destruct (sandboxCleanup (root sb)) as [l|] eqn:El.
  - destruct (drain_spec sb l El) as (Dc & _ & _ & _ & _ & Da).
    rewrite Dc. cbn. exact Da.
  - rewrite (drain_none sb El), El. reflexivity.
Qed.

(** X8.  Clearing a cleared root changes nothing: a second [clearShadow]
    right after the first leaves the component exactly as the first left
    it, the log of what was called and removed included. *)
Theorem clearShadow_twice_is_once (s : state) :
  clearShadow (clearShadow s) = clearShadow s.
Proof.
  unfold clearShadow at 2.
  destruct (host_value s && attached (root (box s))) eqn:E.
  - unfold clearShadow.
    assert (Hh : host_value (with_box clear_shadow s) = host_value s)
      by reflexivity.
    assert (Ha : attached (root (box (with_box clear_shadow s)))
                 = attached (root (box s)))
      by (cbn [with_box box]; apply clear_shadow_attached).
    rewrite Hh, Ha, E. unfold with_box. cbn [ticket activeController
      next_controller aborted life fullscreen emitted requests pending box].
    rewrite clear_shadow_twice. reflexivity.
  - unfold clearShadow. rewrite E. reflexivity.
Qed.

Lemma filter_keep_all {A : Type} (f : A -> bool) (l : list A) :
  Forall (fun a => f a = true) l -> filter f l = l.
Proof.
  intros H. induction H as [|a l Ha H IH]; simpl; [reflexivity|].
  rewrite Ha, IH. reflexivity.
Qed.

(** X9.  In every state the component reaches, with the root not disposed:
    a timer or frame scheduled through the wrapper gets the next handle and
    its release is appended to the ledger, and calling that release right
    away leaves the pending timers exactly as they were before the call;
    likewise a resize observer made through the wrapper and its
    [disconnect]. *)
Theorem release_undoes_registration
  (P : platform) (ro : bool) (es : list event)
  (k : timer_kind) (cb : program) :
  let sb := box (run P (initial ro) es) in
  sandboxDisposed (root sb) = false ->
  (let hs := instrumented_schedule k cb sb in
   fst hs = next_handle (win sb)
   /\ cleanup_list (snd hs) = cleanup_list sb ++ [release_of k (fst hs)]
   /\ timers (win (snd hs)) = timers (win sb) ++ [mkTimer (fst hs) k cb true]
   /\ timers (win (apply_release (release_of k (fst hs)) (snd hs)))
      = timers (win sb))
  /\ (let ss := WrappedResizeObserver cb sb in
      cleanup_list (snd ss) = cleanup_list sb ++ [RDisconnect (fst ss)]
      /\ observers (win (snd ss)) = observers (win sb) ++ [mkObserver (fst ss) cb]
      /\ observers (win (apply_release (RDisconnect (fst ss)) (snd ss)))
         = observers (win sb)).
Proof.
  intros sb Hd.
  destruct (sound_reachable P ro es) as (Ht & Ho & _). fold sb in Ht, Ho.
  split.
  - unfold instrumented_schedule. rewrite Hd. cbv zeta.
    cbn [fst snd real_schedule].
    split; [reflexivity|]. split; [reflexivity|]. split; [reflexivity|].
    assert (Hold : forall class,
              filter (fun t => negb ((t_handle t =? next_handle (win sb))%Z
                                      && class t)) (timers (win sb))
              = timers (win sb)).
    { intros class. apply filter_keep_all.
      eapply Forall_impl; [|exact Ht]. intros t (_ & _ & Hlt). cbv beta.
      replace (t_handle t =? next_handle (win sb))%Z with false
        by (symmetry; apply Z.eqb_neq; lia).
      reflexivity. }
    destruct k; cbn [release_of apply_release real_clearTimer
                     real_cancelAnimationFrame push_cleanup with_root with_win
                     win timers set_timers bump_handle];
      rewrite filter_app, Hold; cbn [filter t_handle t_kind is_frame negb andb];
      rewrite Z.eqb_refl; cbn [andb negb]; apply app_nil_r.
  - unfold WrappedResizeObserver. cbv zeta. cbn [fst snd real_newObserver].
    split; [reflexivity|]. split; [reflexivity|].
    cbn [apply_release real_disconnect push_cleanup with_root with_win
         win observers set_observers bump_handle].
    rewrite filter_app.
    rewrite filter_keep_all.
    + cbn [filter o_serial]. rewrite Z.eqb_refl. cbn [negb]. apply app_nil_r.
    + eapply Forall_impl; [|exact Ho]. intros o (_ & Hlt). cbv beta.
      replace (o_serial o =? next_handle (win sb))%Z with false
        by (symmetry; apply Z.eqb_neq; lia).
      reflexivity.
Qed.

Lemma release_undoes_registration_witness :
  timers (win (apply_release
                 (release_of Interval
                    (fst (instrumented_schedule Interval [WriteRecorder 9]
                            (box (run timer_platform (initial true)
                                    timer_app_loaded)))))
                 (snd (instrumented_schedule Interval [WriteRecorder 9]
                         (box (run timer_platform (initial true)
                                 timer_app_loaded))))))
  = timers (win (box (run timer_platform (initial true) timer_app_loaded))).
Proof.
  assert (Hd : sandboxDisposed
                 (root (box (run timer_platform (initial true) timer_app_loaded)))
               = false) by (vm_compute; reflexivity).
  pose proof (release_undoes_registration timer_platform true timer_app_loaded
                Interval [WriteRecorder 9]) as H.
  cbv zeta in H. destruct (H Hd) as ((_ & _ & _ & E) & _). exact E.
Defined.

(* ================================================================== *)
(** * The application shell *)
(* ================================================================== *)

(** ** Splitting at white space *)

Lemma split_ws_not_nil (s : string) :
  forall sk, split_ws sk s <> [].
Proof.
  induction s as [|c r IH]; intros sk; simpl; [discriminate|].
  destruct (JS.is_space c); [destruct sk; [apply IH|discriminate]|].
  destruct (split_ws false r); discriminate.
Qed.

(** The words before and after a white space: the first piece of the
    split is the same, and the words after it are those of both sides. *)
Lemma split_ws_append (sp : ascii) (y : string) :
  JS.is_space sp = true ->
  forall x,
    (forall p ps q qs,
       split_ws false x = p :: ps ->
       split_ws false (x ++ String sp y) = q :: qs ->
       q = p
       /\ filter JS.truthy qs
          = filter JS.truthy ps ++ filter JS.truthy (split_ws true y))
    /\ filter JS.truthy (split_ws true (x ++ String sp y))
       = filter JS.truthy (split_ws true x)
         ++ filter JS.truthy (split_ws true y).
Proof.
  intros Hsp. induction x as [|c r [IHf IHt]].
  - split.
    + intros p ps q qs Hx Hxy. simpl in Hx, Hxy. rewrite Hsp in Hxy.
      injection Hx as <- <-. injection Hxy as <- <-. auto.
    + simpl. rewrite Hsp. reflexivity.
  - assert (Hnon : JS.is_space c = false ->
              forall sk,
                filter JS.truthy (split_ws sk (String c r ++ String sp y))
                = filter JS.truthy (split_ws sk (String c r))
                  ++ filter JS.truthy (split_ws true y)).
    { intros Hc sk. cbn [append split_ws]. rewrite Hc.
      destruct (split_ws false r) as [|p ps] eqn:Er;
        [destruct (split_ws_not_nil r false Er)|].
      destruct (split_ws false (r ++ String sp y)) as [|q qs] eqn:Ery;
        [destruct (split_ws_not_nil _ false Ery)|].
      destruct (IHf p ps q qs eq_refl eq_refl) as [-> Hq].
      cbn [filter JS.truthy String.eqb negb]. rewrite Hq. reflexivity. }
    split.
    + intros p ps q qs Hx Hxy. cbn [append split_ws] in Hx, Hxy.
      destruct (JS.is_space c) eqn:Hc.
      * injection Hx as <- <-. injection Hxy as <- <-. split; [reflexivity|].
        exact IHt.
      * destruct (split_ws false r) as [|p' ps'] eqn:Er;
          [destruct (split_ws_not_nil r false Er)|].
        destruct (split_ws false (r ++ String sp y)) as [|q' qs'] eqn:Ery;
          [destruct (split_ws_not_nil _ false Ery)|].
        injection Hx as <- <-. injection Hxy as <- <-.
        destruct (IHf p' ps' q' qs' eq_refl eq_refl) as [-> Hq]. auto.
    + destruct (JS.is_space c) eqn:Hc; [|apply (Hnon eq_refl true)].
      cbn [append split_ws]. rewrite Hc. exact IHt.
Qed.

Lemma split_ws_skipping (s : string) :
  filter JS.truthy (split_ws true s) = filter JS.truthy (split_ws false s).
Proof.
  destruct s as [|c r]; [reflexivity|]. simpl.
  destruct (JS.is_space c); reflexivity.
Qed.

Lemma words_append (x y : string) (sp : ascii) :
  JS.is_space sp = true ->
  filter JS.truthy (split_ws false (x ++ String sp y))
  = filter JS.truthy (split_ws false x) ++ filter JS.truthy (split_ws false y).
Proof.
  intros Hsp. rewrite <- !split_ws_skipping.
  rewrite (proj2 (split_ws_append sp y Hsp x)). reflexivity.
Qed.

Lemma words_blank (s : string) :
  blank s = true -> forall sk, filter JS.truthy (split_ws sk s) = [].
Proof.
  induction s as [|c r IH]; intros Hb sk; [reflexivity|].
  simpl in Hb. apply andb_prop in Hb as [Hc Hb]. simpl. rewrite Hc.
  destruct sk; simpl; apply IH; exact Hb.
Qed.

Lemma toLowerCase_append (x y : string) :
  JS.toLowerCase (x ++ y) = (JS.toLowerCase x ++ JS.toLowerCase y)%string.
Proof. induction x as [|c r IH]; simpl; [reflexivity|rewrite IH; reflexivity]. Qed.

Lemma lower_char_space (c : ascii) :
  JS.is_space (JS.lower_char c) = JS.is_space c.
Proof.
  destruct c as [[] [] [] [] [] [] [] []]; reflexivity.
Qed.

Lemma lower_char_twice (c : ascii) :
  JS.lower_char (JS.lower_char c) = JS.lower_char c.
Proof.
  destruct c as [[] [] [] [] [] [] [] []]; reflexivity.
Qed.

Lemma toLowerCase_twice (s : string) :
  JS.toLowerCase (JS.toLowerCase s) = JS.toLowerCase s.
Proof.
  induction s as [|c r IH]; simpl; [reflexivity|].
  rewrite lower_char_twice, IH. reflexivity.
Qed.

Lemma toLowerCase_blank (s : string) : blank (JS.toLowerCase s) = blank s.
Proof.
  induction s as [|c r IH]; simpl; [reflexivity|].
  rewrite lower_char_space, IH. reflexivity.
Qed.

Lemma tokens_append (x y : string) :
  Shell.tokens (x ++ " " ++ y) = Shell.tokens x ++ Shell.tokens y.
Proof.
  unfold Shell.tokens. rewrite !toLowerCase_append.
  change (JS.toLowerCase " ") with " "%string.
  apply (words_append (JS.toLowerCase x) (JS.toLowerCase y) " "%char).
  reflexivity.
Qed.

Lemma filter_projects_filter (all : list Shell.project) (term : string) :
  Shell.filter_projects all term = filter (Shell.matches term) all.
Proof.
  unfold Shell.filter_projects, Shell.matches.
  destruct (Shell.tokens term); [|reflexivity].
  simpl. induction all as [|p r IH]; simpl; [reflexivity|].
  rewrite <- IH. reflexivity.
Qed.

Lemma filter_filter {A : Type} (f g : A -> bool) (l : list A) :
  filter g (filter f l) = filter (fun a => f a && g a) l.
Proof.
  induction l as [|a l IH]; simpl; [reflexivity|].
  destruct (f a); simpl; [destruct (g a)|]; rewrite IH; reflexivity.
Qed.

(** X10.  The search of the catalog: a blank term shows every project; a
    term is matched whatever the case of its letters; and searching for two
    terms at once is searching for the second among the results of the
    first, so that every further word narrows the list and the order of the
    catalog is kept. *)
Theorem search_narrows_word_by_word
  (all : list Shell.project) (term more : string) :
  (blank term = true -> Shell.filter_projects all term = all)
  /\ Shell.filter_projects all (JS.toLowerCase term)
     = Shell.filter_projects all term
  /\ Shell.filter_projects all (term ++ " " ++ more)
     = Shell.filter_projects (Shell.filter_projects all term) more.
Proof.
  split; [|split].
  - intros Hb. unfold Shell.filter_projects, Shell.tokens.
    rewrite (words_blank (JS.toLowerCase term)); [reflexivity|].
    rewrite toLowerCase_blank. exact Hb.
  - unfold Shell.filter_projects, Shell.matches, Shell.tokens.
    rewrite toLowerCase_twice. reflexivity.
  - rewrite !filter_projects_filter, filter_filter.
    apply filter_ext. intros p. unfold Shell.matches.
    rewrite tokens_append, forallb_app. reflexivity.
Qed.

Lemma search_narrows_word_by_word_witness :
  Shell.filter_projects demo_catalog "   " = demo_catalog
  /\ map Shell.pr_slug (Shell.filter_projects demo_catalog "CANVAS  lattice")
     = ["neon-lattice"].
Proof.
  destruct (search_narrows_word_by_word demo_catalog "   " "") as (H & _).
  split; [apply H; reflexivity|].
  destruct (search_narrows_word_by_word demo_catalog "CANVAS " "lattice")
    as (_ & _ & H3).
  change ("CANVAS  lattice") with ("CANVAS " ++ " " ++ "lattice")%string.
  rewrite H3. vm_compute. reflexivity.
Defined.

Lemma existsb_find {A : Type} (f : A -> bool) (l : list A) :
  existsb f l = true -> exists a, find f l = Some a /\ In a l /\ f a = true.
Proof.
  induction l as [|b l IH]; simpl; [discriminate|].
  destruct (f b) eqn:E.
  - intros _. exists b. auto.
  - simpl. intros H. destruct (IH H) as (a & Hf & Hin & Ha). exists a. auto.
Qed.

(** X11.  After the watcher on the filtered catalog has run, the selection
    agrees with the list: with an empty list nothing is selected, the
    sandbox status is idle and fullscreen is off; with a non-empty list the
    selected project is one of the list (the one selected before if it is
    still listed, the first of the list otherwise).  Running the watcher
    again changes nothing. *)
Theorem selection_follows_filter (a : Shell.app) :
  let a' := Shell.watch_filteredProjects (Shell.filteredProjects a) a in
  Shell.filteredProjects a' = Shell.filteredProjects a
  /\ match Shell.filteredProjects a with
     | [] =>
         Shell.selectedSlug a' = EmptyString
         /\ Shell.selectedProject a' = None
         /\ Shell.isFullscreen a' = false
         /\ Shell.sandbox_status_of a' = Shell.Idle
         /\ Shell.activeSandbox_ticket a' = None
     | first :: _ =>
         exists p,
           Shell.selectedProject a' = Some p
           /\ In p (Shell.filteredProjects a)
           /\ (Shell.selectedProject a = None -> p = first)
           /\ (forall q, Shell.selectedProject a = Some q -> p = q)
     end
  /\ Shell.watch_filteredProjects (Shell.filteredProjects a') a' = a'.
Proof.
  cbv zeta. unfold Shell.selectedProject.
  assert (Hkeep : forall next,
            Shell.projects (Shell.watch_filteredProjects next a)
            = Shell.projects a
            /\ Shell.searchTerm (Shell.watch_filteredProjects next a)
               = Shell.searchTerm a).
  { intros next. unfold Shell.watch_filteredProjects,
      Shell.handleProjectSelection.
    destruct next as [|first rest]; [split; reflexivity|].
    destruct (existsb _ (first :: rest)); [split; reflexivity|].
    destruct (Shell.pr_slug first =? Shell.selectedSlug a)%string;
      split; reflexivity. }
  assert (Hf : Shell.filteredProjects
                 (Shell.watch_filteredProjects (Shell.filteredProjects a) a)
               = Shell.filteredProjects a).
  { unfold Shell.filteredProjects at 1.
    destruct (Hkeep (Shell.filteredProjects a)) as [-> ->]. reflexivity. }
  split; [exact Hf|]. rewrite Hf.
  destruct (Shell.filteredProjects a) as [|first rest] eqn:El.
  - cbn [Shell.watch_filteredProjects Shell.selectedSlug find
         Shell.isFullscreen Shell.sandbox_status_of
         Shell.activeSandbox_ticket Shell.projects Shell.searchTerm
         Shell.manifest_loading Shell.manifest_error
         Shell.sandbox_errorMessage].
    assert (Hs : (if JS.truthy (Shell.selectedSlug a) then EmptyString
                  else Shell.selectedSlug a) = EmptyString).
    { destruct (JS.truthy (Shell.selectedSlug a)) eqn:E; [reflexivity|].
      unfold JS.truthy in E. apply negb_false_iff in E.
      apply String.eqb_eq in E. exact E. }
    rewrite Hs. repeat split.
  - unfold Shell.watch_filteredProjects.
    destruct (existsb (fun p => (Shell.pr_slug p =? Shell.selectedSlug a)%string)
                (first :: rest)) eqn:Ex.
    + split; [|rewrite Ex; reflexivity].
      destruct (existsb_find _ _ Ex) as (p & Hfind & Hin & _).
      exists p. rewrite Hfind. repeat split; [exact Hin|discriminate|].
      intros q [= ->]. reflexivity.
    + assert (Hne : (Shell.pr_slug first =? Shell.selectedSlug a)%string = false).
      { cbn [existsb] in Ex. apply orb_false_elim in Ex as [E _]. exact E. }
      unfold Shell.handleProjectSelection. rewrite Hne.
      cbn [Shell.selectedSlug find]. rewrite String.eqb_refl.
      split.
      * exists first. repeat split; [left; reflexivity|].
        intros q Hq. rewrite Hne in Hq. apply find_some in Hq as [Hin Hq].
        assert (Ht : existsb
                       (fun p => (Shell.pr_slug p =? Shell.selectedSlug a)%string)
                       (first :: rest) = true)
          by (apply existsb_exists; exists q; split; [right; exact Hin|exact Hq]).
        congruence.
      * cbn [existsb]. rewrite String.eqb_refl. reflexivity.
Qed.

(** X13.  The shell takes no notice of an event without a slug: the
    [error] the sandbox emits for a descriptor whose slug is missing leaves
    the shell, whatever state it is in, as the events before it left it. *)
Theorem slugless_error_is_dropped
  (P : platform) (s : state) (entryPoint : string) (a : Shell.app) :
  life s <> Unmounted ->
  fold_left Shell.receive
    (emitted (step P s (Observe EmptyString entryPoint))) a
  = fold_left Shell.receive (emitted s) a.
Proof.
  intros HL.
  assert (E : emitted (step P s (Observe EmptyString entryPoint))
              = emitted s
                ++ [(Failed,
                     mkPayload EmptyString entryPoint (ticket s + 1)
                       (Some "Sandbox slug is missing. Cannot load project.")
                       false)]).
  { cbn [step].
    assert (Hw : emitted (watch_project EmptyString entryPoint s) = _)
      by (unfold watch_project; cbn [JS.truthy String.eqb negb emit emitted];
          rewrite (proj1 (proj2 (proj2 (proj2 (proj2 (proj2
                     (same_loader_clearShadow
                        (set_ticket (ticket s + 1) s))))))));
          reflexivity).
    destruct (life s); [exact Hw|exact Hw|contradiction]. }
  rewrite E, fold_left_app. reflexivity.
Qed.

Lemma slugless_error_is_dropped_witness :
  fold_left Shell.receive
    (emitted (step timer_platform entry_pending
                (Observe EmptyString "/projects/demo/index.html")))
    (shell_with demo_catalog EmptyString)
  = fold_left Shell.receive (emitted entry_pending)
      (shell_with demo_catalog EmptyString).
Proof.
  apply (slugless_error_is_dropped timer_platform entry_pending
           "/projects/demo/index.html" (shell_with demo_catalog EmptyString)).
  vm_compute. discriminate.
Defined.

(** ** The shell and the events of the sandbox *)

Lemma last_loading_snoc (evs : list (lifecycle * payload)) (l : lifecycle)
  (p : payload) :
  last_loading (evs ++ [(l, p)])
  = match l with
    | Loading => Some (p_ticket p)
    | _ => last_loading evs
    end.
Proof. unfold last_loading. rewrite fold_left_app. reflexivity. Qed.

Lemma orderly_app (slug : string) (evs d : list (lifecycle * payload)) (t : Z) :
  orderly slug evs ->
  Forall (fun ev => settled (fst ev) = true /\ p_slug (snd ev) = slug
                    /\ p_ticket (snd ev) = t) d ->
  (d <> [] -> last_loading evs = Some t) ->
  orderly slug (evs ++ d) /\ last_loading (evs ++ d) = last_loading evs.
Proof.
  intros Ho Hd. revert evs Ho. induction Hd as [|[l p] d (Hs & Hp & Ht) Hd IH];
    intros evs Ho Hl.
  - rewrite app_nil_r. auto.
  - cbn [fst snd] in *.
    assert (Hl' : last_loading evs = Some t) by (apply Hl; discriminate).
    assert (Hsn : last_loading (evs ++ [(l, p)]) = last_loading evs)
      by (rewrite last_loading_snoc; destruct l; [discriminate| |]; reflexivity).
    replace (evs ++ (l, p) :: d) with ((evs ++ [(l, p)]) ++ d)
      by (rewrite <- app_assoc; reflexivity).
    destruct (IH (evs ++ [(l, p)])) as [H1 H2].
    + apply orderly_settled; [exact Ho|exact Hp|exact Hs|].
      rewrite Hl', Ht. reflexivity.
    + intros _. rewrite Hsn. exact Hl'.
    + split; [exact H1|]. rewrite H2. exact Hsn.
Qed.

Lemma settled_count_positive (t : Z) (d : list (lifecycle * payload)) :
  d <> [] ->
  Forall (fun ev => settled (fst ev) = true /\ p_ticket (snd ev) = t) d ->
  (0 < settled_count t d)%nat.
Proof.
  intros Hne H. destruct H as [|ev d (Hs & Ht) H]; [contradiction|].
  unfold settled_count. cbn [filter]. rewrite Hs, Ht, Z.eqb_refl. simpl. lia.
Qed.

Section Relay.

Variable P : platform.

(** What a resumed load emits is settled and carries the load's slug and
    ticket. *)
Lemma load_catch_emits (tk : task) (e : js_error) (s : state) :
  exists d,
    emitted (load_catch tk e s) = emitted s ++ d
    /\ Forall (fun ev => settled (fst ev) = true
                         /\ p_slug (snd ev) = tk_slug tk
                         /\ p_ticket (snd ev) = tk_ticket tk) d.
Proof.
  unfold load_catch.
  destruct (err_name e =? "AbortError")%string;
    [exists []; rewrite app_nil_r; split; [reflexivity|constructor]|].
  destruct (ticket s =? tk_ticket tk)%Z;
    [|exists []; rewrite app_nil_r; split; [reflexivity|constructor]].
  destruct (same_loader_clearShadow s) as (_ & _ & _ & _ & _ & E & _).
  eexists. cbn [emit emitted]. rewrite E. split; [reflexivity|].
  constructor; [repeat split|constructor].
Qed.

Lemma after_inject_emits (tk : task) (baseUrl : URLrec)
  (r : state * inject_outcome) :
  exists d,
    emitted (after_inject tk baseUrl r) = emitted (fst r) ++ d
    /\ Forall (fun ev => settled (fst ev) = true
                         /\ p_slug (snd ev) = tk_slug tk
                         /\ p_ticket (snd ev) = tk_ticket tk) d.
Proof.
  unfold after_inject. destruct (snd r) as [|e|url k rest].
  - destruct (ticket (fst r) =? tk_ticket tk)%Z;
      [|exists []; rewrite app_nil_r; split; [reflexivity|constructor]].
    eexists. cbn [emit emitted]. split; [reflexivity|].
    constructor; [repeat split|constructor].
  - apply load_catch_emits.
  - exists []. rewrite app_nil_r. split; [reflexivity|constructor].
Qed.

Lemma deliver_emits (i : nat) (o : net_outcome) (s : state) :
  exists d,
    emitted (deliver P i o s) = emitted s ++ d
    /\ Forall (fun ev => settled (fst ev) = true
                         /\ exists tk, In tk (pending s)
                                       /\ p_slug (snd ev) = tk_slug tk) d
    /\ forall tk', In tk' (pending (deliver P i o s)) ->
         exists tk, In tk (pending s) /\ tk_slug tk' = tk_slug tk.
Proof.
  unfold deliver. destruct (nth_error (pending s) i) as [tk|] eqn:E.
  2:{ exists []. rewrite app_nil_r. split; [reflexivity|].
      split; [constructor|]. intros tk' Hin. exists tk'. auto. }
  pose proof (nth_error_In _ _ E) as Hin.
  set (s0 := set_pending (remove_nth i (pending s)) s).
  assert (Hwrap : forall s',
            (exists d,
               emitted s' = emitted s0 ++ d
               /\ Forall (fun ev => settled (fst ev) = true
                                    /\ p_slug (snd ev) = tk_slug tk
                                    /\ p_ticket (snd ev) = tk_ticket tk) d) ->
            (forall tk', In tk' (pending s') ->
               In tk' (pending s0) \/ tk_slug tk' = tk_slug tk) ->
            exists d,
              emitted s' = emitted s ++ d
              /\ Forall (fun ev => settled (fst ev) = true
                                   /\ exists tk0, In tk0 (pending s)
                                                  /\ p_slug (snd ev) = tk_slug tk0) d
              /\ forall tk', In tk' (pending s') ->
                   exists tk0, In tk0 (pending s) /\ tk_slug tk' = tk_slug tk0).
  { intros s' (d & Hd & Hf) Hp. exists d. split; [exact Hd|]. split.
    - eapply Forall_impl; [|exact Hf]. intros ev (Hs & Hsl & _).
      split; [exact Hs|]. exists tk. auto.
    - intros tk' Hin'. destruct (Hp tk' Hin') as [H|H].
      + exists tk'. split; [|reflexivity].
        apply (In_remove_nth tk' (pending s) i). exact H.
      + exists tk. auto. }
  assert (Hcatch : forall e,
            exists d,
              emitted (load_catch tk e s0) = emitted s ++ d
              /\ Forall (fun ev => settled (fst ev) = true
                                   /\ exists tk0, In tk0 (pending s)
                                                  /\ p_slug (snd ev) = tk_slug tk0) d
              /\ forall tk', In tk' (pending (load_catch tk e s0)) ->
                   exists tk0, In tk0 (pending s) /\ tk_slug tk' = tk_slug tk0).
  { intros e. apply Hwrap; [apply load_catch_emits|].
    intros tk' H. left. rewrite (proj2 (load_catch_pending tk e s0)) in H.
    exact H. }
  assert (Hafter : forall b (r : state * inject_outcome),
            same_loader s0 (fst r) ->
            exists d,
              emitted (after_inject tk b r) = emitted s ++ d
              /\ Forall (fun ev => settled (fst ev) = true
                                   /\ exists tk0, In tk0 (pending s)
                                                  /\ p_slug (snd ev) = tk_slug tk0) d
              /\ forall tk', In tk' (pending (after_inject tk b r)) ->
                   exists tk0, In tk0 (pending s) /\ tk_slug tk' = tk_slug tk0).
  { intros b r (_ & _ & _ & _ & _ & Em & Pd). apply Hwrap.
    - destruct (after_inject_emits tk b r) as (d & Hd & Hf).
      exists d. rewrite Hd, Em. auto.
    - intros tk' H. destruct (after_inject_pending tk b r) as (_ & Hp).
      destruct (snd r) as [|e|url k rest]; rewrite Hp in H;
        try (left; rewrite <- Pd; exact H).
      apply in_app_or in H as [H|[<-|[]]].
      + left. rewrite <- Pd. exact H.
      + right. reflexivity. }
  destruct (tk_point tk) as [c|baseUrl k rest].
  - unfold resume_entry.
    destruct (if existsb (Z.eqb c) (aborted s) then Rejected AbortError_
              else settle o) as [status html|e]; [|apply Hcatch].
    destruct (negb (response_ok status)); [apply Hcatch|].
    destruct (URL_ P (tk_entryPoint tk) (location_origin P)) as [b|];
      [|apply Hcatch].
    apply Hafter. apply injectHtml_clean.
  - unfold resume_clone. apply Hafter.
    apply same_loader_clone_step. intros b s'. apply inject_nodes_clean.
Qed.

Lemma relayed_step (slug : string) (s : state) (e : event) :
  JS.truthy slug = true -> shows slug e = true ->
  accounted s -> relayed slug s -> relayed slug (step P s e).
Proof.
  intros Hslug He Hacc (Ho & Hp & Hl).
  assert (Hsame : forall s',
            emitted s' = emitted s -> pending s' = pending s ->
            ticket s' = ticket s -> alive s' = alive s -> relayed slug s').
  { intros s' E Pd T A. unfold relayed. rewrite E, Pd, T, A. auto. }
  destruct e; cbn [step].
  - destruct (life s) eqn:L; [|apply Hsame; reflexivity..].
    apply Hsame; try reflexivity. unfold alive. cbn [set_life life].
    rewrite L. reflexivity.
  - cbn [shows] in He. apply andb_prop in He as [Hs0 He].
    apply String.eqb_eq in Hs0. subst slug0.
    assert (Hw : alive s = true ->
              relayed slug (watch_project slug entryPoint s)).
    { intros Ha. unfold watch_project. rewrite Hslug, He. cbn [negb].
      unfold loadProject. cbv zeta.
      assert (E : forall s1,
                emitted s1 = emitted s -> pending s1 = pending s ->
                life s1 = life s -> ticket s1 = (ticket s + 1)%Z ->
                relayed slug
                  (set_pending
                     (pending
                        (issue (mkRequest entryPoint (Some (next_controller s1)))
                           (emit Loading
                              (createEventPayload slug entryPoint (ticket s + 1))
                              (new_controller s1)))
                      ++ [mkTask slug entryPoint (ticket s + 1)
                            (AtEntry (next_controller s1))])
                     (issue (mkRequest entryPoint (Some (next_controller s1)))
                        (emit Loading
                           (createEventPayload slug entryPoint (ticket s + 1))
                           (new_controller s1))))).
      { intros s1 E1 P1 L1 T1. unfold relayed.
        cbn [set_pending issue emit new_controller emitted pending ticket].
        rewrite E1, P1, T1. split; [|split].
        - apply orderly_loading; [exact Ho|reflexivity].
        - apply Forall_app. split; [exact Hp|].
          constructor; [reflexivity|constructor].
        - intros _ _. rewrite last_loading_snoc. reflexivity. }
      destruct (activeController (set_ticket (ticket s + 1) s));
        apply E; reflexivity. }
    unfold alive in Hw. destruct (life s); try (apply Hw; reflexivity).
    apply Hsame; reflexivity.
  - destruct (life s) eqn:L; try (apply Hsame; reflexivity);
      (destruct (Bool.eqb next (fullscreen s)); [apply Hsame; reflexivity|];
       unfold watch_fullscreen; destruct next;
       [destruct (same_loader_enableDprSizer (set_fullscreen true s))
          as (T & _ & _ & _ & LL & E & Pd);
        apply Hsame; [exact E|exact Pd|exact T|unfold alive; rewrite LL;
                                               reflexivity]
       |apply Hsame; reflexivity]).
  - assert (Hu : relayed slug (set_life Unmounted (onBeforeUnmount s))).
    { destruct (onBeforeUnmount_mints s) as (T & E).
      assert (Pd : pending (onBeforeUnmount s) = pending s).
      { unfold onBeforeUnmount. cbv zeta.
        destruct (same_loader_clearShadow (set_ticket (ticket s + 1) s))
          as (_ & _ & _ & _ & _ & _ & Pd).
        destruct (activeController (clearShadow (set_ticket (ticket s + 1) s)));
          exact Pd. }
      unfold relayed. cbn [set_life emitted pending ticket].
      rewrite E, Pd. split; [exact Ho|]. split; [exact Hp|].
      intros Ha. discriminate Ha. }
    destruct (life s); try exact Hu. apply Hsame; reflexivity.
  - destruct (deliver_emits i o s) as (d & Hd & Hf & Hpend).
    destruct (advances_deliver P i o s) as (T & d' & Hd' & Hf').
    assert (d' = d) by (rewrite Hd in Hd'; apply app_inv_head in Hd'; auto).
    subst d'.
    destruct (deliver_balance P _ i o s Hacc) as (L & Hbal).
    assert (Hfull : Forall (fun ev => settled (fst ev) = true
                                      /\ p_slug (snd ev) = slug
                                      /\ p_ticket (snd ev) = ticket s) d).
    { rewrite Forall_forall in *. intros ev Hin.
      destruct (Hf ev Hin) as (Hs & tk & Htk & Hsl).
      repeat split; [exact Hs| |apply Hf'; exact Hin].
      rewrite Hsl. apply Hp. exact Htk. }
    assert (Hlive : d <> [] -> last_loading (emitted s) = Some (ticket s)).
    { intros Hne.
      assert (Hpos : (0 < settled_count (ticket s) d)%nat).
      { apply settled_count_positive; [exact Hne|].
        eapply Forall_impl; [|exact Hfull]. intros ev (A & _ & B). auto. }
      destruct Hbal as (_ & _ & _ & _ & _ & H5).
      rewrite T, Hd, settled_count_app in H5.
      destruct (alive s) eqn:Ea; [|cbn [andb] in H5; lia].
      destruct (1 <=? ticket s)%Z eqn:Et; [|cbn [andb] in H5; lia].
      apply Hl; [reflexivity|apply Z.leb_le; exact Et]. }
    destruct (orderly_app slug (emitted s) d (ticket s) Ho Hfull Hlive)
      as [Ho' Hl'].
    unfold relayed. rewrite Hd, T. split; [exact Ho'|]. split.
    + apply Forall_forall. intros tk' Hin.
      destruct (Hpend tk' Hin) as (tk & Htk & ->).
      rewrite Forall_forall in Hp. apply Hp. exact Htk.
    + unfold alive. rewrite L. fold (alive s). rewrite Hl'. exact Hl.
  - apply Hsame; reflexivity.
  - apply Hsame; reflexivity.
  - apply Hsame; reflexivity.
Qed.

Lemma relayed_run (slug : string) (ro : bool) (es : list event) :
  JS.truthy slug = true -> forallb (shows slug) es = true ->
  relayed slug (run P (initial ro) es).
Proof.
  intros Hslug. unfold run. rewrite <- (rev_involutive es).
  induction (rev es) as [|e res IH]; simpl; intros Hes.
  - split; [constructor|]. split; [constructor|]. intros _ H. simpl in H. lia.
  - rewrite forallb_app in Hes. apply andb_prop in Hes as [Hres He].
    simpl in He. rewrite andb_true_r in He.
    rewrite fold_left_app. cbn [fold_left].
    apply relayed_step; [exact Hslug|exact He| |apply IH; exact Hres].
    pose proof (accounted_run P ro (rev res)) as Ha. exact Ha.
Qed.

End Relay.

(** The shell takes every event of an orderly list. *)
Lemma shell_takes_orderly (slug : string) (a : Shell.app)
  (evs : list (lifecycle * payload)) :
  JS.truthy slug = true -> Shell.selectedSlug a = slug ->
  orderly slug evs ->
  let a' := fold_left Shell.receive evs a in
  Shell.selectedSlug a' = slug
  /\ Shell.projects a' = Shell.projects a
  /\ Shell.searchTerm a' = Shell.searchTerm a
  /\ Shell.isFullscreen a' = Shell.isFullscreen a
  /\ match last_loading evs with
     | Some t => Shell.activeSandbox_ticket a' = Some t
                 /\ Shell.activeSandbox_slug a' = slug
     | None => True
     end
  /\ forall pre l p,
       evs = pre ++ [(l, p)] ->
       Shell.sandbox_status_of a' = Shell.shown l
       /\ Shell.sandbox_errorMessage a'
          = match l with
            | Failed => match p_error p with
                        | Some m => m
                        | None => "Unknown sandbox error."
                        end
            | _ => EmptyString
            end.
Proof.
  intros Hslug Hsel Ho. cbv zeta.
  induction Ho as [|evs0 p0 Ho0 IH Hp|evs0 l0 p0 Ho0 IH Hp Hs Hl].
  - simpl. repeat (split; [solve [auto]|]).
    intros [|x pre] l p H; discriminate H.
  - destruct IH as (I1 & I2 & I3 & I4 & I5 & _).
    rewrite fold_left_app, last_loading_snoc. cbn [fold_left].
    set (a1 := fold_left Shell.receive evs0 a) in *. clearbody a1.
    unfold Shell.receive, Shell.handleSandboxLoading,
      Shell.isPayloadForCurrentProject. cbn [fst snd].
    rewrite I1, Hp, Hslug, String.eqb_refl. cbn [andb negb].
    cbn [Shell.set_sandbox Shell.selectedSlug Shell.projects Shell.searchTerm
         Shell.isFullscreen Shell.activeSandbox_ticket Shell.activeSandbox_slug
         Shell.sandbox_status_of Shell.sandbox_errorMessage].
    repeat (split; [solve [auto]|]).
    intros pre l q H. apply app_inj_tail in H as [_ [= <- <-]].
    split; reflexivity.
  - destruct IH as (I1 & I2 & I3 & I4 & I5 & _).
    rewrite Hl in I5. destruct I5 as [I5 I6].
    rewrite fold_left_app, last_loading_snoc. cbn [fold_left].
    set (a1 := fold_left Shell.receive evs0 a) in *. clearbody a1.
    assert (Hm : Shell.ticket_mismatch p0 a1 = false).
    { unfold Shell.ticket_mismatch. rewrite I5, Z.eqb_refl.
      apply andb_false_r. }
    assert (Hll : match l0 with
                  | Loading => Some (p_ticket p0)
                  | _ => last_loading evs0
                  end = Some (p_ticket p0))
      by (destruct l0; [reflexivity|exact Hl|exact Hl]).
    rewrite Hll.
    unfold Shell.receive, Shell.handleSandboxLoaded, Shell.handleSandboxError,
      Shell.isPayloadForCurrentProject. cbn [fst snd].
    destruct l0; [discriminate Hs| |];
      rewrite I1, Hp, Hslug, String.eqb_refl, Hm; cbn [andb negb];
      cbn [Shell.set_sandbox Shell.selectedSlug Shell.projects Shell.searchTerm
           Shell.isFullscreen Shell.activeSandbox_ticket
           Shell.activeSandbox_slug Shell.sandbox_status_of
           Shell.sandbox_errorMessage];
      (repeat (split; [solve [auto]|]);
       intros pre l q H; apply app_inj_tail in H as [_ [= <- <-]];
       split; reflexivity).
Qed.

(** X12.  The shell shows what the sandbox did last.  For a sandbox that
    is only ever shown descriptors of the selected slug, each with an entry
    point that is not empty, the shell refuses none of its events: after the events of any
    run have reached the handlers in order, the status is the one of the
    last event ([loading], [ready] or [error]), the message is that of the
    last [error] or empty, and the ticket the shell holds is the one of
    the last event. *)
Theorem shell_shows_last_event
  (P : platform) (ro : bool) (es : list event) (slug : string)
  (a : Shell.app) (pre : list (lifecycle * payload)) (l : lifecycle)
  (p : payload) :
  JS.truthy slug = true -> Shell.selectedSlug a = slug ->
  forallb (shows slug) es = true ->
  emitted (run P (initial ro) es) = pre ++ [(l, p)] ->
  let a' := fold_left Shell.receive (emitted (run P (initial ro) es)) a in
  Shell.sandbox_status_of a' = Shell.shown l
  /\ Shell.sandbox_errorMessage a'
     = match l with
       | Failed => match p_error p with
                   | Some m => m
                   | None => "Unknown sandbox error."
                   end
       | _ => EmptyString
       end
  /\ Shell.activeSandbox_ticket a' = Some (p_ticket p)
  /\ Shell.activeSandbox_slug a' = slug
  /\ Shell.selectedSlug a' = slug.
Proof.
  intros Hslug Hsel Hes Hlast.
  destruct (relayed_run P slug ro es Hslug Hes) as (Ho & _ & _).
  pose proof (shell_takes_orderly slug a _ Hslug Hsel Ho) as H.
  cbv zeta in *. destruct H as (H1 & _ & _ & _ & H5 & H6).
  destruct (H6 pre l p Hlast) as [Hst Hmsg].
  split; [exact Hst|]. split; [exact Hmsg|].
  assert (Hll : last_loading (emitted (run P (initial ro) es))
                = Some (p_ticket p)).
  { rewrite Hlast in Ho |- *. rewrite last_loading_snoc.
    inversion Ho as [E|evs q Ho' Hq E|evs l' q Ho' Hq Hs Hl' E].
    - destruct pre; discriminate E.
    - apply app_inj_tail in E as [_ [= <- <-]]. reflexivity.
    - apply app_inj_tail in E as [<- [= <- <-]].
      destruct l'; [reflexivity|exact Hl'|exact Hl']. }
  rewrite Hll in H5. destruct H5 as [H5 H5']. auto.
Qed.

Lemma shell_shows_last_event_witness :
  Shell.sandbox_status_of
    (fold_left Shell.receive
       (emitted (run timer_platform (initial true) timer_app_loaded))
       demo_shell) = Shell.Ready
  /\ Shell.activeSandbox_ticket
       (fold_left Shell.receive
          (emitted (run timer_platform (initial true) timer_app_loaded))
          demo_shell) = Some 1%Z.
Proof.
  assert (He : emitted (run timer_platform (initial true) timer_app_loaded)
               = [(Loading,
                   createEventPayload "demo" "/projects/demo/index.html" 1)]
                 ++ [(Loaded,
                      createEventPayload "demo" "/projects/demo/index.html" 1)])
    by (vm_compute; reflexivity).
  pose proof (shell_shows_last_event timer_platform true timer_app_loaded "demo"
                demo_shell _ _ _ eq_refl eq_refl eq_refl He) as H.
  cbv zeta in H. destruct H as (H1 & _ & H3 & _). split; [exact H1|exact H3].
Defined.

(* ================================================================== *)
(** * The manifest builder *)
(* ================================================================== *)

(** ** Trimming *)

Lemma trimStart_list (l : list ascii) :
  JS.trimStart (string_of_list_ascii l) = string_of_list_ascii (drop_spaces l).
Proof.
  induction l as [|c r IH]; simpl; [reflexivity|].
  destruct (JS.is_space c); [exact IH|reflexivity].
Qed.

Lemma trim_list (s : string) :
  JS.trim s
  = string_of_list_ascii
      (rev (drop_spaces (rev (drop_spaces (list_ascii_of_string s))))).
Proof.
  unfold JS.trim, JS.reverse.
  rewrite <- (string_of_list_ascii_of_string s) at 1.
  rewrite trimStart_list, list_ascii_of_string_of_list_ascii.
  rewrite trimStart_list, list_ascii_of_string_of_list_ascii. reflexivity.
Qed.

Lemma drop_spaces_twice (l : list ascii) :
  drop_spaces (drop_spaces l) = drop_spaces l.
Proof.
  induction l as [|c r IH]; simpl; [reflexivity|].
  destruct (JS.is_space c) eqn:E; [exact IH|]. simpl. rewrite E. reflexivity.
Qed.

Lemma drop_spaces_last (x : list ascii) (c : ascii) :
  JS.is_space c = false -> exists w, drop_spaces (x ++ [c]) = w ++ [c].
Proof.
  intros Hc. induction x as [|d r IH]; simpl.
  - rewrite Hc. exists []. reflexivity.
  - destruct (JS.is_space d); [exact IH|]. exists (d :: r). reflexivity.
Qed.

(** Trimmed on the left stays so when trimmed on the right. *)
Lemma drop_spaces_both (u : list ascii) :
  drop_spaces u = u ->
  drop_spaces (rev (drop_spaces (rev u))) = rev (drop_spaces (rev u)).
Proof.
  intros Hu. destruct u as [|c r]; [reflexivity|].
  simpl in Hu. destruct (JS.is_space c) eqn:Hc.
  - exfalso. assert (Hlen : (List.length (drop_spaces r) <= List.length r)%nat).
    { clear. induction r as [|d r IH]; simpl; [lia|].
      destruct (JS.is_space d); simpl; lia. }
    rewrite Hu in Hlen. simpl in Hlen. lia.
  - simpl rev. destruct (drop_spaces_last (rev r) c Hc) as (w & ->).
    rewrite rev_app_distr. simpl. rewrite Hc. reflexivity.
Qed.

Lemma trim_twice (s : string) : JS.trim (JS.trim s) = JS.trim s.
Proof.
  rewrite (trim_list (JS.trim s)), (trim_list s).
  rewrite list_ascii_of_string_of_list_ascii.
  set (u := drop_spaces (list_ascii_of_string s)).
  assert (Hu : drop_spaces u = u) by apply drop_spaces_twice.
  rewrite (drop_spaces_both u Hu), rev_involutive, drop_spaces_twice.
  reflexivity.
Qed.

Lemma length_positive_truthy (s : string) :
  (0 <? String.length s)%nat = JS.truthy s.
Proof. destruct s; reflexivity. Qed.

(** ** Unique values *)

Lemma unique_In (l : list string) (x : string) :
  In x (Manifest.unique l) <-> In x l.
Proof.
  induction l as [|y r IH]; simpl; [tauto|].
  rewrite filter_In, IH. split.
  - intros [H|[H _]]; auto.
  - intros [H|H]; [auto|].
    destruct (x =? y)%string eqn:E.
    + apply String.eqb_eq in E. left. auto.
    + right. split; [exact H|reflexivity].
Qed.

Lemma NoDup_filter {A : Type} (f : A -> bool) (l : list A) :
  NoDup l -> NoDup (filter f l).
Proof.
  intros H. induction H as [|a l Ha H IH]; simpl; [constructor|].
  destruct (f a); [|exact IH]. constructor; [|exact IH].
  intros Hin. apply filter_In in Hin. apply Ha, Hin.
Qed.

Lemma unique_NoDup (l : list string) : NoDup (Manifest.unique l).
Proof.
  induction l as [|y r IH]; simpl; constructor.
  - intros Hin. apply filter_In in Hin as [_ H].
    rewrite String.eqb_refl in H. discriminate.
  - apply NoDup_filter. exact IH.
Qed.

Lemma unique_of_NoDup (l : list string) : NoDup l -> Manifest.unique l = l.
Proof.
  intros H. induction H as [|x l Hx H IH]; simpl; [reflexivity|].
  rewrite IH. f_equal. apply filter_keep_all.
  apply Forall_forall. intros y Hy. apply negb_true_iff, String.eqb_neq.
  intros ->. contradiction.
Qed.

Lemma ensureString_trimmed (v : Manifest.json) :
  let s := Manifest.ensureString v EmptyString in
  JS.trim s = s.
Proof.
  destruct v; try reflexivity. cbn [Manifest.ensureString]. cbv zeta.
  destruct (0 <? String.length (JS.trim s))%nat; [apply trim_twice|reflexivity].
Qed.

(** X14.  The lists of tags and agents in the manifest: whatever the
    configuration holds, [ensureArrayOfStrings] returns strings that are
    not empty and have no white space at either end, each one once;
    nothing comes of [null] and [undefined]; and the result is a fixed
    point, the function returns its own result unchanged. *)
Theorem ensureArrayOfStrings_is_clean (value : Manifest.json) :
  let out := Manifest.ensureArrayOfStrings value in
  NoDup out
  /\ Forall (fun s => JS.truthy s = true /\ JS.trim s = s) out
  /\ Manifest.ensureArrayOfStrings Manifest.JNull = []
  /\ Manifest.ensureArrayOfStrings Manifest.JUndefined = []
  /\ Manifest.ensureArrayOfStrings (Manifest.JArray (map Manifest.JString out))
     = out.
Proof.
  cbv zeta.
  assert (Hgen : forall candidate,
            let out := Manifest.unique
                         (filter JS.truthy
                            (map (fun item =>
                                    Manifest.ensureString item EmptyString)
                                 candidate)) in
            NoDup out
            /\ Forall (fun s => JS.truthy s = true /\ JS.trim s = s) out).
  { intros candidate. cbv zeta. split; [apply unique_NoDup|].
    apply Forall_forall. intros s Hs. apply (proj1 (unique_In _ _)) in Hs.
    apply filter_In in Hs as [Hs Ht]. split; [exact Ht|].
    apply in_map_iff in Hs as (item & <- & _). apply ensureString_trimmed. }
  assert (Hclean : NoDup (Manifest.ensureArrayOfStrings value)
                   /\ Forall (fun s => JS.truthy s = true /\ JS.trim s = s)
                        (Manifest.ensureArrayOfStrings value)).
  { destruct value as [| |s|items|];
      try (split; constructor); try apply Hgen. }
  destruct Hclean as [Hnd Hall]. split; [exact Hnd|]. split; [exact Hall|].
  split; [reflexivity|]. split; [reflexivity|].
  cbn [Manifest.ensureArrayOfStrings]. rewrite map_map.
  assert (Hid : filter JS.truthy
                  (map (fun s => Manifest.ensureString (Manifest.JString s)
                                   EmptyString)
                       (Manifest.ensureArrayOfStrings value))
                = Manifest.ensureArrayOfStrings value).
  { induction Hall as [|s l (Ht & Hs) Hall IH]; [reflexivity|].
    cbn [map filter Manifest.ensureString]. rewrite Hs, length_positive_truthy, Ht.
    rewrite Ht. f_equal. apply IH. inversion Hnd; assumption. }
  rewrite Hid. apply unique_of_NoDup. exact Hnd.
Qed.

Lemma ensureString_truthy (v : Manifest.json) (fallback : string) :
  JS.truthy fallback = true ->
  JS.truthy (Manifest.ensureString v fallback) = true.
Proof.
  intros Hf. destruct v; try exact Hf. cbn [Manifest.ensureString]. cbv zeta.
  destruct (0 <? String.length (JS.trim s))%nat eqn:E; [|exact Hf].
  rewrite <- length_positive_truthy. exact E.
Qed.

Lemma resolveEntryPoint_truthy (slug : string) (entry : Manifest.json) :
  JS.truthy (Manifest.resolveEntryPoint slug entry) = true.
Proof.
  unfold Manifest.resolveEntryPoint. cbv zeta.
  pose proof (ensureString_truthy entry "index.html" eq_refl) as H.
  destruct (Manifest.web_address _ || JS.startsWith _ "data:"); [exact H|].
  destruct (JS.startsWith _ "/"); [exact H|]. reflexivity.
Qed.

(** X15.  A project of the manifest always starts a load.  The descriptor
    the manifest builder lists for a directory has a slug and an entry
    point that are not empty, whatever the configuration file holds; so
    when the sandbox is shown it, it takes neither the missing-slug nor the
    missing-entry branch: it emits [loading] with the next ticket, requests
    the entry point with a fresh abort signal and leaves the root alone. *)
Theorem manifest_project_always_loads
  (P : platform) (s : state) (slugFromDir : string) (c : Manifest.config) :
  life s <> Unmounted -> JS.truthy slugFromDir = true ->
  let d := Manifest.descriptor slugFromDir c in
  let s' := step P s (Observe (fst d) (snd d)) in
  JS.truthy (fst d) = true /\ JS.truthy (snd d) = true
  /\ emitted s'
     = emitted s
       ++ [(Loading, createEventPayload (fst d) (snd d) (ticket s + 1))]
  /\ requests s'
     = requests s ++ [mkRequest (snd d) (Some (next_controller s))]
  /\ pending s'
     = pending s
       ++ [mkTask (fst d) (snd d) (ticket s + 1) (AtEntry (next_controller s))]
  /\ box s' = box s.
Proof.
  intros HL Hdir d s'.
  assert (H1 : JS.truthy (fst d) = true).
  { unfold d, Manifest.descriptor, Manifest.slug_of. cbn [fst]. cbv zeta.
    destruct (JS.truthy (Manifest.ensureString (Manifest.c_slug c) slugFromDir))
      eqn:E; [exact E|exact Hdir]. }
  assert (H2 : JS.truthy (snd d) = true)
    by apply resolveEntryPoint_truthy.
  split; [exact H1|]. split; [exact H2|].
  assert (E : s' = watch_project (fst d) (snd d) s)
    by (unfold s'; cbn [step]; destruct (life s);
        [reflexivity|reflexivity|contradiction]).
  rewrite E. unfold watch_project. rewrite H1, H2. cbn [negb].
  unfold loadProject. cbv zeta.
  cbn [set_ticket activeController].
  destruct (activeController s); repeat split.
Qed.

Lemma manifest_project_always_loads_witness :
  map fst
    (emitted
       (step timer_platform (initial true)
          (Observe
             (fst (Manifest.descriptor "neon-lattice"
                     (Manifest.mkConfig (Manifest.JString "   ")
                        Manifest.JNull Manifest.JUndefined)))
             (snd (Manifest.descriptor "neon-lattice"
                     (Manifest.mkConfig (Manifest.JString "   ")
                        Manifest.JNull Manifest.JUndefined))))))
  = [Loading].
Proof.
  assert (HL : life (initial true) <> Unmounted) by discriminate.
  pose proof (manifest_project_always_loads timer_platform (initial true)
                "neon-lattice"
                (Manifest.mkConfig (Manifest.JString "   ") Manifest.JNull
                   Manifest.JUndefined) HL eq_refl) as H.
  cbv zeta in H. destruct H as (_ & _ & H & _). rewrite H. reflexivity.
Defined.
